(** * Email authentication assessment: header analyser and DNS checker

    A shallow embedding of [analisador_cabecalho.py] (class
    [EmailHeaderAnalyzer]) and of [email_auth_fix.py] (class
    [EmailAuthChecker]), with the properties their specification states.

    Python strings are sequences of Unicode code points; the [results]
    dictionaries of both classes become records whose fields are the
    dictionary keys, and every method that mutates [self.results] becomes a
    function from the old state to the new one. *)

From Stdlib Require Import Ascii String.
From Stdlib Require DecimalString.
From Stdlib Require Import List NArith Bool Lia Arith.
Import ListNotations.

Local Open Scope N_scope.
Local Open Scope list_scope.

(** ** Python [str] *)

Definition char := N.
Definition str := list char.

(** String literals of the source files, which are UTF-8 encoded: bytes are
    decoded to code points. *)
Fixpoint utf8_decode (bs : list N) : str :=
  match bs with
  | [] => []
  | b0 :: r0 =>
    if b0 <? 128 then b0 :: utf8_decode r0
    else if b0 <? 224 then
      match r0 with
      | b1 :: r1 => ((b0 - 192) * 64 + (b1 - 128)) :: utf8_decode r1
      | [] => [b0]
      end
    else if b0 <? 240 then
      match r0 with
      | b1 :: b2 :: r2 =>
        ((b0 - 224) * 4096 + (b1 - 128) * 64 + (b2 - 128)) :: utf8_decode r2
      | _ => [b0]
      end
    else
      match r0 with
      | b1 :: b2 :: b3 :: r3 =>
        ((b0 - 240) * 262144 + (b1 - 128) * 4096 + (b2 - 128) * 64 + (b3 - 128))
          :: utf8_decode r3
      | _ => [b0]
      end
  end.

Definition u (s : string) : str :=
  utf8_decode (map N_of_ascii (list_ascii_of_string s)).
Arguments u s%_string.

Fixpoint str_eqb (a b : str) : bool :=
  match a, b with
  | [], [] => true
  | x :: a', y :: b' => (x =? y) && str_eqb a' b'
  | _, _ => false
  end.

(** Truthiness of a possibly-[None] string: [if x:]. *)
Definition truthy (x : option str) : bool :=
  match x with
  | Some (_ :: _) => true
  | _ => false
  end.

(** [str.isspace] on one code point, which is also the class [\s] of [re]
    on [str] patterns. *)
Definition isspace (c : char) : bool :=
  ((9 <=? c) && (c <=? 13)) || ((28 <=? c) && (c <=? 32))
  || (c =? 133) || (c =? 160) || (c =? 5760)
  || ((8192 <=? c) && (c <=? 8202))
  || (c =? 8232) || (c =? 8233) || (c =? 8239) || (c =? 8287) || (c =? 12288).

(** Line boundaries of [str.splitlines]. *)
Definition is_linebreak (c : char) : bool :=
  ((10 <=? c) && (c <=? 13)) || ((28 <=? c) && (c <=? 30))
  || (c =? 133) || (c =? 8232) || (c =? 8233).

Fixpoint splitlines_aux (cur : str) (s : str) : list str :=
  match s with
  | [] => match cur with [] => [] | _ => [rev cur] end
  | c :: s' =>
    if c =? 13 then
      match s' with
      | 10 :: s'' => rev cur :: splitlines_aux [] s''
      | _ => rev cur :: splitlines_aux [] s'
      end
    else if is_linebreak c then rev cur :: splitlines_aux [] s'
    else splitlines_aux (c :: cur) s'
  end.

Definition splitlines (s : str) : list str := splitlines_aux [] s.

Fixpoint lstrip_by (p : char -> bool) (s : str) : str :=
  match s with
  | c :: s' => if p c then lstrip_by p s' else s
  | [] => []
  end.

Definition rstrip_by (p : char -> bool) (s : str) : str :=
  rev (lstrip_by p (rev s)).

Definition strip_by (p : char -> bool) (s : str) : str :=
  rstrip_by p (lstrip_by p s).

(** [s.strip()] *)
Definition strip (s : str) : str := strip_by isspace s.

(** [s.strip(chars)] *)
Definition strip_chars (chars : str) (s : str) : str :=
  strip_by (fun c => existsb (N.eqb c) chars) s.

(** [s.startswith(p)], returning the rest of [s] after [p]. *)
Fixpoint strip_prefix (p s : str) : option str :=
  match p, s with
  | [], _ => Some s
  | x :: p', y :: s' => if x =? y then strip_prefix p' s' else None
  | _ :: _, [] => None
  end.

Definition startswith (s p : str) : bool :=
  match strip_prefix p s with Some _ => true | None => false end.

Definition endswith (s p : str) : bool := startswith (rev s) (rev p).

(** [needle in hay] *)
Fixpoint contains (needle hay : str) : bool :=
  startswith hay needle ||
  match hay with
  | [] => false
  | _ :: hay' => contains needle hay'
  end.

(** [s.split(sep, 1)] for a one-character separator. *)
Fixpoint split1 (sep : char) (s : str) : list str :=
  match s with
  | [] => [[]]
  | c :: s' =>
    if c =? sep then [[]; s']
    else match split1 sep s' with
         | a :: rest => (c :: a) :: rest
         | [] => [[c]]
         end
  end.

(** The runs of [s] between the occurrences of [sep]. *)
Fixpoint fields (sep : char) (s : str) : list str :=
  match s with
  | [] => [[]]
  | c :: s' =>
    if c =? sep then [] :: fields sep s'
    else match fields sep s' with
         | t :: ts => (c :: t) :: ts
         | [] => [[c]]
         end
  end.

(** [s.replace(old, new)] for a non-empty [old]: occurrences are replaced
    left to right without overlap.  [skip] counts the characters of an
    occurrence still to be dropped. *)
Fixpoint replace_aux (old new : str) (skip : nat) (s : str) : str :=
  match s with
  | [] => []
  | c :: s' =>
    match skip with
    | S n => replace_aux old new n s'
    | O =>
      if startswith s old
      then new ++ replace_aux old new (pred (length old)) s'
      else c :: replace_aux old new O s'
    end
  end.

Definition replace (s old new : str) : str := replace_aux old new O s.

(** ** The fragment of Python's [re] the two scripts use

    A backtracking matcher in continuation-passing style: alternatives are
    tried in the order [re] tries them, so the match found and its groups
    are the ones [re.search] reports. *)

Inductive regex : Type :=
| Lit (l : str)                    (* literal characters *)
| Cls (p : char -> bool)           (* one character of a class *)
| Star (p : char -> bool)          (* greedy  [p*]  *)
| LazyStar (p : char -> bool)      (* lazy    [p*?] *)
| Opt (r : regex)                  (* greedy  [r?]  *)
| Seq (r1 r2 : regex)
| Grp (n : nat) (r : regex)        (* capturing group number [n] *)
| Bol                              (* [^] *)
| Eol.                             (* [$] *)

(** greedy [p+] *)
Definition Plus (p : char -> bool) : regex := Seq (Cls p) (Star p).

Definition caps := list (nat * str).

Section Matcher.
Context {A : Type}.

Fixpoint star_greedy (p : char -> bool) (i : nat) (s : str)
         (k : nat -> str -> option A) : option A :=
  match s with
  | c :: s' =>
    if p c then
      match star_greedy p (S i) s' k with
      | Some x => Some x
      | None => k i s
      end
    else k i s
  | [] => k i s
  end.

Fixpoint star_lazy (p : char -> bool) (i : nat) (s : str)
         (k : nat -> str -> option A) : option A :=
  match k i s with
  | Some x => Some x
  | None =>
    match s with
    | c :: s' => if p c then star_lazy p (S i) s' k else None
    | [] => None
    end
  end.

(** [mtch r i s cs k]: match [r] at offset [i], where [s] is the text from
    [i] on and [cs] the groups closed so far; [k] continues after it. *)
Fixpoint mtch (r : regex) (i : nat) (s : str) (cs : caps)
         (k : nat -> str -> caps -> option A) : option A :=
  match r with
  | Lit l =>
    match strip_prefix l s with
    | Some s' => k (i + length l)%nat s' cs
    | None => None
    end
  | Cls p =>
    match s with
    | c :: s' => if p c then k (S i) s' cs else None
    | [] => None
    end
  | Star p => star_greedy p i s (fun j s' => k j s' cs)
  | LazyStar p => star_lazy p i s (fun j s' => k j s' cs)
  | Opt r1 =>
    match mtch r1 i s cs k with
    | Some x => Some x
    | None => k i s cs
    end
  | Seq r1 r2 => mtch r1 i s cs (fun j s' cs' => mtch r2 j s' cs' k)
  | Grp n r1 =>
    mtch r1 i s cs (fun j s' cs' => k j s' ((n, firstn (j - i) s) :: cs'))
  | Bol => match i with O => k i s cs | S _ => None end
  | Eol =>
    match s with
    | [] => k i s cs
    | [c] => if c =? 10 then k i s cs else None
    | _ => None
    end
  end.
End Matcher.

Fixpoint search_from (r : regex) (i : nat) (s : str) : option caps :=
  match mtch r i s [] (fun _ _ cs => Some cs) with
  | Some cs => Some cs
  | None =>
    match s with
    | [] => None
    | _ :: s' => search_from r (S i) s'
    end
  end.

(** [re.search(r, s)]: the leftmost match, as its groups. *)
Definition re_search (r : regex) (s : str) : option caps := search_from r O s.

(** [m.group(n)].  Every group of the patterns below is mandatory, so a
    match always has it. *)
Fixpoint group (n : nat) (m : caps) : str :=
  match m with
  | [] => []
  | (n', v) :: m' => if Nat.eqb n n' then v else group n m'
  end.

Definition dot (c : char) : bool := negb (c =? 10).
Definition not_space (c : char) : bool := negb (isspace c).


(** What it means for [r] to match from offset [i] (text [s], groups [cs])
    up to offset [j] (text [s'], groups [cs']), whatever the order in which
    a matcher explores the alternatives. *)
Inductive matches : regex -> nat -> str -> caps -> nat -> str -> caps -> Prop :=
| M_Lit l i s s' cs :
    strip_prefix l s = Some s' ->
    matches (Lit l) i s cs (i + length l)%nat s' cs
| M_Cls (p : char -> bool) c i s cs :
    p c = true ->
    matches (Cls p) i (c :: s) cs (S i) s cs
| M_Star_stop p i s cs :
    matches (Star p) i s cs i s cs
| M_Star_more (p : char -> bool) c i s cs j s' :
    p c = true ->
    matches (Star p) (S i) s cs j s' cs ->
    matches (Star p) i (c :: s) cs j s' cs
| M_LazyStar_stop p i s cs :
    matches (LazyStar p) i s cs i s cs
| M_LazyStar_more (p : char -> bool) c i s cs j s' :
    p c = true ->
    matches (LazyStar p) (S i) s cs j s' cs ->
    matches (LazyStar p) i (c :: s) cs j s' cs
| M_Opt_skip r i s cs :
    matches (Opt r) i s cs i s cs
| M_Opt_take r i s cs j s' cs' :
    matches r i s cs j s' cs' ->
    matches (Opt r) i s cs j s' cs'
| M_Seq r1 r2 i s cs j s' cs' j' s'' cs'' :
    matches r1 i s cs j s' cs' ->
    matches r2 j s' cs' j' s'' cs'' ->
    matches (Seq r1 r2) i s cs j' s'' cs''
| M_Grp n r i s cs j s' cs' :
    matches r i s cs j s' cs' ->
    matches (Grp n r) i s cs j s' ((n, firstn (j - i) s) :: cs')
| M_Bol s cs :
    matches Bol O s cs O s cs
| M_Eol_end i cs :
    matches Eol i [] cs i [] cs
| M_Eol_newline i cs :
    matches Eol i [10] cs i [10] cs.

Declare Scope regex_scope.
Delimit Scope regex_scope with regex.
Bind Scope regex_scope with regex.
Infix ";;" := Seq (at level 61, right associativity) : regex_scope.

(** ** Character data of the Unicode database

    [\w] and [str.lower] consult the Unicode database outside the ASCII
    range; those two tables are taken as given.  Inside the ASCII range the
    classes are written out. *)

Class UnicodeTables : Type := {
  unicode_alnum : char -> bool;  (* [c.isalnum()] for [c >= 128] *)
  unicode_lower : str -> str     (* [s.lower()] for [s] not pure ASCII *)
}.

Definition is_ascii_alnum (c : char) : bool :=
  ((48 <=? c) && (c <=? 57)) || ((65 <=? c) && (c <=? 90))
  || ((97 <=? c) && (c <=? 122)).

(** the class [\w] *)
Definition is_word `{UnicodeTables} (c : char) : bool :=
  if c <? 128 then is_ascii_alnum c || (c =? 95) else unicode_alnum c.

(** the class [[\w.-]] *)
Definition is_word_dot_dash `{UnicodeTables} (c : char) : bool :=
  is_word c || (c =? 46) || (c =? 45).

Definition ascii_lower (c : char) : char :=
  if (65 <=? c) && (c <=? 90) then c + 32 else c.

(** [s.lower()] *)
Definition lower `{UnicodeTables} (s : str) : str :=
  if forallb (fun c => c <? 128) s then map ascii_lower s else unicode_lower s.

#[local] Set Warnings "-register-all".

(** JSON values, as [json.dump] writes a dictionary: an object keeps the
    insertion order of its keys. *)
Inductive json : Type :=
| JNull
| JString (s : str)
| JArray (l : list json)
| JObject (l : list (str * json)).

Definition json_opt {A : Type} (f : A -> json) (x : option A) : json :=
  match x with Some a => f a | None => JNull end.

Definition json_keys (j : json) : list str :=
  match j with
  | JObject l => map fst l
  | _ => []
  end.

(** * analisador_cabecalho.py *)

Module HeaderAnalyzer.
Section WithUnicode.
Context `{UnicodeTables}.
Local Open Scope regex_scope.

(** A verdict dictionary: [{"result", "explanation"}], with the extra key
    ["selector"] in the DKIM one ([None] where the key is absent). *)
Record verdict : Type := {
  result : str;
  explanation : str;
  selector : option str
}.

Record auth_dict : Type := {
  spf : option verdict;
  dkim : option verdict;
  dmarc : option verdict;
  arc : option verdict
}.

Record headers_dict : Type := {
  from : option str;
  return_path : option str;
  sender : option str;
  received_spf : option str;
  authentication_results : list str
}.

(** [self.results] *)
Record results : Type := {
  timestamp : str;
  authentication : auth_dict;
  headers : headers_dict;
  issues : list str;
  recommendations : list str
}.

Definition set_authentication (a : auth_dict) (r : results) : results :=
  {| timestamp := timestamp r; authentication := a; headers := headers r;
     issues := issues r; recommendations := recommendations r |}.

Definition set_headers (h : headers_dict) (r : results) : results :=
  {| timestamp := timestamp r; authentication := authentication r;
     headers := h; issues := issues r;
     recommendations := recommendations r |}.

Definition append_issue (m : str) (r : results) : results :=
  {| timestamp := timestamp r; authentication := authentication r;
     headers := headers r; issues := issues r ++ [m];
     recommendations := recommendations r |}.

Definition append_recommendation (m : str) (r : results) : results :=
  {| timestamp := timestamp r; authentication := authentication r;
     headers := headers r; issues := issues r;
     recommendations := recommendations r ++ [m] |}.

Definition set_spf (v : option verdict) (a : auth_dict) : auth_dict :=
  {| spf := v; dkim := dkim a; dmarc := dmarc a; arc := arc a |}.
Definition set_dkim (v : option verdict) (a : auth_dict) : auth_dict :=
  {| spf := spf a; dkim := v; dmarc := dmarc a; arc := arc a |}.
Definition set_dmarc (v : option verdict) (a : auth_dict) : auth_dict :=
  {| spf := spf a; dkim := dkim a; dmarc := v; arc := arc a |}.
Definition set_arc (v : option verdict) (a : auth_dict) : auth_dict :=
  {| spf := spf a; dkim := dkim a; dmarc := dmarc a; arc := v |}.

(** [__init__]; [now] is [datetime.now().isoformat()]. *)
Definition init (now : str) : results :=
  {| timestamp := now;
     authentication :=
       {| spf := None; dkim := None; dmarc := None; arc := None |};
     headers :=
       {| from := None; return_path := None; sender := None;
          received_spf := None; authentication_results := [] |};
     issues := [];
     recommendations := [] |}.

Definition _save_header_field (r : results) (field value : str) : results :=
  let h := headers r in
  if str_eqb field (u "from") then
    set_headers {| from := Some value; return_path := return_path h;
                   sender := sender h; received_spf := received_spf h;
                   authentication_results := authentication_results h |} r
  else if str_eqb field (u "return-path") then
    set_headers {| from := from h; return_path := Some value;
                   sender := sender h; received_spf := received_spf h;
                   authentication_results := authentication_results h |} r
  else if str_eqb field (u "sender") then
    set_headers {| from := from h; return_path := return_path h;
                   sender := Some value; received_spf := received_spf h;
                   authentication_results := authentication_results h |} r
  else if str_eqb field (u "received-spf") then
    set_headers {| from := from h; return_path := return_path h;
                   sender := sender h; received_spf := Some value;
                   authentication_results := authentication_results h |} r
  else if str_eqb field (u "authentication-results") then
    set_headers {| from := from h; return_path := return_path h;
                   sender := sender h; received_spf := received_spf h;
                   authentication_results :=
                     authentication_results h ++ [value] |} r
  else if str_eqb field (u "arc-authentication-results") then
    set_headers {| from := from h; return_path := return_path h;
                   sender := sender h; received_spf := received_spf h;
                   authentication_results :=
                     authentication_results h ++ [u "ARC: " ++ value] |} r
  else r.

(** The loop variables of [_extract_header_fields] together with the
    results being filled. *)
Record scan : Type := {
  current_field : option str;
  current_value : str;
  scanned : results
}.

(** [if current_field: self._save_header_field(current_field, current_value)] *)
Definition flush (st : scan) : results :=
  match current_field st with
  | Some ((_ :: _) as f) => _save_header_field (scanned st) f (current_value st)
  | _ => scanned st
  end.

(** One iteration of the loop over the lines. *)
Definition scan_line (st : scan) (line : str) : scan :=
  match strip line with
  | [] => st                                            (* continue *)
  | _ :: _ =>
    match line with
    | [] => st
    | c0 :: _ =>
      if isspace c0 then
        if truthy (current_field st) then
          {| current_field := current_field st;
             current_value := current_value st ++ u " " ++ strip line;
             scanned := scanned st |}
        else st
      else
        let r := flush st in
        match split1 58 line with
        | [name; value] =>
          {| current_field := Some (lower name);
             current_value := strip value;
             scanned := r |}
        | _ =>
          {| current_field := None; current_value := []; scanned := r |}
        end
    end
  end.

Definition _extract_header_fields (r : results) (lines : list str) : results :=
  flush (fold_left scan_line lines
           {| current_field := None; current_value := []; scanned := r |}).

(** [r'^(\w+)'] *)
Definition re_leading_word : regex := Bol ;; Grp 1 (Plus is_word).
(** [r'\((.*?)\)'] *)
Definition re_parenthesis : regex := Lit (u "(") ;; Grp 1 (LazyStar dot) ;; Lit (u ")").
(** [r'm=(\w+)'] for a mechanism name [m] *)
Definition re_token (m : str) : regex := Lit (m ++ u "=") ;; Grp 1 (Plus is_word).
(** [r'm=\w+\s+\((.*?)\)'] *)
Definition re_reason (m : str) : regex :=
  Lit (m ++ u "=") ;; Plus is_word ;; Plus isspace ;;
  Lit (u "(") ;; Grp 1 (LazyStar dot) ;; Lit (u ")").
(** [r'dkim=\w+.*?header\.\w+=(\S+)'] *)
Definition re_dkim_selector : regex :=
  Lit (u "dkim=") ;; Plus is_word ;; LazyStar dot ;; Lit (u "header.") ;;
  Plus is_word ;; Lit (u "=") ;; Grp 1 (Plus not_space).
(** [r'<?([\w.-]+@([\w.-]+))>?'] *)
Definition re_email : regex :=
  Opt (Lit (u "<")) ;;
  Grp 1 (Plus is_word_dot_dash ;; Lit (u "@") ;; Grp 2 (Plus is_word_dot_dash)) ;;
  Opt (Lit (u ">")).

(** The caller reads [received_spf] only when it is a non-empty string. *)
Definition _extract_spf_from_received_spf (r : results) : option verdict :=
  match received_spf (headers r) with
  | None => None
  | Some spf_text =>
    match re_search re_leading_word spf_text with
    | None => None
    | Some result_match =>
      let explanation :=
        match re_search re_parenthesis spf_text with
        | Some reason_match => group 1 reason_match
        | None => []
        end in
      Some {| result := lower (group 1 result_match);
              explanation := explanation;
              selector := None |}
    end
  end.

(** The explanation lookup shared by the four mechanisms. *)
Definition reason_of (m auth_result : str) : str :=
  match re_search (re_reason m) auth_result with
  | Some reason_match => group 1 reason_match
  | None => []
  end.

Definition _extract_from_authentication_results
           (r : results) (auth_result : str) : results :=
  (* SPF *)
  let r :=
    match re_search (re_token (u "spf")) auth_result with
    | Some spf_match =>
      match spf (authentication r) with
      | None =>
        set_authentication
          (set_spf (Some {| result := lower (group 1 spf_match);
                            explanation := reason_of (u "spf") auth_result;
                            selector := None |})
                   (authentication r)) r
      | Some _ => r
      end
    | None => r
    end in
  (* DKIM *)
  let r :=
    match re_search (re_token (u "dkim")) auth_result with
    | Some dkim_match =>
      let sel :=
        match re_search re_dkim_selector auth_result with
        | Some selector_match => group 1 selector_match
        | None => []
        end in
      set_authentication
        (set_dkim (Some {| result := lower (group 1 dkim_match);
                           explanation := reason_of (u "dkim") auth_result;
                           selector := Some sel |})
                  (authentication r)) r
    | None => r
    end in
  (* DMARC *)
  let r :=
    match re_search (re_token (u "dmarc")) auth_result with
    | Some dmarc_match =>
      set_authentication
        (set_dmarc (Some {| result := lower (group 1 dmarc_match);
                            explanation := reason_of (u "dmarc") auth_result;
                            selector := None |})
                   (authentication r)) r
    | None => r
    end in
  (* ARC *)
  match re_search (re_token (u "arc")) auth_result with
  | Some arc_match =>
    set_authentication
      (set_arc (Some {| result := lower (group 1 arc_match);
                        explanation := reason_of (u "arc") auth_result;
                        selector := None |})
               (authentication r)) r
  | None => r
  end.

Definition _extract_domain_from_email (email_header : option str) : option str :=
  match email_header with
  | Some ((_ :: _) as text) =>
    match re_search re_email text with
    | Some email_match => Some (group 2 email_match)
    | None => None
    end
  | _ => None
  end.

(** The three per-mechanism checks of [_identify_issues] have one shape. *)
Definition verdict_issue (name : str) (v : option verdict) (r : results) : results :=
  match v with
  | None => append_issue (name ++ u " não encontrado nos cabeçalhos") r
  | Some d =>
    if str_eqb (result d) (u "pass") then r
    else append_issue (u "Falha de " ++ name ++ u ": " ++ result d
                         ++ u " - " ++ explanation d) r
  end.

Definition mismatch_issue (from_domain return_path_domain : str) : str :=
  u "Desalinhamento de domínio: From (" ++ from_domain
    ++ u ") ≠ Return-Path (" ++ return_path_domain ++ u ")".

Definition _identify_issues (r : results) : results :=
  let r := verdict_issue (u "SPF") (spf (authentication r)) r in
  let r := verdict_issue (u "DKIM") (dkim (authentication r)) r in
  let r := verdict_issue (u "DMARC") (dmarc (authentication r)) r in
  let from_domain := _extract_domain_from_email (from (headers r)) in
  let return_path_domain := _extract_domain_from_email (return_path (headers r)) in
  match from_domain, return_path_domain with
  | Some ((_ :: _) as f), Some ((_ :: _) as p) =>
    if str_eqb f p then r else append_issue (mismatch_issue f p) r
  | _, _ => r
  end.

(** [for issue in issues: if name in issue: flag = True] *)
Definition mentions (name : str) (l : list str) : bool :=
  existsb (contains name) l.

(** [f"{from_domain}"] *)
Definition format_opt (x : option str) : str :=
  match x with Some v => v | None => u "None" end.

Definition _generate_recommendations (r : results) : results :=
  let spf_issue := mentions (u "SPF") (issues r) in
  let dkim_issue := mentions (u "DKIM") (issues r) in
  let dmarc_issue := mentions (u "DMARC") (issues r) in
  let from_domain := _extract_domain_from_email (from (headers r)) in
  let d := format_opt from_domain in
  let r :=
    if spf_issue && truthy from_domain then
      append_recommendation
        (u "Registro SPF recomendado: v=spf1 include:spf.protection.outlook.com -all")
        (append_recommendation
           (u "Verifique seu registro SPF para " ++ d
              ++ u " e certifique-se de que include:spf.protection.outlook.com está incluído")
           r)
    else r in
  let r :=
    if dkim_issue && truthy from_domain then
      append_recommendation
        (u "Verifique se o DKIM está habilitado para " ++ d
           ++ u " no Microsoft 365 e se os registros CNAME para selector1._domainkey e selector2._domainkey estão configurados")
        r
    else r in
  let r :=
    if dmarc_issue && truthy from_domain then
      append_recommendation
        (u "Configure um registro DMARC para " ++ d ++ u ": _dmarc." ++ d
           ++ u " TXT " ++ [34] ++ u "v=DMARC1; p=quarantine; rua=mailto:admin@"
           ++ d ++ [34])
        r
    else r in
  if spf_issue || dkim_issue || dmarc_issue then
    append_recommendation
      (u "Use o script principal deste projeto para analisar todos os registros DNS: python email_auth_fix.py "
         ++ d ++ u " -v")
      r
  else r.

Definition _analyze_authentication (r : results) : results :=
  let r :=
    if truthy (received_spf (headers r))
    then set_authentication
           (set_spf (_extract_spf_from_received_spf r) (authentication r)) r
    else r in
  let r := fold_left _extract_from_authentication_results
                     (authentication_results (headers r)) r in
  _identify_issues r.

Definition analyze_header (r : results) (header_text : str) : results :=
  let lines := splitlines header_text in
  let r := _extract_header_fields r lines in
  let r := _analyze_authentication r in
  _generate_recommendations r.

Definition verdict_json (v : verdict) : json :=
  JObject ([(u "result", JString (result v));
            (u "explanation", JString (explanation v))]
           ++ match selector v with
              | Some sel => [(u "selector", JString sel)]
              | None => []
              end).

(** The document [export_json] hands to [json.dump]: [self.results]. *)
Definition export_json (r : results) : json :=
  JObject
    [(u "timestamp", JString (timestamp r));
     (u "authentication",
      JObject [(u "spf", json_opt verdict_json (spf (authentication r)));
               (u "dkim", json_opt verdict_json (dkim (authentication r)));
               (u "dmarc", json_opt verdict_json (dmarc (authentication r)));
               (u "arc", json_opt verdict_json (arc (authentication r)))]);
     (u "headers",
      JObject [(u "from", json_opt JString (from (headers r)));
               (u "return_path", json_opt JString (return_path (headers r)));
               (u "sender", json_opt JString (sender (headers r)));
               (u "received_spf", json_opt JString (received_spf (headers r)));
               (u "authentication_results",
                JArray (map JString (authentication_results (headers r))))]);
     (u "issues", JArray (map JString (issues r)));
     (u "recommendations", JArray (map JString (recommendations r)))].

(** *** Notions used to state the properties *)

(** The verdict one occurrence supplies for a mechanism: what the
    extraction leaves under that mechanism's key in an empty table. *)
Definition supplied (mechanism : auth_dict -> option verdict)
           (auth_result : str) : option verdict :=
  mechanism (authentication
               (_extract_from_authentication_results (init []) auth_result)).

(** DKIM, DMARC, ARC: an occurrence that supplies the mechanism replaces
      what the slot held. *)
Definition overwrites (mechanism : auth_dict -> option verdict) : Prop :=
    forall r a,
      mechanism (authentication (_extract_from_authentication_results r a)) =
      match supplied mechanism a with
      | Some v => Some v
      | None => mechanism (authentication r)
      end.

(** The value starts with a [\w] character. *)
Definition begins_with_word (value : str) : bool :=
  match value with
  | c :: _ => is_word c
  | [] => false
  end.

(** A line that is empty or starts with whitespace. *)
Definition indented (line : str) : bool :=
  match line with
  | c :: _ => isspace c
  | [] => true
  end.

Definition is_mismatch_issue (issue : str) : bool :=
  startswith issue (u "Desalinhamento de domínio").

(** The issue the alignment check appends, if any. *)
Definition alignment_issues (from_domain return_path_domain : option str)
  : list str :=
  match from_domain, return_path_domain with
  | Some ((_ :: _) as f), Some ((_ :: _) as p) =>
    if str_eqb f p then [] else [mismatch_issue f p]
  | _, _ => []
  end.

(** The issues one per-mechanism check appends. *)
Definition verdict_issues (name : str) (v : option verdict) : list str :=
  match v with
  | None => [name ++ u " não encontrado nos cabeçalhos"]
  | Some d =>
    if str_eqb (result d) (u "pass") then []
    else [u "Falha de " ++ name ++ u ": " ++ result d ++ u " - " ++ explanation d]
  end.
End WithUnicode.
End HeaderAnalyzer.

(** * email_auth_fix.py *)

Module AuthChecker.
Local Open Scope regex_scope.

(** [dns.resolver.resolve(name, rdtype)]: either a [DNSException], kept as
    its [str(e)], or the answers, each kept as its [str(rdata)] (a TXT
    rdata prints with its double quotes). *)
Inductive rdtype : Type := CNAME | TXT.
Definition resolver := str -> rdtype -> str + list str.

(** What a method leaves behind: it returns, or an exception that is not a
    [DNSException] escapes it. *)
Inductive exception : Type := IndexError.
Inductive outcome (A : Type) : Type :=
| Ok (a : A)
| Raised (e : exception).
Arguments Ok {A} a.
Arguments Raised {A} e.

(** An entry of [found_selectors]. *)
Module Found.
Record t : Type := { selector : str; record : str; type : str }.
End Found.

(** An entry of [dkim_recommendations]. *)
Module Rec.
Record t : Type := { selector : str; host : str; value : str; type : str }.
End Rec.

Module Records.
Record t : Type := {
  spf : option str;
  dkim : option (list Found.t);
  dmarc : option str
}.
End Records.

Module Recommendations.
Record t : Type := {
  spf : option str;
  dkim : option (list Rec.t);
  dmarc : option str
}.
End Recommendations.

Module Commands.
Record t : Type := {
  bind9 : list str;
  powershell : list str;
  azure_cli : list str
}.
End Commands.

(** [self.results] *)
Module Results.
Record t : Type := {
  domain : str;
  timestamp : str;
  records : Records.t;
  issues : list str;
  recommendations : Recommendations.t;
  commands : Commands.t
}.
End Results.

(** [self] *)
Record checker : Type := {
  domain : str;
  verbose : bool;
  results : Results.t
}.

(** [__init__]; [now] is [datetime.now().isoformat()]. *)
Definition init (domain : str) (verbose : bool) (now : str) : checker :=
  {| domain := domain;
     verbose := verbose;
     results :=
       {| Results.domain := domain;
          Results.timestamp := now;
          Results.records :=
            {| Records.spf := None; Records.dkim := None;
               Records.dmarc := None |};
          Results.issues := [];
          Results.recommendations :=
            {| Recommendations.spf := None; Recommendations.dkim := None;
               Recommendations.dmarc := None |};
          Results.commands :=
            {| Commands.bind9 := []; Commands.powershell := [];
               Commands.azure_cli := [] |} |} |}.

Definition issues (c : checker) : list str := Results.issues (results c).
Definition records (c : checker) : Records.t := Results.records (results c).
Definition recommendations (c : checker) : Recommendations.t :=
  Results.recommendations (results c).
Definition commands (c : checker) : Commands.t := Results.commands (results c).

Definition with_results (f : Results.t -> Results.t) (c : checker) : checker :=
  {| domain := domain c; verbose := verbose c; results := f (results c) |}.

(** [self.results["issues"].append(m)] *)
Definition append_issue (m : str) : checker -> checker :=
  with_results (fun r =>
    {| Results.domain := Results.domain r;
       Results.timestamp := Results.timestamp r;
       Results.records := Results.records r;
       Results.issues := Results.issues r ++ [m];
       Results.recommendations := Results.recommendations r;
       Results.commands := Results.commands r |}).

Definition set_records (x : Records.t) : checker -> checker :=
  with_results (fun r =>
    {| Results.domain := Results.domain r;
       Results.timestamp := Results.timestamp r;
       Results.records := x;
       Results.issues := Results.issues r;
       Results.recommendations := Results.recommendations r;
       Results.commands := Results.commands r |}).

Definition set_recommendations (x : Recommendations.t) : checker -> checker :=
  with_results (fun r =>
    {| Results.domain := Results.domain r;
       Results.timestamp := Results.timestamp r;
       Results.records := Results.records r;
       Results.issues := Results.issues r;
       Results.recommendations := x;
       Results.commands := Results.commands r |}).

Definition set_commands (x : Commands.t) : checker -> checker :=
  with_results (fun r =>
    {| Results.domain := Results.domain r;
       Results.timestamp := Results.timestamp r;
       Results.records := Results.records r;
       Results.issues := Results.issues r;
       Results.recommendations := Results.recommendations r;
       Results.commands := x |}).

Definition set_record_spf (v : option str) (c : checker) : checker :=
  set_records {| Records.spf := v; Records.dkim := Records.dkim (records c);
                 Records.dmarc := Records.dmarc (records c) |} c.

Definition set_record_dkim (v : option (list Found.t)) (c : checker) : checker :=
  set_records {| Records.spf := Records.spf (records c); Records.dkim := v;
                 Records.dmarc := Records.dmarc (records c) |} c.

Definition dquote : str := [34].

Definition _recommend_spf_record (c : checker) : checker :=
  let recommended_spf := u "v=spf1 include:spf.protection.outlook.com -all" in
  set_recommendations
    {| Recommendations.spf := Some recommended_spf;
       Recommendations.dkim := Recommendations.dkim (recommendations c);
       Recommendations.dmarc := Recommendations.dmarc (recommendations c) |} c.

Definition _recommend_dmarc_record (c : checker) : checker :=
  let admin_email := u "admin@" ++ domain c in
  let recommended_dmarc :=
    u "v=DMARC1; p=quarantine; pct=100; rua=mailto:" ++ admin_email
      ++ u "; ruf=mailto:" ++ admin_email ++ u "; fo=1" in
  set_recommendations
    {| Recommendations.spf := Recommendations.spf (recommendations c);
       Recommendations.dkim := Recommendations.dkim (recommendations c);
       Recommendations.dmarc := Some recommended_dmarc |} c.

Definition not_dot (c : char) : bool := negb (c =? 46).

(** [r'_domainkey\.([^.]+\.onmicrosoft\.com)\.?$'] *)
Definition re_tenant : regex :=
  Lit (u "_domainkey.") ;;
  Grp 1 (Plus not_dot ;; Lit (u ".onmicrosoft.com")) ;;
  Opt (Lit (u ".")) ;; Eol.

(** The loop of [_extract_tenant_domain]. *)
Fixpoint first_tenant (l : list Found.t) : option str :=
  match l with
  | [] => None
  | selector_info :: l' =>
    if str_eqb (Found.type selector_info) (u "CNAME") then
      match re_search re_tenant (Found.record selector_info) with
      | Some m => Some (group 1 m)
      | None => first_tenant l'
      end
    else first_tenant l'
  end.

Definition _extract_tenant_domain (c : checker) : option str :=
  match Records.dkim (records c) with
  | Some ((_ :: _) as found) => first_tenant found
  | _ => None
  end.

Definition placeholder_issue : str :=
  u "Não foi possível determinar o domínio do tenant do Microsoft 365. Substitua 'tenant.onmicrosoft.com' pelo seu domínio real.".

Definition _recommend_dkim_records (c : checker) : checker :=
  let '(tenant_domain, c) :=
    match _extract_tenant_domain c with
    | Some ((_ :: _) as t) => (t, c)
    | _ => (u "tenant.onmicrosoft.com", append_issue placeholder_issue c)
    end in
  let dkim_recommendations :=
    map (fun selector =>
           {| Rec.selector := selector;
              Rec.host := selector ++ u "._domainkey." ++ domain c;
              Rec.value := selector ++ u "-" ++ replace (domain c) (u ".") (u "-")
                             ++ u "._domainkey." ++ tenant_domain;
              Rec.type := u "CNAME" |})
        [u "selector1"; u "selector2"] in
  set_recommendations
    {| Recommendations.spf := Recommendations.spf (recommendations c);
       Recommendations.dkim := Some dkim_recommendations;
       Recommendations.dmarc := Recommendations.dmarc (recommendations c) |} c.

Definition issue_spf_missing : str := u "Registro SPF não encontrado".
Definition issue_spf_multiple : str :=
  u "Múltiplos registros SPF encontrados (apenas um é permitido)".
Definition issue_spf_include : str :=
  u "Registro SPF não inclui spf.protection.outlook.com".
Definition issue_spf_all : str :=
  u "Registro SPF não possui mecanismo de proteção 'all' adequado".

(** The list comprehension of [check_spf]. *)
Definition spf_candidates (answers : list str) : list str :=
  filter (fun rdata => startswith rdata (dquote ++ u "v=spf1")) answers.

Definition check_spf (resolve : resolver) (c : checker) : checker :=
  match resolve (domain c) TXT with
  | inr answers =>
    let spf_records := map (strip_chars dquote) (spf_candidates answers) in
    match spf_records with
    | [] =>
      _recommend_spf_record
        (set_record_spf None (append_issue issue_spf_missing c))
    | spf_record :: _ =>
      let c :=
        if (1 <? length spf_records)%nat
        then append_issue issue_spf_multiple c else c in
      let c := set_record_spf (Some spf_record) c in
      let c :=
        if negb (contains (u "include:spf.protection.outlook.com") spf_record)
        then append_issue issue_spf_include c else c in
      let c :=
        if negb (contains (u "~all") spf_record)
           && negb (contains (u "-all") spf_record)
        then append_issue issue_spf_all c else c in
      _recommend_spf_record c
    end
  | inl e =>
    _recommend_spf_record
      (append_issue (u "Erro ao consultar registro SPF: " ++ e) c)
  end.

Definition issue_dkim_selector (selector : str) : str :=
  u "Registro DKIM para seletor '" ++ selector ++ u "' não encontrado".
Definition issue_dkim_none : str :=
  u "Nenhum registro DKIM para Microsoft 365 encontrado".
Definition issue_dkim_two : str :=
  u "Microsoft 365 requer dois registros DKIM (selector1 e selector2)".

(** [answers[0]] *)
Definition first_answer (answers : list str) : outcome str :=
  match answers with
  | a :: _ => Ok a
  | [] => Raised IndexError
  end.

(** One iteration of the loop of [check_dkim] over the selectors. *)
Definition check_selector (resolve : resolver)
           (st : checker * list Found.t) (selector : str)
  : outcome (checker * list Found.t) :=
  let '(c, found_selectors) := st in
  let dkim_name := selector ++ u "._domainkey." ++ domain c in
  match resolve dkim_name CNAME with
  | inr answers =>
    match first_answer answers with
    | Ok a =>
      Ok (c, found_selectors
               ++ [{| Found.selector := selector; Found.record := a;
                      Found.type := u "CNAME" |}])
    | Raised e => Raised e
    end
  | inl _ =>
    match resolve dkim_name TXT with
    | inr answers =>
      match first_answer answers with
      | Ok a =>
        Ok (c, found_selectors
                 ++ [{| Found.selector := selector;
                        Found.record := strip_chars dquote a;
                        Found.type := u "TXT" |}])
      | Raised e => Raised e
      end
    | inl _ => Ok (append_issue (issue_dkim_selector selector) c, found_selectors)
    end
  end.

Fixpoint check_selectors (resolve : resolver) (selectors : list str)
         (st : checker * list Found.t) : outcome (checker * list Found.t) :=
  match selectors with
  | [] => Ok st
  | selector :: rest =>
    match check_selector resolve st selector with
    | Ok st' => check_selectors resolve rest st'
    | Raised e => Raised e
    end
  end.

Definition check_dkim (resolve : resolver) (c : checker) : outcome checker :=
  let selectors := [u "selector1"; u "selector2"] in
  match check_selectors resolve selectors (c, []) with
  | Raised e => Raised e
  | Ok (c, found_selectors) =>
    let c := set_record_dkim (Some found_selectors) c in
    let c :=
      match found_selectors with
      | [] => append_issue issue_dkim_none c
      | _ :: _ =>
        if (length found_selectors <? 2)%nat
        then append_issue issue_dkim_two c else c
      end in
    Ok (_recommend_dkim_records c)
  end.

Definition add_bind9 (cmd : str) (c : checker) : checker :=
  set_commands {| Commands.bind9 := Commands.bind9 (commands c) ++ [cmd];
                  Commands.powershell := Commands.powershell (commands c);
                  Commands.azure_cli := Commands.azure_cli (commands c) |} c.
Definition add_powershell (cmd : str) (c : checker) : checker :=
  set_commands {| Commands.bind9 := Commands.bind9 (commands c);
                  Commands.powershell := Commands.powershell (commands c) ++ [cmd];
                  Commands.azure_cli := Commands.azure_cli (commands c) |} c.
Definition add_azure_cli (cmd : str) (c : checker) : checker :=
  set_commands {| Commands.bind9 := Commands.bind9 (commands c);
                  Commands.powershell := Commands.powershell (commands c);
                  Commands.azure_cli := Commands.azure_cli (commands c) ++ [cmd] |} c.

(** [if x: add(cmd(x))] for a recommended record string [x]. *)
Definition when_text (x : option str) (add : str -> checker -> checker)
           (cmd : str -> str) (c : checker) : checker :=
  match x with
  | Some ((_ :: _) as v) => add (cmd v) c
  | _ => c
  end.

(** [if x: for dkim_rec in x: add(cmd(dkim_rec))] *)
Definition when_dkim (x : option (list Rec.t)) (add : str -> checker -> checker)
           (cmd : Rec.t -> str) (c : checker) : checker :=
  match x with
  | Some l => fold_left (fun c dkim_rec => add (cmd dkim_rec) c) l c
  | None => c
  end.

Definition _generate_commands (c : checker) : checker :=
  let d := domain c in
  let spf := Recommendations.spf (recommendations c) in
  let dkim := Recommendations.dkim (recommendations c) in
  let dmarc := Recommendations.dmarc (recommendations c) in
  (* BIND9 *)
  let c := when_text spf add_bind9
             (fun v => d ++ u ". IN TXT " ++ dquote ++ v ++ dquote) c in
  let c := when_dkim dkim add_bind9
             (fun dkim_rec => Rec.host dkim_rec ++ u ". IN CNAME "
                                ++ Rec.value dkim_rec ++ u ".") c in
  let c := when_text dmarc add_bind9
             (fun v => u "_dmarc." ++ d ++ u ". IN TXT " ++ dquote ++ v ++ dquote) c in
  (* PowerShell *)
  let c := when_text spf add_powershell
             (fun v => u "Add-DnsServerResourceRecord -ZoneName " ++ dquote ++ d
                         ++ dquote ++ u " -Name " ++ dquote ++ u "@" ++ dquote
                         ++ u " -Txt -DescriptiveText " ++ dquote ++ v ++ dquote
                         ++ u " -TimeToLive 01:00:00") c in
  let c := when_dkim dkim add_powershell
             (fun dkim_rec =>
                let selector := replace (Rec.selector dkim_rec) (u "selector") [] in
                u "New-DkimSigningConfig -DomainName " ++ dquote ++ d ++ dquote
                  ++ u " -Enabled $true -KeySize 2048 -Selector" ++ selector
                  ++ u " " ++ dquote ++ Rec.host dkim_rec ++ dquote) c in
  let c := when_text dmarc add_powershell
             (fun v => u "Add-DnsServerResourceRecord -ZoneName " ++ dquote ++ d
                         ++ dquote ++ u " -Name " ++ dquote ++ u "_dmarc" ++ dquote
                         ++ u " -Txt -DescriptiveText " ++ dquote ++ v ++ dquote
                         ++ u " -TimeToLive 01:00:00") c in
  (* Azure CLI *)
  let c := when_text spf add_azure_cli
             (fun v => u "az network dns record-set txt add-record -g YourResourceGroup -z "
                         ++ d ++ u " -n " ++ dquote ++ u "@" ++ dquote ++ u " -v "
                         ++ dquote ++ v ++ dquote) c in
  let c := when_dkim dkim add_azure_cli
             (fun dkim_rec =>
                let selector := Rec.selector dkim_rec in
                u "az network dns record-set cname set-record -g YourResourceGroup -z "
                  ++ d ++ u " -n " ++ dquote ++ selector ++ u "._domainkey" ++ dquote
                  ++ u " -c " ++ dquote ++ Rec.value dkim_rec ++ dquote) c in
  when_text dmarc add_azure_cli
    (fun v => u "az network dns record-set txt add-record -g YourResourceGroup -z "
                ++ d ++ u " -n " ++ dquote ++ u "_dmarc" ++ dquote ++ u " -v "
                ++ dquote ++ v ++ dquote) c.

Definition found_json (f : Found.t) : json :=
  JObject [(u "selector", JString (Found.selector f));
           (u "record", JString (Found.record f));
           (u "type", JString (Found.type f))].

Definition rec_json (r : Rec.t) : json :=
  JObject [(u "selector", JString (Rec.selector r));
           (u "host", JString (Rec.host r));
           (u "value", JString (Rec.value r));
           (u "type", JString (Rec.type r))].

(** The document [export_json] hands to [json.dump]: [self.results]. *)
Definition export_json (c : checker) : json :=
  let r := results c in
  JObject
    [(u "domain", JString (Results.domain r));
     (u "timestamp", JString (Results.timestamp r));
     (u "records",
      JObject
        [(u "spf", json_opt JString (Records.spf (Results.records r)));
         (u "dkim", json_opt (fun l => JArray (map found_json l))
                             (Records.dkim (Results.records r)));
         (u "dmarc", json_opt JString (Records.dmarc (Results.records r)))]);
     (u "issues", JArray (map JString (Results.issues r)));
     (u "recommendations",
      JObject
        [(u "spf", json_opt JString
                     (Recommendations.spf (Results.recommendations r)));
         (u "dkim", json_opt (fun l => JArray (map rec_json l))
                             (Recommendations.dkim (Results.recommendations r)));
         (u "dmarc", json_opt JString
                       (Recommendations.dmarc (Results.recommendations r)))]);
     (u "commands",
      JObject
        [(u "bind9", JArray (map JString (Commands.bind9 (Results.commands r))));
         (u "powershell",
          JArray (map JString (Commands.powershell (Results.commands r))));
         (u "azure_cli",
          JArray (map JString (Commands.azure_cli (Results.commands r))))])].

(** *** Notions used to state the properties *)

(** Two checkers hold the same assessment: they agree on everything but
    the clock reading and the verbosity flag. *)
Definition same_assessment (c1 c2 : checker) : Prop :=
  domain c1 = domain c2
  /\ Results.domain (results c1) = Results.domain (results c2)
  /\ records c1 = records c2
  /\ issues c1 = issues c2
  /\ recommendations c1 = recommendations c2
  /\ commands c1 = commands c2.

(** A step that appends one command to a platform's list keeps two equal
    assessments equal. *)
Definition adds_command (add : str -> checker -> checker) : Prop :=
  forall cmd c1 c2,
    same_assessment c1 c2 -> same_assessment (add cmd c1) (add cmd c2).

(** The issues a step added to the list it started from. *)
Definition gained (before after : checker) : list str :=
  skipn (length (issues before)) (issues after).

(** A resolver for which every lookup fails. *)
Definition no_dns : resolver := fun _ _ => inl (u "NXDOMAIN").

(** A resolver that answers every TXT query with the one rdata [rdata]
    and fails on CNAME queries. *)
Definition one_txt (rdata : str) : resolver :=
  fun _ t =>
    match t with
    | TXT => inr [rdata]
    | CNAME => inl (u "NXDOMAIN")
    end.

(** The DKIM recommendations for [domain] under the placeholder tenant. *)
Definition placeholder_recommendations (domain : str) : list Rec.t :=
  [{| Rec.selector := u "selector1";
      Rec.host := u "selector1._domainkey." ++ domain;
      Rec.value := u "selector1-" ++ replace domain (u ".") (u "-")
                     ++ u "._domainkey.tenant.onmicrosoft.com";
      Rec.type := u "CNAME" |};
   {| Rec.selector := u "selector2";
      Rec.host := u "selector2._domainkey." ++ domain;
      Rec.value := u "selector2-" ++ replace domain (u ".") (u "-")
                     ++ u "._domainkey.tenant.onmicrosoft.com";
      Rec.type := u "CNAME" |}].

(** The terms of an SPF record: version tag, mechanisms and modifiers,
    separated by spaces. *)
Definition terms (spf_record : str) : list str := fields 32 spf_record.

(** The term is the mechanism [~all] or [-all]. *)
Definition qualifying_all (term : str) : bool :=
  str_eqb term (u "~all") || str_eqb term (u "-all").

(** The text [~all] or [-all] occurs in the term. *)
Definition mentions_all (term : str) : bool :=
  contains (u "~all") term || contains (u "-all") term.
End AuthChecker.

(** A table pair that knows no character beyond ASCII; it serves to run the
    analyser on ASCII text. *)
Definition ascii_tables : UnicodeTables :=
  {| unicode_alnum := fun _ => false; unicode_lower := fun s => s |}.


(** * The rest of email_auth_fix.py: the DMARC check and [check_all] *)

(** [\d] and [int] consult the Unicode database for decimal digits beyond
    ASCII, and [int] refuses digit strings longer than the interpreter's
    limit; both are taken as given. *)
Class DecimalTables : Type := {
  unicode_decimal : char -> option N; (* digit value of [c >= 128], if a digit *)
  max_str_digits : nat                 (* [sys.get_int_max_str_digits()], 0: none *)
}.

(** the class [\d] *)
Definition is_digit `{DecimalTables} (c : char) : bool :=
  if c <? 128 then (48 <=? c) && (c <=? 57)
  else match unicode_decimal c with Some _ => true | None => false end.

Definition digit_value `{DecimalTables} (c : char) : N :=
  if c <? 128 then c - 48
  else match unicode_decimal c with Some v => v | None => 0 end.

(** [str(n)] for a non-negative [int] *)
Definition decimal (n : N) : str :=
  u (DecimalString.NilZero.string_of_uint (N.to_uint n)).

Module AuthCheckerAll.
Import AuthChecker.
Local Open Scope regex_scope.

(** An exception that escapes [check_all]: the one [check_dkim] lets
    through, or the [ValueError] of [int]. *)
Inductive escaped : Type :=
| Escaped (e : exception)
| ValueError.

Inductive result (A : Type) : Type :=
| Return (a : A)
| Raise (e : escaped).
Arguments Return {A} a.
Arguments Raise {A} e.

Section WithTables.
Context `{UnicodeTables} `{DecimalTables}.

(** [int(s)] for a string of decimal digits: the length check applies
    above 640 digits only. *)
Definition int_of_digits (s : str) : result N :=
  if (640 <? length s)%nat && (0 <? max_str_digits)%nat
     && (max_str_digits <? length s)%nat
  then Raise ValueError
  else Return (fold_left (fun acc c => 10 * acc + digit_value c) s 0).

Definition set_record_dmarc (v : option str) (c : checker) : checker :=
  set_records {| Records.spf := Records.spf (records c);
                 Records.dkim := Records.dkim (records c);
                 Records.dmarc := v |} c.

(** [r'p=(\w+)'] *)
Definition re_policy : regex := Lit (u "p=") ;; Grp 1 (Plus is_word).
(** the class [[^\s;]] *)
Definition not_space_semicolon (c : char) : bool :=
  negb (isspace c || (c =? 59)).
(** [r'rua=mailto:([^\s;]+)'] *)
Definition re_rua : regex :=
  Lit (u "rua=mailto:") ;; Grp 1 (Plus not_space_semicolon).
(** [r'pct=(\d+)'] *)
Definition re_pct : regex := Lit (u "pct=") ;; Grp 1 (Plus is_digit).

Definition issue_dmarc_missing : str := u "Registro DMARC não encontrado".
Definition issue_dmarc_no_policy : str :=
  u "Política DMARC (p=) não especificada".
Definition issue_dmarc_none : str :=
  u "Política DMARC configurada como 'none' (monitoramento apenas)".
Definition issue_dmarc_rua : str :=
  u "Relatórios de DMARC (rua=) não configurados".
Definition issue_dmarc_pct (pct_value : N) : str :=
  u "Porcentagem DMARC (pct=" ++ decimal pct_value
    ++ u ") menor que 100% - aplicação parcial".

(** The list comprehension of [check_dmarc]. *)
Definition dmarc_candidates (answers : list str) : list str :=
  filter (fun rdata => startswith rdata (dquote ++ u "v=DMARC1")) answers.

Definition check_dmarc (resolve : resolver) (c : checker) : result checker :=
  let dmarc_name := u "_dmarc." ++ domain c in
  match resolve dmarc_name TXT with
  | inr answers =>
    let dmarc_records := map (strip_chars dquote) (dmarc_candidates answers) in
    match dmarc_records with
    | [] =>
      Return (_recommend_dmarc_record
                (set_record_dmarc None (append_issue issue_dmarc_missing c)))
    | dmarc_record :: _ =>
      let c := set_record_dmarc (Some dmarc_record) c in
      let p_value :=
        match re_search re_policy dmarc_record with
        | Some p_match => Some (group 1 p_match)
        | None => None
        end in
      let c :=
        match p_value with
        | Some ((_ :: _) as p) =>
          if str_eqb p (u "none") then append_issue issue_dmarc_none c else c
        | _ => append_issue issue_dmarc_no_policy c
        end in
      let c :=
        match re_search re_rua dmarc_record with
        | Some _ => c
        | None => append_issue issue_dmarc_rua c
        end in
      let pct :=
        match re_search re_pct dmarc_record with
        | Some pct_match => int_of_digits (group 1 pct_match)
        | None => Return 100
        end in
      match pct with
      | Raise e => Raise e
      | Return pct_value =>
        let c :=
          if pct_value <? 100
          then append_issue (issue_dmarc_pct pct_value) c else c in
        Return (_recommend_dmarc_record c)
      end
    end
  | inl e =>
    Return (_recommend_dmarc_record
              (append_issue (u "Erro ao consultar registro DMARC: " ++ e) c))
  end.

Definition check_all (resolve : resolver) (c : checker) : result checker :=
  let c := check_spf resolve c in
  match check_dkim resolve c with
  | Raised e => Raise (Escaped e)
  | Ok c =>
    match check_dmarc resolve c with
    | Raise e => Raise e
    | Return c => Return (_generate_commands c)
    end
  end.
End WithTables.

(** *** Notions used to state the properties *)

(** The DKIM recommendations for [domain] under the tenant [tenant]. *)
Definition tenant_recommendations (domain tenant : str) : list Rec.t :=
  [{| Rec.selector := u "selector1";
      Rec.host := u "selector1._domainkey." ++ domain;
      Rec.value := u "selector1-" ++ replace domain (u ".") (u "-")
                     ++ u "._domainkey." ++ tenant;
      Rec.type := u "CNAME" |};
   {| Rec.selector := u "selector2";
      Rec.host := u "selector2._domainkey." ++ domain;
      Rec.value := u "selector2-" ++ replace domain (u ".") (u "-")
                     ++ u "._domainkey." ++ tenant;
      Rec.type := u "CNAME" |}].

(** The record [_recommend_dmarc_record] recommends for [domain]. *)
Definition recommended_dmarc (domain : str) : str :=
  u "v=DMARC1; p=quarantine; pct=100; rua=mailto:admin@" ++ domain
    ++ u "; ruf=mailto:admin@" ++ domain ++ u "; fo=1".

(** The record [_recommend_spf_record] recommends. *)
Definition recommended_spf : str :=
  u "v=spf1 include:spf.protection.outlook.com -all".

(** How many commands one run of [_generate_commands] adds per platform:
    one per recommended record. *)
Definition recommended_count (rcm : Recommendations.t) : nat :=
  ((if truthy (Recommendations.spf rcm) then 1 else 0)
   + match Recommendations.dkim rcm with Some l => length l | None => 0 end
   + (if truthy (Recommendations.dmarc rcm) then 1 else 0))%nat.

(** Appending [b], [p] and [a] to the three command lists. *)
Definition push (b p a : list str) (c : checker) : checker :=
  set_commands
    {| Commands.bind9 := Commands.bind9 (commands c) ++ b;
       Commands.powershell := Commands.powershell (commands c) ++ p;
       Commands.azure_cli := Commands.azure_cli (commands c) ++ a |} c.

(** A resolver answers every query it answers with at least one rdata, as
    [dns.resolver.resolve] does. *)
Definition answers_nonempty (resolve : resolver) : Prop :=
  forall name t answers, resolve name t = inr answers -> answers <> [].

(** Every query fails. *)
Definition outage (resolve : resolver) : Prop :=
  forall name t, exists e, resolve name t = inl e.
End AuthCheckerAll.

(** A digit table that knows no digit beyond ASCII, with CPython's default
    limit. *)
Definition ascii_digits : DecimalTables :=
  {| unicode_decimal := fun _ => None; max_str_digits := 4300 |}.

(** Further notions for the header analyser. *)
Module HeaderNotions.
Import HeaderAnalyzer.

(** [not line.strip()] *)
Definition blank (line : str) : bool :=
  match strip line with [] => true | _ :: _ => false end.

(** What the continuation lines [conts] add to the value of the open
    field: each non-blank one, stripped, after a single space. *)
Definition folded (conts : list str) : str :=
  concat (map (fun l => if blank l then [] else u " " ++ strip l) conts).

(** The state [_extract_header_fields] starts its loop in. *)
Definition start (r : results) : scan :=
  {| current_field := None; current_value := []; scanned := r |}.

(** A verdict is present and says [pass]. *)
Definition passes (v : option verdict) : Prop :=
  exists d, v = Some d /\ result d = u "pass".

(** [r'] keeps everything of [r] but the headers, where the retained
    occurrences may only have grown at the end. *)
Definition grows_headers (r r' : results) : Prop :=
  timestamp r' = timestamp r
  /\ authentication r' = authentication r
  /\ issues r' = issues r
  /\ recommendations r' = recommendations r
  /\ exists new,
      authentication_results (headers r')
      = authentication_results (headers r) ++ new.
End HeaderNotions.

(** * Properties *)

(** ** The matcher only reports matches *)

Lemma star_greedy_sound {A : Type} (p : char -> bool) (cs : caps)
      (k : nat -> str -> option A) :
  forall s i x,
    star_greedy p i s k = Some x ->
    exists j s', matches (Star p) i s cs j s' cs /\ k j s' = Some x.
Proof.
  induction s as [|c s IH]; intros i x Hx; simpl in Hx.
  - exists i, []. split; [constructor | assumption].
  - destruct (p c) eqn:Hp.
    + destruct (star_greedy p (S i) s k) as [y|] eqn:Hrec.
      * inversion Hx; subst y.
        destruct (IH _ _ Hrec) as (j & s' & Hm & Hk).
        exists j, s'. split; [now apply M_Star_more | assumption].
      * exists i, (c :: s). split; [constructor | assumption].
    + exists i, (c :: s). split; [constructor | assumption].
Qed.

Lemma star_lazy_sound {A : Type} (p : char -> bool) (cs : caps)
      (k : nat -> str -> option A) :
  forall s i x,
    star_lazy p i s k = Some x ->
    exists j s', matches (LazyStar p) i s cs j s' cs /\ k j s' = Some x.
Proof.
  induction s as [|c s IH]; intros i x Hx; simpl in Hx.
  - destruct (k i []) eqn:Hk; [|discriminate].
    exists i, []. split; [constructor | congruence].
  - destruct (k i (c :: s)) eqn:Hk.
    + exists i, (c :: s). split; [constructor | congruence].
    + destruct (p c) eqn:Hp; [|discriminate].
      destruct (IH _ _ Hx) as (j & s' & Hm & Hk').
      exists j, s'. split; [now apply M_LazyStar_more | assumption].
Qed.

Lemma mtch_sound {A : Type} (r : regex) :
  forall i s cs (k : nat -> str -> caps -> option A) x,
    mtch r i s cs k = Some x ->
    exists j s' cs', matches r i s cs j s' cs' /\ k j s' cs' = Some x.
Proof.
  induction r as [l|p|p|p|r IH|r1 IH1 r2 IH2|n r IH| |]; intros i s cs k x Hx;
    simpl in Hx.
  - destruct (strip_prefix l s) as [s'|] eqn:Hl; [|discriminate].
    exists (i + length l)%nat, s', cs. split; [now constructor | assumption].
  - destruct s as [|c s]; [discriminate|].
    destruct (p c) eqn:Hp; [|discriminate].
    exists (S i), s, cs. split; [now constructor | assumption].
  - destruct (star_greedy_sound p cs _ _ _ _ Hx) as (j & s' & Hm & Hk).
    now exists j, s', cs.
  - destruct (star_lazy_sound p cs _ _ _ _ Hx) as (j & s' & Hm & Hk).
    now exists j, s', cs.
  - destruct (mtch r i s cs k) as [y|] eqn:Hr.
    + inversion Hx; subst y.
      destruct (IH _ _ _ _ _ Hr) as (j & s' & cs' & Hm & Hk).
      exists j, s', cs'. split; [now apply M_Opt_take | assumption].
    + exists i, s, cs. split; [constructor | assumption].
  - destruct (IH1 _ _ _ _ _ Hx) as (j & s' & cs' & Hm1 & Hk1).
    destruct (IH2 _ _ _ _ _ Hk1) as (j' & s'' & cs'' & Hm2 & Hk2).
    exists j', s'', cs''. split; [now apply M_Seq with j s' cs' | assumption].
  - destruct (IH _ _ _ _ _ Hx) as (j & s' & cs' & Hm & Hk).
    exists j, s', ((n, firstn (j - i) s) :: cs').
    split; [now constructor | assumption].
  - destruct i; [|discriminate].
    exists O, s, cs. split; [constructor | assumption].
  - destruct s as [|c [|c' s]].
    + exists i, [], cs. split; [constructor | assumption].
    + destruct (N.eqb_spec c 10) as [E|E]; [|discriminate].
      subst c. exists i, [10], cs. split; [constructor | assumption].
    + discriminate.
Qed.

Lemma search_from_sound (r : regex) :
  forall s i m,
    search_from r i s = Some m ->
    exists n j s',
      matches r (i + n)%nat (skipn n s) [] j s' m.
Proof.
  induction s as [|c s IH]; intros i m Hm; simpl in Hm.
  - destruct (mtch r i [] [] (fun _ _ cs => Some cs)) as [y|] eqn:Hr;
      [|discriminate].
    inversion Hm; subst y.
    destruct (mtch_sound _ _ _ _ _ _ Hr) as (j & s' & cs' & Hmt & Hk).
    inversion Hk; subst cs'.
    exists O, j, s'. now rewrite Nat.add_0_r.
  - destruct (mtch r i (c :: s) [] (fun _ _ cs => Some cs)) as [y|] eqn:Hr.
    + inversion Hm; subst y.
      destruct (mtch_sound _ _ _ _ _ _ Hr) as (j & s' & cs' & Hmt & Hk).
      inversion Hk; subst cs'.
      exists O, j, s'. now rewrite Nat.add_0_r.
    + destruct (IH _ _ Hm) as (n & j & s' & Hmt).
      exists (S n), j, s'. now rewrite Nat.add_succ_r.
Qed.

Lemma matches_star_inv (p : char -> bool) i s cs j s' cs' :
  matches (Star p) i s cs j s' cs' -> (i <= j)%nat /\ cs' = cs.
Proof.
  intros Hm. remember (Star p) as r eqn:Er.
  induction Hm; inversion Er; subst; auto with arith.
  destruct (IHHm eq_refl) as [Hle _]. split; [lia | reflexivity].
Qed.

(** A greedy [p+] consumes a character of the class. *)
Lemma matches_plus (p : char -> bool) i s cs j s' cs' :
  matches (Plus p) i s cs j s' cs' ->
  exists c t, s = c :: t /\ p c = true /\ (i < j)%nat /\ cs' = cs.
Proof.
  unfold Plus. intros Hm. inversion Hm; subst.
  match goal with
  | H1 : matches (Cls _) _ _ _ _ _ _, H2 : matches (Star _) _ _ _ _ _ _ |- _ =>
    inversion H1; subst; apply matches_star_inv in H2; destruct H2 as [Hle ->]
  end.
  eauto 10 with arith.
Qed.

(** ** Strings *)

Lemma str_eqb_eq (a b : str) : str_eqb a b = true <-> a = b.
Proof.
  revert b. induction a as [|x a IH]; intros [|y b]; simpl;
    try (split; (reflexivity || discriminate)).
  rewrite andb_true_iff, N.eqb_eq, IH.
  split; [intros [-> ->]; reflexivity | intros E; inversion E; auto].
Qed.

Lemma str_eqb_refl (a : str) : str_eqb a a = true.
Proof. now apply str_eqb_eq. Qed.

Lemma str_eqb_neq (a b : str) : str_eqb a b = false <-> a <> b.
Proof.
  rewrite <- str_eqb_eq. destruct (str_eqb a b); split; congruence.
Qed.

Lemma lstrip_by_snoc (p : char -> bool) (c : char) :
  p c = false -> forall l, lstrip_by p (l ++ [c]) <> [].
Proof.
  intros Hc. induction l as [|x l IH]; simpl.
  - rewrite Hc. discriminate.
  - destruct (p x); [assumption | discriminate].
Qed.

(** Stripping keeps a string that starts with a character outside the
    stripped class non-empty. *)
Lemma strip_by_cons (p : char -> bool) (c : char) (t : str) :
  p c = false -> strip_by p (c :: t) <> [].
Proof.
  intros Hc. unfold strip_by, rstrip_by. simpl lstrip_by at 2. rewrite Hc.
  simpl rev. intros E. apply (f_equal (@rev char)) in E.
  rewrite rev_involutive in E. simpl in E.
  now apply (lstrip_by_snoc p c Hc (rev t)).
Qed.

Lemma split1_no_sep (sep : char) :
  forall s, ~ In sep s -> split1 sep s = [s].
Proof.
  induction s as [|c s IH]; intros Hn; simpl; [reflexivity|].
  destruct (N.eqb_spec c sep) as [E|E].
  - exfalso. apply Hn. now left.
  - rewrite IH; [reflexivity|]. intros Hin. apply Hn. now right.
Qed.

Lemma skipn_length_app {A : Type} (l k : list A) : skipn (length l) (l ++ k) = k.
Proof. induction l; simpl; auto. Qed.

(** ** Header analyser: the verdict table *)

Section HeaderFacts.
Import HeaderAnalyzer.
Context `{UnicodeTables}.

(** Case analysis on the four token searches of one extraction. *)
Ltac extract_cases r a :=
  cbv zeta;
  destruct (spf (authentication r)) eqn:?;
  destruct (re_search (re_token (u "spf")) a);
  destruct (re_search (re_token (u "dkim")) a);
  destruct (re_search (re_token (u "dmarc")) a);
  destruct (re_search (re_token (u "arc")) a);
  cbn [spf dkim dmarc arc authentication headers issues
       set_authentication set_spf set_dkim set_dmarc set_arc init];
  try match goal with E : spf _ = _ |- _ => rewrite ?E end.

Lemma extract_keeps_headers r a :
  headers (_extract_from_authentication_results r a) = headers r
  /\ issues (_extract_from_authentication_results r a) = issues r.
Proof.
  unfold _extract_from_authentication_results.
  extract_cases r a; split; reflexivity.
Qed.

(** SPF: an occurrence fills the slot only while it is empty. *)
Lemma extract_spf r a :
  spf (authentication (_extract_from_authentication_results r a)) =
  match spf (authentication r) with
  | Some v => Some v
  | None => supplied spf a
  end.
Proof.
  unfold supplied, _extract_from_authentication_results.
  extract_cases r a; reflexivity.
Qed.

Lemma extract_dkim : overwrites dkim.
Proof.
  intros r a. unfold supplied, _extract_from_authentication_results.
  extract_cases r a; reflexivity.
Qed.

Lemma extract_dmarc : overwrites dmarc.
Proof.
  intros r a. unfold supplied, _extract_from_authentication_results.
  extract_cases r a; reflexivity.
Qed.

Lemma extract_arc : overwrites arc.
Proof.
  intros r a. unfold supplied, _extract_from_authentication_results.
  extract_cases r a; reflexivity.
Qed.

Local Notation "'run_occurrences'" :=
  (fold_left _extract_from_authentication_results).

Lemma run_keeps_headers l : forall r, headers (run_occurrences l r) = headers r.
Proof.
  induction l as [|a l IH]; intros r; simpl; [reflexivity|].
  rewrite IH. apply extract_keeps_headers.
Qed.

Lemma run_keeps_issues l : forall r, issues (run_occurrences l r) = issues r.
Proof.
  induction l as [|a l IH]; intros r; simpl; [reflexivity|].
  rewrite IH. apply extract_keeps_headers.
Qed.

Lemma run_spf_set l : forall r v,
  spf (authentication r) = Some v ->
  spf (authentication (run_occurrences l r)) = Some v.
Proof.
  induction l as [|a l IH]; intros r v Hv; simpl; [assumption|].
  apply IH. now rewrite extract_spf, Hv.
Qed.

Lemma run_spf_unset l : forall r,
  spf (authentication r) = None ->
  Forall (fun b => supplied spf b = None) l ->
  spf (authentication (run_occurrences l r)) = None.
Proof.
  induction l as [|a l IH]; intros r Hr Hl; simpl; [assumption|].
  inversion Hl; subst. apply IH; [|assumption].
  now rewrite extract_spf, Hr.
Qed.

(** With an empty slot, the first occurrence that supplies [spf=] decides. *)
Lemma run_spf_first l1 a l2 r v :
  spf (authentication r) = None ->
  Forall (fun b => supplied spf b = None) l1 ->
  supplied spf a = Some v ->
  spf (authentication (run_occurrences (l1 ++ a :: l2) r)) = Some v.
Proof.
  intros Hr Hl1 Ha. rewrite fold_left_app. simpl.
  apply run_spf_set. rewrite extract_spf.
  now rewrite (run_spf_unset l1 r Hr Hl1).
Qed.

Lemma run_last mechanism (Hm : overwrites mechanism) l1 a l2 r v :
  supplied mechanism a = Some v ->
  Forall (fun b => supplied mechanism b = None) l2 ->
  mechanism (authentication (run_occurrences (l1 ++ a :: l2) r)) = Some v.
Proof.
  intros Ha Hl2. rewrite fold_left_app. simpl.
  set (r1 := _extract_from_authentication_results _ a).
  assert (Hr1 : mechanism (authentication r1) = Some v)
    by (unfold r1; now rewrite Hm, Ha).
  clearbody r1. revert r1 Hr1.
  induction Hl2 as [|b l2 Hb _ IH]; intros r1 Hr1; simpl; [assumption|].
  apply IH. now rewrite Hm, Hb.
Qed.

Lemma verdict_issue_spec name v r :
  authentication (verdict_issue name v r) = authentication r
  /\ headers (verdict_issue name v r) = headers r
  /\ issues (verdict_issue name v r) = issues r ++ verdict_issues name v.
Proof.
  unfold verdict_issue, verdict_issues.
  destruct v as [d|]; [destruct (str_eqb (result d) (u "pass"))|];
    simpl; rewrite ?app_nil_r; auto.
Qed.

Lemma identify_keeps r :
  authentication (_identify_issues r) = authentication r
  /\ headers (_identify_issues r) = headers r.
Proof.
  unfold _identify_issues. cbv zeta.
  set (r3 := verdict_issue (u "DMARC") _ _).
  assert (authentication r3 = authentication r /\ headers r3 = headers r) as [Ha Hh].
  { unfold r3.
    repeat match goal with
           | |- context [verdict_issue ?n ?v ?x] =>
             destruct (verdict_issue_spec n v x) as (-> & -> & _)
           end.
    auto. }
  clearbody r3.
  destruct (_extract_domain_from_email (from (headers r3))) as [[|? ?]|];
    destruct (_extract_domain_from_email (return_path (headers r3))) as [[|? ?]|];
    try (split; assumption).
  match goal with |- context [str_eqb ?x ?y] => destruct (str_eqb x y) end;
    split; assumption.
Qed.

Lemma generate_keeps r :
  authentication (_generate_recommendations r) = authentication r
  /\ headers (_generate_recommendations r) = headers r
  /\ issues (_generate_recommendations r) = issues r.
Proof.
  unfold _generate_recommendations. cbv zeta.
  destruct (mentions (u "SPF") (issues r));
    destruct (mentions (u "DKIM") (issues r));
    destruct (mentions (u "DMARC") (issues r));
    destruct (truthy (_extract_domain_from_email (from (headers r))));
    repeat split; reflexivity.
Qed.

Lemma save_keeps_authentication r f v :
  authentication (_save_header_field r f v) = authentication r.
Proof.
  unfold _save_header_field. cbv zeta.
  repeat match goal with
         | |- context [if ?b then _ else _] => destruct b
         end; reflexivity.
Qed.

Lemma flush_keeps_authentication st :
  authentication (flush st) = authentication (scanned st).
Proof.
  unfold flush. destruct (current_field st) as [[|? ?]|]; try reflexivity.
  apply save_keeps_authentication.
Qed.

Lemma scan_line_keeps_authentication st line :
  authentication (scanned (scan_line st line)) = authentication (scanned st).
Proof.
  unfold scan_line.
  destruct (strip line); [reflexivity|].
  destruct line as [|c0 t]; [reflexivity|].
  destruct (isspace c0).
  - destruct (truthy (current_field st)); reflexivity.
  - destruct (split1 58 (c0 :: t)) as [|? [|? [|? ?]]]; simpl;
      apply flush_keeps_authentication.
Qed.

Lemma extract_fields_keeps_authentication lines r :
  authentication (_extract_header_fields r lines) = authentication r.
Proof.
  unfold _extract_header_fields. rewrite flush_keeps_authentication.
  set (st := {| current_field := None; current_value := []; scanned := r |}).
  change (authentication r) with (authentication (scanned st)).
  generalize st. clear st.
  induction lines as [|l lines IH]; intros st; simpl; [reflexivity|].
  rewrite IH. apply scan_line_keeps_authentication.
Qed.

(** The Received-SPF reader looks at the headers only. *)
Lemma received_spf_reader_headers r r' :
  headers r = headers r' ->
  _extract_spf_from_received_spf r = _extract_spf_from_received_spf r'.
Proof. unfold _extract_spf_from_received_spf. now intros ->. Qed.

(** A verdict read from Received-SPF comes from a value that starts with a
    word character. *)
Lemma received_spf_reader_some r v :
  _extract_spf_from_received_spf r = Some v ->
  exists value,
    received_spf (headers r) = Some value /\ begins_with_word value = true.
Proof.
  unfold _extract_spf_from_received_spf.
  destruct (received_spf (headers r)) as [value|]; [|discriminate].
  destruct (re_search re_leading_word value) as [m|] eqn:Hm; [|discriminate].
  intros _. exists value. split; [reflexivity|].
  apply search_from_sound in Hm. destruct Hm as (n & j & s' & Hm).
  unfold re_leading_word in Hm. inversion Hm; subst.
  match goal with
  | HB : matches Bol _ _ _ _ _ _, HG : matches (Grp _ _) _ _ _ _ _ _ |- _ =>
    inversion HB; subst; inversion HG; subst
  end.
  match goal with
  | HP : matches (Plus _) _ _ _ _ _ _ |- _ =>
    apply matches_plus in HP; destruct HP as (c & t & Hs & Hc & _)
  end.
  destruct n; [|discriminate].
  simpl in Hs. subst value. exact Hc.
Qed.

(** The verdict table after [_analyze_authentication]: the occurrences
    run on the state the Received-SPF step left. *)
Lemma analyze_authentication_spec r :
  headers (_analyze_authentication r) = headers r
  /\ exists r1,
      dkim (authentication r1) = dkim (authentication r)
      /\ dmarc (authentication r1) = dmarc (authentication r)
      /\ arc (authentication r1) = arc (authentication r)
      /\ spf (authentication r1) =
         (if truthy (received_spf (headers r))
          then _extract_spf_from_received_spf r else spf (authentication r))
      /\ authentication (_analyze_authentication r) =
         authentication (run_occurrences (authentication_results (headers r)) r1).
Proof.
  unfold _analyze_authentication. cbv zeta.
  set (r1 := if truthy (received_spf (headers r)) then _ else r).
  assert (Hh : headers r1 = headers r)
    by (unfold r1; destruct (truthy (received_spf (headers r))); reflexivity).
  destruct (identify_keeps (run_occurrences (authentication_results (headers r1)) r1))
    as (-> & ->).
  rewrite run_keeps_headers, Hh. split; [reflexivity|].
  exists r1. unfold r1.
  destruct (truthy (received_spf (headers r))); repeat split; reflexivity.
Qed.

(** The SPF slot once the whole header text has been analysed. *)
Lemma analyze_header_spf now text :
  let r0 := _extract_header_fields (init now) (splitlines text) in
  let r := analyze_header (init now) text in
  headers r = headers r0
  /\ exists r1,
      spf (authentication r1) =
        (if truthy (received_spf (headers r0))
         then _extract_spf_from_received_spf r0 else None)
      /\ spf (authentication r) =
         spf (authentication
                (run_occurrences (authentication_results (headers r0)) r1)).
Proof.
  intros r0 r. unfold r, analyze_header. cbv zeta. fold r0.
  destruct (generate_keeps (_analyze_authentication r0)) as (-> & -> & _).
  unfold _analyze_authentication. cbv zeta.
  set (r1 := if truthy (received_spf (headers r0)) then _ else r0).
  assert (Hh : headers r1 = headers r0)
    by (unfold r1; destruct (truthy (received_spf (headers r0))); reflexivity).
  destruct (identify_keeps (run_occurrences (authentication_results (headers r1)) r1))
    as (-> & ->).
  rewrite run_keeps_headers, Hh. split; [reflexivity|].
  exists r1. split; [|reflexivity].
  unfold r1. destruct (truthy (received_spf (headers r0))); [reflexivity|].
  unfold r0. now rewrite extract_fields_keeps_authentication.
Qed.
End HeaderFacts.

(** ** Header analyser: the claims on precedence *)

Section HeaderPrecedence.
Import HeaderAnalyzer.

(** C1.  Received-SPF precedence and first-occurrence-wins for SPF: after
    the analysis of any header text, a verdict that the Received-SPF value
    yields is the SPF verdict whatever the Authentication-Results
    occurrences say; and when no Received-SPF field was kept, the first
    occurrence that supplies [spf=] gives the SPF verdict whatever the
    later occurrences supply. *)
Theorem received_spf_precedence `{UnicodeTables} (now text : str) :
  let r := analyze_header (init now) text in
  (forall v,
      _extract_spf_from_received_spf r = Some v ->
      spf (authentication r) = Some v)
  /\ (received_spf (headers r) = None ->
      forall l1 a l2 v,
        authentication_results (headers r) = l1 ++ a :: l2 ->
        Forall (fun b => supplied spf b = None) l1 ->
        supplied spf a = Some v ->
        spf (authentication r) = Some v).
Proof.
  intros r.
  destruct (analyze_header_spf now text) as (Hh & r1 & H1 & Hfin).
  fold r in Hh, Hfin. split.
  - intros v Hv.
    rewrite (received_spf_reader_headers _ _ Hh) in Hv.
    destruct (received_spf_reader_some _ _ Hv) as (value & Hval & Hw).
    rewrite Hval in H1. destruct value as [|c t]; [discriminate|].
    simpl in H1. rewrite Hfin. apply run_spf_set. congruence.
  - intros Habs l1 a l2 v Hocc Hl1 Ha.
    rewrite Hh in Habs, Hocc. rewrite Habs in H1. simpl in H1.
    rewrite Hfin, Hocc. now apply run_spf_first.
Qed.

Lemma received_spf_precedence_witness :
  spf (authentication
         (analyze_header (H := ascii_tables) (init (u "t"))
            (u "Received-SPF: pass (ok)" ++ [10]
               ++ u "Authentication-Results: mx; spf=fail")))
  = Some {| result := u "pass"; explanation := u "ok"; selector := None |}
  /\ spf (authentication
            (analyze_header (H := ascii_tables) (init (u "t"))
               (u "Authentication-Results: mx; dkim=pass" ++ [10]
                  ++ u "Authentication-Results: mx; spf=fail" ++ [10]
                  ++ u "Authentication-Results: mx; spf=pass")))
     = Some {| result := u "fail"; explanation := []; selector := None |}.
Proof.
  split.
  - apply (proj1 (received_spf_precedence (H := ascii_tables) (u "t") _)).
    vm_compute. reflexivity.
  - apply (proj2 (received_spf_precedence (H := ascii_tables) (u "t") _))
      with (l1 := [u "mx; dkim=pass"]) (a := u "mx; spf=fail")
           (l2 := [u "mx; spf=pass"]).
    + vm_compute. reflexivity.
    + vm_compute. reflexivity.
    + repeat constructor.
    + vm_compute. reflexivity.
Defined.

(** C10.  An unparseable Received-SPF does not take precedence: when the
    kept Received-SPF value does not begin with a word character, reading
    it yields no verdict (not an error verdict), and the SPF verdict is
    then the one of the first Authentication-Results occurrence that
    supplies [spf=], or stays unset when none does. *)
Theorem unparseable_received_spf `{UnicodeTables} (now text value : str) :
  let r := analyze_header (init now) text in
  received_spf (headers r) = Some value ->
  begins_with_word value = false ->
  _extract_spf_from_received_spf r = None
  /\ (forall l1 a l2 v,
         authentication_results (headers r) = l1 ++ a :: l2 ->
         Forall (fun b => supplied spf b = None) l1 ->
         supplied spf a = Some v ->
         spf (authentication r) = Some v)
  /\ (Forall (fun b => supplied spf b = None)
             (authentication_results (headers r)) ->
      spf (authentication r) = None).
Proof.
  intros r Hval Hw.
  destruct (analyze_header_spf now text) as (Hh & r1 & H1 & Hfin).
  fold r in Hh, Hfin.
  assert (Hnone : _extract_spf_from_received_spf r = None).
  { destruct (_extract_spf_from_received_spf r) as [v|] eqn:Hv; [|reflexivity].
    destruct (received_spf_reader_some _ _ Hv) as (value' & Hval' & Hw').
    congruence. }
  assert (Hr1 : spf (authentication r1) = None).
  { rewrite H1. rewrite <- (received_spf_reader_headers _ _ Hh), Hnone.
    now destruct (truthy _). }
  split; [assumption|]. split.
  - intros l1 a l2 v Hocc Hl1 Ha. rewrite Hh in Hocc.
    rewrite Hfin, Hocc. now apply run_spf_first.
  - intros Hall. rewrite Hh in Hall. rewrite Hfin. now apply run_spf_unset.
Qed.

Lemma unparseable_received_spf_witness :
  let r := analyze_header (H := ascii_tables) (init (u "t"))
             (u "Received-SPF: (pass) no leading token" ++ [10]
                ++ u "Authentication-Results: mx; spf=softfail (why)") in
  _extract_spf_from_received_spf (H := ascii_tables) r = None
  /\ spf (authentication r)
     = Some {| result := u "softfail"; explanation := u "why";
               selector := None |}.
Proof.
  intros r.
  destruct (unparseable_received_spf (H := ascii_tables) (u "t")
              (u "Received-SPF: (pass) no leading token" ++ [10]
                 ++ u "Authentication-Results: mx; spf=softfail (why)")
              (u "(pass) no leading token"))
    as (Hnone & Hfirst & _).
  - vm_compute. reflexivity.
  - vm_compute. reflexivity.
  - split; [exact Hnone|].
    apply Hfirst with (l1 := []) (a := u "mx; spf=softfail (why)") (l2 := []).
    + vm_compute. reflexivity.
    + constructor.
    + vm_compute. reflexivity.
Defined.

(** The search for [arc=] also finds the tail of a [dmarc=] token, so an
    occurrence with [dmarc=pass] alone supplies an ARC verdict. *)
Remark arc_token_inside_dmarc `{UnicodeTables} :
  supplied arc (u "mx.example.org; dmarc=pass")
  = Some {| result := u "pass"; explanation := []; selector := None |}.
Proof. vm_compute. reflexivity. Qed.

(** C2.  Last-occurrence-wins for DKIM, DMARC and ARC: for every sequence
    of retained Authentication-Results occurrences, the final verdict of
    each of the three mechanisms is the one extracted from the last
    occurrence that supplies the mechanism's token; and a first occurrence
    with [dkim=pass] followed by a second with [dkim=fail] ends in the
    DKIM verdict [fail]. *)
Theorem last_occurrence_wins `{UnicodeTables} :
  (forall r l1 a l2,
      authentication_results (headers r) = l1 ++ a :: l2 ->
      let r' := _analyze_authentication r in
      (forall v, supplied dkim a = Some v ->
                 Forall (fun b => supplied dkim b = None) l2 ->
                 dkim (authentication r') = Some v)
      /\ (forall v, supplied dmarc a = Some v ->
                    Forall (fun b => supplied dmarc b = None) l2 ->
                    dmarc (authentication r') = Some v)
      /\ (forall v, supplied arc a = Some v ->
                    Forall (fun b => supplied arc b = None) l2 ->
                    arc (authentication r') = Some v))
  /\ (forall now,
         dkim (authentication
                 (analyze_header (init now)
                    (u "Authentication-Results: mx; dkim=pass" ++ [10]
                       ++ u "Authentication-Results: mx; dkim=fail")))
         = Some {| result := u "fail"; explanation := [];
                   selector := Some [] |}).
Proof.
  split.
  - intros r l1 a l2 Hocc r'.
    destruct (analyze_authentication_spec r) as (_ & r1 & _ & _ & _ & _ & Hfin).
    unfold r'. rewrite Hfin, Hocc.
    repeat split; intros v Ha Hl2.
    + now apply (run_last dkim extract_dkim).
    + now apply (run_last dmarc extract_dmarc).
    + now apply (run_last arc extract_arc).
  - intros now. vm_compute. reflexivity.
Qed.

Lemma last_occurrence_wins_witness :
  let r := set_headers
             {| from := None; return_path := None; sender := None;
                received_spf := None;
                authentication_results :=
                  [u "mx; dkim=pass (good) header.d=a.com";
                   u "mx; dkim=fail (bad key) header.d=b.com; dmarc=fail";
                   u "mx; spf=pass"] |}
             (init (u "t")) in
  dkim (authentication (_analyze_authentication (H := ascii_tables) r))
  = Some {| result := u "fail"; explanation := u "bad key";
            selector := Some (u "b.com;") |}.
Proof.
  intros r.
  apply (proj1 (proj1 (last_occurrence_wins (H := ascii_tables)) r
                  [u "mx; dkim=pass (good) header.d=a.com"]
                  (u "mx; dkim=fail (bad key) header.d=b.com; dmarc=fail")
                  [u "mx; spf=pass"] eq_refl)).
  - vm_compute. reflexivity.
  - repeat constructor.
Defined.
End HeaderPrecedence.

(** ** Header analyser: alignment, folding, export *)

Ltac invert_matches :=
  repeat match goal with
         | H : matches (Plus _) _ _ _ _ _ _ |- _ =>
           apply matches_plus in H; destruct H as (? & ? & ? & ? & ? & ?)
         | H : matches (Seq _ _) _ _ _ _ _ _ |- _ => inversion H; clear H; subst
         | H : matches (Grp _ _) _ _ _ _ _ _ |- _ => inversion H; clear H; subst
         | H : matches (Opt _) _ _ _ _ _ _ |- _ => inversion H; clear H; subst
         | H : matches (Lit _) _ _ _ _ _ _ |- _ => inversion H; clear H; subst
         end.

Section HeaderAlignment.
Import HeaderAnalyzer.

(** The address pattern never extracts an empty domain. *)
Lemma extracted_domain_nonempty `{UnicodeTables} h d :
  _extract_domain_from_email h = Some d -> exists c t, d = c :: t.
Proof.
  unfold _extract_domain_from_email.
  destruct h as [[|c0 t0]|]; try discriminate.
  destruct (re_search re_email (c0 :: t0)) as [m|] eqn:Hm; [|discriminate].
  intros E. inversion E; subst d. clear E.
  apply search_from_sound in Hm. destruct Hm as (n & j & s' & Hm).
  unfold re_email in Hm. invert_matches;
    match goal with
    | Hlt : (?i < ?j)%nat |- context [firstn (?j - ?i) (?c :: ?t)] =>
      destruct (j - i)%nat eqn:Hd; [lia|]; simpl; eauto
    end.
Qed.

Lemma identify_issues_spec `{UnicodeTables} r :
  issues (_identify_issues r) =
  issues r
    ++ verdict_issues (u "SPF") (spf (authentication r))
    ++ verdict_issues (u "DKIM") (dkim (authentication r))
    ++ verdict_issues (u "DMARC") (dmarc (authentication r))
    ++ alignment_issues (_extract_domain_from_email (from (headers r)))
                        (_extract_domain_from_email (return_path (headers r))).
Proof.
  unfold _identify_issues. cbv zeta.
  set (r1 := verdict_issue (u "SPF") _ _).
  destruct (verdict_issue_spec (u "SPF") (spf (authentication r)) r)
    as (Ha1 & Hh1 & Hi1). fold r1 in Ha1, Hh1, Hi1.
  set (r2 := verdict_issue (u "DKIM") _ _).
  destruct (verdict_issue_spec (u "DKIM") (dkim (authentication r1)) r1)
    as (Ha2 & Hh2 & Hi2). fold r2 in Ha2, Hh2, Hi2.
  set (r3 := verdict_issue (u "DMARC") _ _).
  destruct (verdict_issue_spec (u "DMARC") (dmarc (authentication r2)) r2)
    as (Ha3 & Hh3 & Hi3). fold r3 in Ha3, Hh3, Hi3.
  assert (Hi : issues r3 =
               issues r ++ verdict_issues (u "SPF") (spf (authentication r))
                 ++ verdict_issues (u "DKIM") (dkim (authentication r))
                 ++ verdict_issues (u "DMARC") (dmarc (authentication r))).
  { rewrite Hi3, Hi2, Hi1, Ha2, Ha1. now rewrite <- !app_assoc. }
  assert (Hh : headers r3 = headers r) by congruence.
  clearbody r3. rewrite Hh. unfold alignment_issues.
  destruct (_extract_domain_from_email (from (headers r))) as [[|c1 t1]|];
    destruct (_extract_domain_from_email (return_path (headers r))) as [[|c2 t2]|];
    rewrite ?app_nil_r in *; try (rewrite Hi, <- ?app_assoc; reflexivity);
    try (rewrite Hi, <- ?app_assoc, ?app_nil_r; reflexivity).
  destruct (str_eqb (c1 :: t1) (c2 :: t2)); simpl issues;
    rewrite Hi, <- ?app_assoc, ?app_nil_r; reflexivity.
Qed.

Lemma verdict_issues_not_mismatch v :
  filter is_mismatch_issue (verdict_issues (u "SPF") v) = []
  /\ filter is_mismatch_issue (verdict_issues (u "DKIM") v) = []
  /\ filter is_mismatch_issue (verdict_issues (u "DMARC") v) = [].
Proof.
  unfold verdict_issues.
  destruct v as [d|]; [destruct (str_eqb (result d) (u "pass"))|];
    repeat split; vm_compute; reflexivity.
Qed.

Lemma mismatch_issue_is_mismatch d1 d2 :
  is_mismatch_issue (mismatch_issue d1 d2) = true.
Proof. vm_compute. reflexivity. Qed.

(** C7.  Alignment of From and Return-Path: whenever the address pattern
    extracts a domain from both header values, the issues that
    [_identify_issues] appends contain exactly one domain-mismatch issue,
    naming the two domains, when the domains differ as strings, and none
    when they are equal; and [From: user@a.com] with
    [Return-Path: <user@b.com>] gives exactly one mismatch issue, naming
    [a.com] and [b.com]. *)
Theorem alignment_mismatch `{UnicodeTables} :
  (forall r d1 d2,
      _extract_domain_from_email (from (headers r)) = Some d1 ->
      _extract_domain_from_email (return_path (headers r)) = Some d2 ->
      let new := skipn (length (issues r)) (issues (_identify_issues r)) in
      (d1 <> d2 -> filter is_mismatch_issue new = [mismatch_issue d1 d2])
      /\ (d1 = d2 -> filter is_mismatch_issue new = []))
  /\ (forall now,
         filter is_mismatch_issue
                (issues (analyze_header (init now)
                           (u "From: user@a.com" ++ [10]
                              ++ u "Return-Path: <user@b.com>")))
         = [u "Desalinhamento de domínio: From (a.com) ≠ Return-Path (b.com)"]).
Proof.
  split.
  - intros r d1 d2 H1 H2 new. unfold new.
    rewrite identify_issues_spec, skipn_length_app, H1, H2.
    destruct (extracted_domain_nonempty _ _ H1) as (c1 & t1 & ->).
    destruct (extracted_domain_nonempty _ _ H2) as (c2 & t2 & ->).
    rewrite !filter_app.
    destruct (verdict_issues_not_mismatch (spf (authentication r))) as (-> & _ & _).
    destruct (verdict_issues_not_mismatch (dkim (authentication r))) as (_ & -> & _).
    destruct (verdict_issues_not_mismatch (dmarc (authentication r))) as (_ & _ & ->).
    cbn [app alignment_issues].
    destruct (str_eqb (c1 :: t1) (c2 :: t2)) eqn:E.
    + apply str_eqb_eq in E. split; [congruence | reflexivity].
    + apply str_eqb_neq in E. split; [|congruence].
      intros _. cbn [filter]. now rewrite mismatch_issue_is_mismatch.
  - intros now. vm_compute. reflexivity.
Qed.

Lemma alignment_mismatch_witness :
  let r := set_headers
             {| from := Some (u "Ana <ana@Example.com>");
                return_path := Some (u "<bounce@example.com>");
                sender := None; received_spf := None;
                authentication_results := [] |}
             (init (u "t")) in
  filter is_mismatch_issue
         (skipn (length (issues r)) (issues (_identify_issues (H := ascii_tables) r)))
  = [mismatch_issue (u "Example.com") (u "example.com")].
Proof.
  intros r.
  apply (proj1 (proj1 (alignment_mismatch (H := ascii_tables)) r
                  (u "Example.com") (u "example.com") eq_refl eq_refl)).
  vm_compute. discriminate.
Defined.
End HeaderAlignment.

Section HeaderFolding.
Import HeaderAnalyzer.
Context `{UnicodeTables}.

(** A non-indented line without a colon closes the open field and leaves
    none open. *)
Lemma scan_line_colonless st line :
  indented line = false ->
  ~ In 58 line ->
  scan_line st line =
  {| current_field := None; current_value := []; scanned := flush st |}.
Proof.
  intros Hind Hcolon. destruct line as [|c0 t]; [discriminate|].
  simpl in Hind. unfold scan_line.
  destruct (strip (c0 :: t)) eqn:Hs;
    [now apply (strip_by_cons isspace c0 t) in Hind |].
  rewrite Hind, (split1_no_sep 58 _ Hcolon). reflexivity.
Qed.

(** With no field open, blank and indented lines change nothing. *)
Lemma scan_line_continuation st line :
  current_field st = None ->
  indented line = true ->
  scan_line st line = st.
Proof.
  intros Hcf Hind. unfold scan_line.
  destruct (strip line); [reflexivity|].
  destruct line as [|c0 t]; [reflexivity|].
  simpl in Hind. now rewrite Hind, Hcf.
Qed.

Lemma scan_continuations conts :
  Forall (fun l => indented l = true) conts ->
  forall st, current_field st = None -> fold_left scan_line conts st = st.
Proof.
  induction 1 as [|l conts Hl _ IH]; intros st Hcf; simpl; [reflexivity|].
  rewrite (scan_line_continuation st l Hcf Hl). now apply IH.
Qed.

(** A non-indented line sees the scan state only through the flushed
    results. *)
Lemma scan_line_new_field st1 st2 line :
  indented line = false ->
  flush st1 = flush st2 ->
  scan_line st1 line = scan_line st2 line.
Proof.
  intros Hind Hf. destruct line as [|c0 t]; [discriminate|].
  simpl in Hind. unfold scan_line.
  destruct (strip (c0 :: t)) eqn:Hs;
    [now apply (strip_by_cons isspace c0 t) in Hind |].
  now rewrite Hind, Hf.
Qed.

(** C9.  A non-indented line without a colon resets the current field to
    none: scanning it leaves no field open, the whitespace-indented (or
    blank) lines right after it change nothing, and the extracted fields
    are those of the text with that line and these continuation lines
    removed, so none of them reaches the value of the field that was open
    before. *)
Theorem colonless_line_discarded
        (r : results) (pre conts post : list str) (line : str) :
  indented line = false ->
  ~ In 58 line ->
  Forall (fun l => indented l = true) conts ->
  match post with [] => True | p :: _ => indented p = false end ->
  (forall st,
      current_field (scan_line st line) = None
      /\ fold_left scan_line conts (scan_line st line) = scan_line st line)
  /\ _extract_header_fields r (pre ++ line :: conts ++ post)
     = _extract_header_fields r (pre ++ post).
Proof.
  intros Hind Hcolon Hconts Hpost. split.
  - intros st. rewrite (scan_line_colonless st line Hind Hcolon).
    split; [reflexivity|]. now apply scan_continuations.
  - unfold _extract_header_fields.
    rewrite !fold_left_app. simpl fold_left. rewrite fold_left_app.
    set (st := fold_left scan_line pre _).
    rewrite (scan_line_colonless st line Hind Hcolon).
    rewrite (scan_continuations conts Hconts) by reflexivity.
    destruct post as [|p post]; simpl; [reflexivity|].
    now rewrite (scan_line_new_field _ st p Hpost).
Qed.
End HeaderFolding.

Lemma colonless_line_discarded_witness :
  HeaderAnalyzer._extract_header_fields (H := ascii_tables)
    (HeaderAnalyzer.init (u "t"))
    ([u "From: user@a.com"]
       ++ u "this line has no colon"
       :: [u "  folded text"; []; u "	more"]
       ++ [u "Sender: b@b.org"])
  = HeaderAnalyzer._extract_header_fields (H := ascii_tables)
      (HeaderAnalyzer.init (u "t"))
      ([u "From: user@a.com"] ++ [u "Sender: b@b.org"]).
Proof.
  apply (colonless_line_discarded (H := ascii_tables)).
  - vm_compute. reflexivity.
  - vm_compute. intuition discriminate.
  - repeat constructor.
  - vm_compute. reflexivity.
Defined.

(** C8, as the code has it.  The exported document of the header analyser
    has exactly the keys timestamp, authentication, headers, issues and
    recommendations, and no commands key; the exported document of the DNS
    checker has exactly the keys domain, timestamp, records, issues,
    recommendations and commands. *)
Theorem export_json_keys :
  (forall r,
      json_keys (HeaderAnalyzer.export_json r)
      = [u "timestamp"; u "authentication"; u "headers"; u "issues";
         u "recommendations"])
  /\ (forall c,
         json_keys (AuthChecker.export_json c)
         = [u "domain"; u "timestamp"; u "records"; u "issues";
            u "recommendations"; u "commands"]).
Proof. split; intros; reflexivity. Qed.

(** C8, as stated, fails: the document the header analyser exports for
    [From: user@a.com] has no commands key. *)
Lemma header_export_has_no_commands :
  ~ In (u "commands")
       (json_keys
          (HeaderAnalyzer.export_json
             (HeaderAnalyzer.analyze_header (H := ascii_tables)
                (HeaderAnalyzer.init (u "2024-01-01T00:00:00"))
                (u "From: user@a.com")))).
Proof. vm_compute. intuition discriminate. Qed.

(** ** DNS checker *)

Lemma In_existsb (x : str) (l : list str) :
  In x l <-> existsb (str_eqb x) l = true.
Proof.
  rewrite existsb_exists. split.
  - intros Hin. exists x. split; [assumption | apply str_eqb_refl].
  - intros (y & Hin & E). apply str_eqb_eq in E. now subst y.
Qed.

Lemma strip_prefix_cons x p s s' :
  strip_prefix (x :: p) s = Some s' ->
  exists t, s = x :: t /\ strip_prefix p t = Some s'.
Proof.
  destruct s as [|y t]; simpl; [discriminate|].
  destruct (N.eqb_spec x y) as [->|]; [|discriminate].
  intros E. now exists t.
Qed.

Lemma strip_prefix_inv l : forall s s', strip_prefix l s = Some s' -> s = l ++ s'.
Proof.
  induction l as [|x l IH]; intros s s' E; simpl in E.
  - now inversion E.
  - destruct s as [|y s]; [discriminate|].
    destruct (N.eqb_spec x y) as [->|]; [|discriminate].
    simpl. f_equal. now apply IH.
Qed.

Lemma strip_prefix_app l s : strip_prefix l (l ++ s) = Some s.
Proof. induction l as [|x l IH]; simpl; [reflexivity|]. now rewrite N.eqb_refl. Qed.

(** [needle in hay] says that [hay] is [needle] between two texts. *)
Lemma contains_iff needle hay :
  contains needle hay = true <-> exists a b, hay = a ++ needle ++ b.
Proof.
  split.
  - induction hay as [|c hay IH]; simpl; unfold startswith.
    + destruct (strip_prefix needle []) as [s'|] eqn:E; [|discriminate].
      intros _. apply strip_prefix_inv in E. now exists [], s'.
    + destruct (strip_prefix needle (c :: hay)) as [s'|] eqn:E.
      * intros _. apply strip_prefix_inv in E. now exists [], s'.
      * simpl. intros Hc. destruct (IH Hc) as (a & b & ->).
        now exists (c :: a), b.
  - intros (a & b & ->). induction a as [|c a IH].
    + assert (Hs : startswith (needle ++ b) needle = true)
        by (unfold startswith; now rewrite strip_prefix_app).
      simpl. destruct (needle ++ b); simpl; now rewrite Hs.
    + simpl. simpl in IH. rewrite IH. apply orb_true_r.
Qed.

(** The first field is the start of the text, and every field is a piece
    of it. *)
Lemma fields_pieces sep s :
  exists t0 ts,
    fields sep s = t0 :: ts
    /\ (exists b, s = t0 ++ b)
    /\ forall t, In t ts -> exists a b, s = a ++ t ++ b.
Proof.
  induction s as [|c s (t0 & ts & E & (b0 & H0) & Hts)]; simpl.
  - exists [], []. split; [reflexivity|]. split; [now exists []|].
    intros t [].
  - destruct (c =? sep).
    + exists [], (fields sep s). split; [reflexivity|].
      split; [now exists (c :: s)|].
      intros t Hin. rewrite E in Hin. destruct Hin as [<-|Hin].
      * exists [c], b0. simpl. now rewrite H0 at 1.
      * destruct (Hts t Hin) as (a & b & Hs).
        exists (c :: a), b. simpl. now rewrite Hs at 1.
    + rewrite E. exists (c :: t0), ts. split; [reflexivity|].
      split; [exists b0; simpl; now rewrite H0 at 1|].
      intros t Hin. destruct (Hts t Hin) as (a & b & Hs).
      exists (c :: a), b. simpl. now rewrite Hs at 1.
Qed.

Lemma field_is_piece sep s t :
  In t (fields sep s) -> exists a b, s = a ++ t ++ b.
Proof.
  destruct (fields_pieces sep s) as (t0 & ts & E & (b0 & H0) & Hts).
  rewrite E. intros [<-|Hin]; [now exists [], b0 | now apply Hts].
Qed.

(** What occurs in a field occurs in the text. *)
Lemma contains_field sep needle s t :
  In t (fields sep s) -> contains needle t = true -> contains needle s = true.
Proof.
  intros Hin Hc. apply contains_iff in Hc. destruct Hc as (a' & b' & ->).
  destruct (field_is_piece sep s _ Hin) as (a & b & ->).
  apply contains_iff. exists (a ++ a'), (b' ++ b).
  now rewrite <- !app_assoc.
Qed.

Lemma fields_app_no_sep sep (n : str) :
  forallb (fun c => negb (c =? sep)) n = true ->
  forall s : str, exists t0 ts,
      fields sep s = t0 :: ts /\ fields sep (n ++ s) = (n ++ t0) :: ts.
Proof.
  intros Hn s. destruct (fields_pieces sep s) as (t0 & ts & E & _).
  exists t0, ts. split; [exact E|].
  induction n as [|c n IH]; simpl; [exact E|].
  simpl in Hn. apply andb_true_iff in Hn. destruct Hn as [Hc Hn].
  destruct (c =? sep); [discriminate|]. now rewrite (IH Hn).
Qed.

(** What occurs in the text and has no separator in it occurs in a
    field. *)
Lemma field_contains sep (needle : str) :
  forallb (fun c => negb (c =? sep)) needle = true ->
  forall s, contains needle s = true ->
            exists t, In t (fields sep s) /\ contains needle t = true.
Proof.
  intros Hn s Hc. apply contains_iff in Hc. destruct Hc as (a & b & ->).
  induction a as [|c a (t & Hin & Ht)].
  - destruct (fields_app_no_sep sep needle Hn b) as (t0 & ts & _ & E).
    cbn [app]. rewrite E. exists (needle ++ t0). split; [now left|].
    apply contains_iff. now exists [], t0.
  - cbn [app fields].
    destruct (fields_pieces sep (a ++ needle ++ b)) as (t0 & ts & E & _).
    rewrite E in Hin |- *.
    destruct (c =? sep).
    + exists t. split; [now right | exact Ht].
    + destruct Hin as [<-|Hin].
      * exists (c :: t0). split; [now left|].
        simpl. rewrite Ht. apply orb_true_r.
      * exists t. split; [now right | exact Ht].
Qed.

Section CheckerFacts.
Import AuthChecker.

(** What [check_spf] does once a candidate record exists. *)
Lemma check_spf_found resolve c answers cand others :
  resolve (domain c) TXT = inr answers ->
  spf_candidates answers = cand :: others ->
  let chosen := strip_chars dquote cand in
  Records.spf (records (check_spf resolve c)) = Some chosen
  /\ gained c (check_spf resolve c) =
     (if (1 <? length (cand :: others))%nat then [issue_spf_multiple] else [])
       ++ (if contains (u "include:spf.protection.outlook.com") chosen
           then [] else [issue_spf_include])
       ++ (if contains (u "~all") chosen || contains (u "-all") chosen
           then [] else [issue_spf_all]).
Proof.
  intros Hres Hcand chosen. unfold gained, check_spf.
  rewrite Hres, Hcand. cbn [map length]. fold chosen. rewrite length_map.
  change (S (length others)) with (length (cand :: others)). cbv zeta.
  destruct (1 <? length (cand :: others))%nat;
    destruct (contains (u "include:spf.protection.outlook.com") chosen);
    destruct (contains (u "~all") chosen);
    destruct (contains (u "-all") chosen);
    (split; [reflexivity|]);
    cbn [negb andb orb app issues append_issue set_record_spf set_records
         _recommend_spf_record set_recommendations with_results results
         Results.issues];
    rewrite <- ?app_assoc;
    try apply skipn_length_app;
    apply (skipn_all (issues c)).
Qed.

(** A candidate starts with the quoted version tag, so the chosen record
    is not empty. *)
Lemma chosen_record_nonempty answers cand others :
  spf_candidates answers = cand :: others ->
  strip_chars dquote cand <> [].
Proof.
  intros Hcand.
  assert (Hin : In cand (spf_candidates answers)) by (rewrite Hcand; now left).
  apply filter_In in Hin. destruct Hin as [_ Hs].
  unfold startswith in Hs.
  destruct (strip_prefix (dquote ++ u "v=spf1") cand) as [rest|] eqn:Hp;
    [clear Hs | discriminate].
  change (dquote ++ u "v=spf1") with (34 :: 118 :: u "=spf1") in Hp.
  apply strip_prefix_cons in Hp. destruct Hp as (t & -> & Hp).
  apply strip_prefix_cons in Hp. destruct Hp as (t' & -> & _).
  unfold strip_chars.
  change (strip_by (fun c => existsb (N.eqb c) dquote) (34 :: 118 :: t'))
    with (strip_by (fun c => existsb (N.eqb c) dquote) (118 :: t')).
  now apply strip_by_cons.
Qed.

Lemma spf_issues_distinct :
  issue_spf_multiple <> issue_spf_include
  /\ issue_spf_multiple <> issue_spf_all
  /\ issue_spf_include <> issue_spf_all.
Proof. repeat split; vm_compute; discriminate. Qed.

(** C5.  Several SPF records: when two or more of the TXT answers start
    with the (quoted) tag [v=spf1], the issues that [check_spf] adds
    contain the multiple-records issue exactly once, the recorded SPF
    record is the first candidate, which is not empty, and the include and
    "all" checks are made on that first candidate. *)
Theorem multiple_spf_records resolve c answers :
  resolve (domain c) TXT = inr answers ->
  (2 <= length (spf_candidates answers))%nat ->
  let c' := check_spf resolve c in
  let chosen := strip_chars dquote (hd [] (spf_candidates answers)) in
  length (filter (str_eqb issue_spf_multiple) (gained c c')) = 1%nat
  /\ Records.spf (records c') = Some chosen
  /\ chosen <> []
  /\ gained c c' =
     [issue_spf_multiple]
       ++ (if contains (u "include:spf.protection.outlook.com") chosen
           then [] else [issue_spf_include])
       ++ (if contains (u "~all") chosen || contains (u "-all") chosen
           then [] else [issue_spf_all]).
Proof.
  intros Hres Hlen c' chosen.
  destruct (spf_candidates answers) as [|cand [|cand2 others]] eqn:Hcand;
    try (simpl in Hlen; lia).
  destruct (check_spf_found resolve c answers cand (cand2 :: others) Hres Hcand)
    as (Hrec & Hgain).
  cbn [hd] in chosen. fold chosen in Hrec, Hgain. fold c' in Hrec, Hgain.
  change (1 <? length (cand :: cand2 :: others))%nat with true in Hgain.
  repeat split; try assumption.
  - rewrite Hgain.
    destruct (contains (u "include:spf.protection.outlook.com") chosen);
      destruct (contains (u "~all") chosen || contains (u "-all") chosen);
      vm_compute; reflexivity.
  - unfold chosen. now apply (chosen_record_nonempty answers cand (cand2 :: others)).
Qed.

Lemma multiple_spf_records_witness :
  let dns : resolver :=
    fun _ _ => inr [dquote ++ u "v=spf1 include:_spf.example.net ?all" ++ dquote;
                    dquote ++ u "google-site-verification=abc" ++ dquote;
                    dquote ++ u "v=spf1 -all" ++ dquote] in
  let c := init (u "example.com") false (u "t") in
  Records.spf (records (check_spf dns c))
  = Some (u "v=spf1 include:_spf.example.net ?all")
  /\ gained c (check_spf dns c)
     = [issue_spf_multiple; issue_spf_include; issue_spf_all].
Proof.
  intros dns c.
  destruct (multiple_spf_records dns c
              [dquote ++ u "v=spf1 include:_spf.example.net ?all" ++ dquote;
               dquote ++ u "google-site-verification=abc" ++ dquote;
               dquote ++ u "v=spf1 -all" ++ dquote])
    as (_ & Hrec & _ & Hgain).
  - reflexivity.
  - vm_compute. lia.
  - split; [exact Hrec | exact Hgain].
Defined.

Lemma qualifying_all_present chosen :
  existsb qualifying_all (terms chosen) = true ->
  contains (u "~all") chosen || contains (u "-all") chosen = true.
Proof.
  intros Hq. apply existsb_exists in Hq. destruct Hq as (t & Hin & Hq).
  unfold qualifying_all in Hq. apply orb_true_iff in Hq.
  apply orb_true_iff.
  destruct Hq as [Hq|Hq]; apply str_eqb_eq in Hq; subst t; [left|right];
    (eapply contains_field; [exact Hin|]);
    apply contains_iff; exists [], []; now rewrite app_nil_r.
Qed.

Lemma mentions_all_absent chosen :
  existsb mentions_all (terms chosen) = false ->
  contains (u "~all") chosen || contains (u "-all") chosen = false.
Proof.
  intros Hm. apply orb_false_iff.
  split; apply not_true_is_false; intros Hc;
    (apply (field_contains 32) in Hc; [|vm_compute; reflexivity]);
    destruct Hc as (t & Hin & Ht);
    (assert (Hex : existsb mentions_all (terms chosen) = true)
      by (apply existsb_exists; exists t; split; [exact Hin|];
          unfold mentions_all; rewrite Ht; auto using orb_true_r));
    congruence.
Qed.

(** C4, as the code has it.  For every chosen SPF record, [check_spf]
    adds the include issue exactly when the record does not contain
    [include:spf.protection.outlook.com].  It adds no "all" issue when one
    of the record's terms is [~all] or [-all], whether that term is the
    last one or not, and it adds the "all" issue when no term mentions
    [~all] or [-all].  The two issues are distinct and each is decided
    without regard to the other. *)
Theorem spf_shape_checks resolve c answers cand others :
  resolve (domain c) TXT = inr answers ->
  spf_candidates answers = cand :: others ->
  let chosen := strip_chars dquote cand in
  let new := gained c (check_spf resolve c) in
  (In issue_spf_include new
   <-> contains (u "include:spf.protection.outlook.com") chosen = false)
  /\ (existsb qualifying_all (terms chosen) = true -> ~ In issue_spf_all new)
  /\ (existsb mentions_all (terms chosen) = false -> In issue_spf_all new)
  /\ issue_spf_include <> issue_spf_all.
Proof.
  intros Hres Hcand chosen new.
  destruct (check_spf_found resolve c answers cand others Hres Hcand)
    as (_ & Hgain).
  fold chosen in Hgain. fold new in Hgain. rewrite Hgain.
  split; [|split; [|split; [|apply spf_issues_distinct]]].
  - rewrite In_existsb.
    destruct (1 <? length (cand :: others))%nat;
      destruct (contains (u "include:spf.protection.outlook.com") chosen);
      destruct (contains (u "~all") chosen || contains (u "-all") chosen);
      vm_compute; intuition congruence.
  - intros Hq. rewrite (qualifying_all_present chosen Hq).
    rewrite In_existsb.
    destruct (1 <? length (cand :: others))%nat;
      destruct (contains (u "include:spf.protection.outlook.com") chosen);
      vm_compute; congruence.
  - intros Hm. rewrite (mentions_all_absent chosen Hm).
    rewrite In_existsb.
    destruct (1 <? length (cand :: others))%nat;
      destruct (contains (u "include:spf.protection.outlook.com") chosen);
      vm_compute; reflexivity.
Qed.

Lemma spf_shape_checks_witness :
  In issue_spf_include
     (gained (init (u "example.com") false (u "t"))
             (check_spf (one_txt (dquote ++ u "v=spf1 mx ~all" ++ dquote))
                        (init (u "example.com") false (u "t"))))
  /\ ~ In issue_spf_all
       (gained (init (u "example.com") false (u "t"))
               (check_spf (one_txt (dquote ++ u "v=spf1 mx ~all" ++ dquote))
                          (init (u "example.com") false (u "t"))))
  /\ In issue_spf_all
        (gained (init (u "example.com") false (u "t"))
                (check_spf (one_txt (dquote ++ u "v=spf1 mx ?all" ++ dquote))
                           (init (u "example.com") false (u "t")))).
Proof.
  split; [|split].
  - apply (proj1 (spf_shape_checks
                    (one_txt (dquote ++ u "v=spf1 mx ~all" ++ dquote))
                    (init (u "example.com") false (u "t"))
                    [dquote ++ u "v=spf1 mx ~all" ++ dquote]
                    (dquote ++ u "v=spf1 mx ~all" ++ dquote) []
                    eq_refl eq_refl)).
    vm_compute. reflexivity.
  - apply (proj1 (proj2 (spf_shape_checks
                    (one_txt (dquote ++ u "v=spf1 mx ~all" ++ dquote))
                    (init (u "example.com") false (u "t"))
                    [dquote ++ u "v=spf1 mx ~all" ++ dquote]
                    (dquote ++ u "v=spf1 mx ~all" ++ dquote) []
                    eq_refl eq_refl))).
    vm_compute. reflexivity.
  - apply (proj1 (proj2 (proj2 (spf_shape_checks
                    (one_txt (dquote ++ u "v=spf1 mx ?all" ++ dquote))
                    (init (u "example.com") false (u "t"))
                    [dquote ++ u "v=spf1 mx ?all" ++ dquote]
                    (dquote ++ u "v=spf1 mx ?all" ++ dquote) []
                    eq_refl eq_refl)))).
    vm_compute. reflexivity.
Defined.

(** C4, as stated, fails: a record with [-all] in the middle does not end
    in [~all] or [-all], and no "all" issue is raised for it. *)
Lemma spf_all_in_the_middle_unreported :
  Records.spf
    (records
       (check_spf
          (one_txt (dquote ++ u "v=spf1 include:spf.protection.outlook.com -all ip4:192.0.2.1" ++ dquote))
          (init (u "example.com") false (u "t"))))
  = Some (u "v=spf1 include:spf.protection.outlook.com -all ip4:192.0.2.1")
  /\ endswith (u "v=spf1 include:spf.protection.outlook.com -all ip4:192.0.2.1")
              (u "~all") = false
  /\ endswith (u "v=spf1 include:spf.protection.outlook.com -all ip4:192.0.2.1")
              (u "-all") = false
  /\ ~ In issue_spf_all
          (issues
             (check_spf
                (one_txt (dquote ++ u "v=spf1 include:spf.protection.outlook.com -all ip4:192.0.2.1" ++ dquote))
                (init (u "example.com") false (u "t")))).
Proof. repeat split; vm_compute; intuition discriminate. Qed.

(** The test reads the text of the record, not its terms: [-all] inside
    another term counts for it, so a record whose only "all" mechanism is
    [+all] gets no "all" issue. *)
Lemma all_text_inside_another_term :
  existsb qualifying_all
          (terms (u "v=spf1 include:spf.protection.outlook.com a:mail-all.example.net +all"))
  = false
  /\ ~ In issue_spf_all
          (issues
             (check_spf
                (one_txt (dquote ++ u "v=spf1 include:spf.protection.outlook.com a:mail-all.example.net +all" ++ dquote))
                (init (u "example.com") false (u "t")))).
Proof. split; vm_compute; intuition discriminate. Qed.
End CheckerFacts.

Section CheckerDkim.
Import AuthChecker.

(** A selector with neither a CNAME nor a TXT answer costs one issue. *)
Lemma check_selector_absent resolve c found selector e1 e2 :
  resolve (selector ++ u "._domainkey." ++ domain c) CNAME = inl e1 ->
  resolve (selector ++ u "._domainkey." ++ domain c) TXT = inl e2 ->
  check_selector resolve (c, found) selector
  = Ok (append_issue (issue_dkim_selector selector) c, found).
Proof. intros H1 H2. unfold check_selector. now rewrite H1, H2. Qed.

(** C3, as the code has it.  When neither selector has a CNAME or a TXT
    answer, [check_dkim] returns and adds exactly four issues: one
    not-found issue per selector, one issue saying that no DKIM record was
    found at all (the issue about two required records is for the case of
    exactly one found selector), and the issue about the placeholder
    tenant; the DKIM recommendation is made with the placeholder tenant
    domain. *)
Theorem dkim_selectors_absent resolve c :
  (forall selector t,
      In selector [u "selector1"; u "selector2"] ->
      exists e, resolve (selector ++ u "._domainkey." ++ domain c) t = inl e) ->
  exists c',
    check_dkim resolve c = Ok c'
    /\ gained c c' =
       [issue_dkim_selector (u "selector1");
        issue_dkim_selector (u "selector2");
        issue_dkim_none;
        placeholder_issue]
    /\ Records.dkim (records c') = Some []
    /\ Recommendations.dkim (recommendations c')
       = Some (placeholder_recommendations (domain c)).
Proof.
  intros Hfail.
  destruct (Hfail (u "selector1") CNAME) as [e1 H1]; [now left|].
  destruct (Hfail (u "selector1") TXT) as [e2 H2]; [now left|].
  destruct (Hfail (u "selector2") CNAME) as [e3 H3]; [right; now left|].
  destruct (Hfail (u "selector2") TXT) as [e4 H4]; [right; now left|].
  unfold check_dkim. cbv zeta. cbn [check_selectors].
  rewrite (check_selector_absent resolve c [] _ e1 e2 H1 H2).
  rewrite (check_selector_absent
             resolve (append_issue (issue_dkim_selector (u "selector1")) c)
             [] _ e3 e4 H3 H4).
  eexists. split; [reflexivity|]. split; [|split; reflexivity].
  unfold gained.
  cbn [issues append_issue set_record_dkim set_records _recommend_dkim_records
       _extract_tenant_domain records Records.dkim set_recommendations
       with_results results Results.issues Results.records].
  rewrite <- !app_assoc. apply skipn_length_app.
Qed.

Lemma dkim_selectors_absent_witness :
  exists c',
    check_dkim no_dns (init (u "example.com") false (u "t")) = Ok c'
    /\ Recommendations.dkim (recommendations c')
       = Some (placeholder_recommendations (u "example.com")).
Proof.
  destruct (dkim_selectors_absent no_dns (init (u "example.com") false (u "t")))
    as (c' & Hrun & _ & _ & Hrec).
  - intros selector t _. exists (u "NXDOMAIN"). reflexivity.
  - exists c'. split; [exact Hrun | exact Hrec].
Defined.

(** C3, as stated, fails: with no answer for either selector of
    [example.com] the issue list holds no issue about two required
    records; its third issue says that no DKIM record was found. *)
Lemma no_selector_found_is_not_requires_two :
  match check_dkim no_dns (init (u "example.com") false (u "t")) with
  | Ok c' =>
    ~ In issue_dkim_two (issues c')
    /\ issues c' = [issue_dkim_selector (u "selector1");
                    issue_dkim_selector (u "selector2");
                    issue_dkim_none;
                    placeholder_issue]
  | Raised _ => False
  end.
Proof. vm_compute. intuition discriminate. Qed.
End CheckerDkim.

Section CheckerGeneration.
Import AuthChecker.

(** Both checkers taken apart, the agreement becomes equations between
    their components. *)
Ltac same_crush :=
  intros;
  repeat match goal with
         | c : checker |- _ => destruct c as [? ? [? ? ? ? ? ?]]
         end;
  unfold same_assessment, records, issues, recommendations, commands in *;
  simpl in *;
  intuition (subst; auto).

Lemma add_bind9_same : adds_command add_bind9.
Proof.
  intros cmd c1 c2. same_crush.
Qed.

Lemma add_powershell_same : adds_command add_powershell.
Proof.
  intros cmd c1 c2. same_crush.
Qed.

Lemma add_azure_cli_same : adds_command add_azure_cli.
Proof.
  intros cmd c1 c2. same_crush.
Qed.

Lemma when_text_same x add cmd c1 c2 :
  adds_command add ->
  same_assessment c1 c2 ->
  same_assessment (when_text x add cmd c1) (when_text x add cmd c2).
Proof.
  intros Hadd Hs. unfold when_text.
  destruct x as [[|ch t]|]; auto.
Qed.

Lemma when_dkim_same x add cmd c1 c2 :
  adds_command add ->
  same_assessment c1 c2 ->
  same_assessment (when_dkim x add cmd c1) (when_dkim x add cmd c2).
Proof.
  intros Hadd Hs. unfold when_dkim. destruct x as [l|]; [|assumption].
  revert c1 c2 Hs. induction l as [|dkim_rec l IH]; intros c1 c2 Hs; simpl; auto.
Qed.

Lemma append_issue_same m c1 c2 :
  same_assessment c1 c2 ->
  same_assessment (append_issue m c1) (append_issue m c2).
Proof.
  same_crush.
Qed.

(** C6.  Recommendation and command generation reads the assessment only:
    on two checkers that hold the same assessment (same domain, records,
    issues, recommendations and commands, whatever their clock reading and
    verbosity flag), each recommendation step and the command generation
    leave the same assessment again, so the recommendation and command
    lists produced are identical. *)
Theorem generation_deterministic c1 c2 :
  same_assessment c1 c2 ->
  same_assessment (_recommend_spf_record c1) (_recommend_spf_record c2)
  /\ same_assessment (_recommend_dkim_records c1) (_recommend_dkim_records c2)
  /\ same_assessment (_recommend_dmarc_record c1) (_recommend_dmarc_record c2)
  /\ same_assessment (_generate_commands c1) (_generate_commands c2).
Proof.
  intros Hs. split; [|split; [|split]].
  - revert Hs. same_crush.
  - unfold _recommend_dkim_records.
    assert (Ht : _extract_tenant_domain c1 = _extract_tenant_domain c2).
    { unfold _extract_tenant_domain. destruct Hs as (_ & _ & -> & _). reflexivity. }
    rewrite Ht.
    destruct (_extract_tenant_domain c2) as [[|ch t]|];
      cbv beta iota zeta; revert Hs; clear Ht; same_crush.
  - revert Hs. same_crush.
  - unfold _generate_commands. cbv zeta.
    destruct Hs as (Hd & Hrest). pose proof Hrest as (_ & _ & _ & Hrcm & _).
    rewrite Hd, Hrcm.
    repeat (apply when_text_same || apply when_dkim_same);
      auto using add_bind9_same, add_powershell_same, add_azure_cli_same.
    split; assumption.
Qed.

Lemma generation_deterministic_witness :
  let c1 := _recommend_dmarc_record
              (_recommend_spf_record
                 (init (u "example.com") false (u "2024-01-01T00:00:00"))) in
  let c2 := _recommend_dmarc_record
              (_recommend_spf_record
                 (init (u "example.com") true (u "2025-06-30T12:00:00"))) in
  commands (_generate_commands c1) = commands (_generate_commands c2)
  /\ recommendations (_recommend_dkim_records c1)
     = recommendations (_recommend_dkim_records c2).
Proof.
  intros c1 c2.
  destruct (generation_deterministic c1 c2) as (_ & Hdkim & _ & Hgen).
  - repeat split.
  - split.
    + apply Hgen.
    + apply Hdkim.
Defined.
End CheckerGeneration.

(** * Further properties of the header analyser *)

Lemma split1_at_sep (sep : char) (value : str) :
  forall name, ~ In sep name -> split1 sep (name ++ sep :: value) = [name; value].
Proof.
  induction name as [|c name IH]; intros Hn; simpl.
  - now rewrite N.eqb_refl.
  - destruct (N.eqb_spec c sep) as [E|E].
    + exfalso. apply Hn. now left.
    + rewrite IH; [reflexivity|]. intros Hin. apply Hn. now right.
Qed.

Lemma matches_star_consumed (p : char -> bool) i s cs j s' cs' :
  matches (Star p) i s cs j s' cs' ->
  exists w, s = w ++ s' /\ forallb p w = true /\ j = (i + length w)%nat /\ cs' = cs.
Proof.
  intros Hm. remember (Star p) as r eqn:Er.
  induction Hm; inversion Er; subst.
  - exists []. simpl. now rewrite Nat.add_0_r.
  - destruct (IHHm eq_refl) as (w & -> & Hw & -> & _).
    exists (c :: w). simpl.
    match goal with Hc : _ c = true |- _ => rewrite Hc end.
    repeat split; auto; lia.
Qed.

(** What a greedy [p+] consumed is a non-empty run of the class. *)
Lemma matches_plus_consumed (p : char -> bool) i s cs j s' cs' :
  matches (Plus p) i s cs j s' cs' ->
  exists w, w <> [] /\ s = w ++ s' /\ forallb p w = true
            /\ j = (i + length w)%nat /\ cs' = cs.
Proof.
  unfold Plus. intros Hm. inversion Hm; subst.
  match goal with
  | H1 : matches (Cls _) _ _ _ _ _ _, H2 : matches (Star _) _ _ _ _ _ _ |- _ =>
    inversion H1; subst; apply matches_star_consumed in H2;
      destruct H2 as (w & -> & Hw & -> & ->)
  end.
  match goal with c : char |- _ => exists (c :: w) end. simpl.
  match goal with Hc : _ _ = true |- _ => rewrite Hc end.
  repeat split; auto; try discriminate; lia.
Qed.

Lemma matches_lit l i s cs j s' cs' :
  matches (Lit l) i s cs j s' cs' ->
  s = l ++ s' /\ j = (i + length l)%nat /\ cs' = cs.
Proof.
  intros Hm. inversion Hm; subst. repeat split. now apply strip_prefix_inv.
Qed.

Lemma matches_opt_lit l i s cs j s' cs' :
  matches (Opt (Lit l)) i s cs j s' cs' ->
  exists o, s = o ++ s' /\ cs' = cs.
Proof.
  intros Hm. inversion Hm; subst.
  - now exists [].
  - match goal with H : matches (Lit _) _ _ _ _ _ _ |- _ =>
                    apply matches_lit in H; destruct H as (-> & _ & ->) end.
    now exists l.
Qed.

Lemma matches_seq_inv r1 r2 i s cs j s' cs' :
  matches (Seq r1 r2) i s cs j s' cs' ->
  exists j1 s1 cs1,
    matches r1 i s cs j1 s1 cs1 /\ matches r2 j1 s1 cs1 j s' cs'.
Proof. intros Hm. inversion Hm; subst. eauto. Qed.

Lemma matches_grp_inv n r i s cs j s' cs' :
  matches (Grp n r) i s cs j s' cs' ->
  exists cs1,
    matches r i s cs j s' cs1 /\ cs' = (n, firstn (j - i) s) :: cs1.
Proof. intros Hm. inversion Hm; subst. eauto. Qed.

Section HeaderExtras.
Import HeaderAnalyzer HeaderNotions.
Context `{UnicodeTables}.

Lemma extract_fields_as_scan r lines :
  _extract_header_fields r lines = flush (fold_left scan_line lines (start r)).
Proof. reflexivity. Qed.

(** A non-indented line [name:value] closes the open field and opens
    [name], lower-cased, with the stripped value. *)
Lemma scan_line_field st (name value : str) :
  indented (name ++ 58 :: value) = false ->
  ~ In 58 name ->
  scan_line st (name ++ 58 :: value) =
  {| current_field := Some (lower name); current_value := strip value;
     scanned := flush st |}.
Proof.
  intros Hind Hcolon. unfold scan_line.
  assert (Hsp : forall line, line = name ++ 58 :: value ->
                             split1 58 line = [name; value])
    by (intros ? ->; now apply split1_at_sep).
  remember (name ++ 58 :: value) as line eqn:El in *.
  specialize (Hsp line eq_refl). clear El.
  destruct line as [|c0 t]; [discriminate|].
  simpl in Hind.
  destruct (strip (c0 :: t)) eqn:Hs;
    [now apply (strip_by_cons isspace c0 t) in Hind |].
  now rewrite Hind, Hsp.
Qed.

Lemma scan_line_blank st line : blank line = true -> scan_line st line = st.
Proof.
  unfold blank, scan_line. destruct (strip line); [reflexivity | discriminate].
Qed.

(** With a field open, an indented line adds its stripped text after one
    space, and a blank line adds nothing. *)
Lemma scan_line_folds st f line :
  current_field st = Some f -> f <> [] ->
  indented line = true ->
  scan_line st line =
  {| current_field := Some f;
     current_value := current_value st ++ folded [line];
     scanned := scanned st |}.
Proof.
  intros Hcf Hf Hind. unfold folded. simpl. rewrite app_nil_r.
  destruct (blank line) eqn:Hb.
  - rewrite (scan_line_blank st line Hb), app_nil_r. destruct st. simpl in *.
    now subst.
  - unfold blank in Hb. unfold scan_line.
    destruct (strip line) as [|x y] eqn:Hs; [discriminate|].
    destruct line as [|c0 t]; [discriminate|].
    simpl in Hind. rewrite Hind, Hcf.
    destruct f as [|c f]; [congruence|]. reflexivity.
Qed.

Lemma folded_cons line conts : folded (line :: conts) = folded [line] ++ folded conts.
Proof. unfold folded. simpl. now rewrite app_nil_r. Qed.

Lemma scan_folds conts :
  Forall (fun l => indented l = true) conts ->
  forall st f,
    current_field st = Some f -> f <> [] ->
    fold_left scan_line conts st =
    {| current_field := Some f;
       current_value := current_value st ++ folded conts;
       scanned := scanned st |}.
Proof.
  induction 1 as [|l conts Hl _ IH]; intros st f Hcf Hf; simpl.
  - unfold folded. simpl. rewrite app_nil_r. destruct st. simpl in *. now subst.
  - rewrite (scan_line_folds st f l Hcf Hf Hl).
    rewrite IH with (f := f); [|reflexivity|assumption]. simpl.
    now rewrite (folded_cons l conts), app_assoc.
Qed.

(** Header folding: a field line followed by continuation lines stores,
    under the lower-cased name, the stripped value followed by each
    non-blank continuation line, stripped, after a single space, however
    many continuation lines there are. *)
Theorem continuation_lines_folded r pre (name value : str) conts :
  indented (name ++ 58 :: value) = false ->
  ~ In 58 name ->
  lower name <> [] ->
  Forall (fun l => indented l = true) conts ->
  _extract_header_fields r (pre ++ (name ++ 58 :: value) :: conts)
  = _save_header_field (_extract_header_fields r pre) (lower name)
                       (strip value ++ folded conts).
Proof.
  intros Hind Hcolon Hname Hconts.
  rewrite !extract_fields_as_scan, fold_left_app. simpl fold_left.
  rewrite (scan_line_field _ name value Hind Hcolon).
  rewrite (scan_folds conts Hconts) with (f := lower name);
    [|reflexivity|assumption].
  unfold flush at 1. simpl.
  destruct (lower name) as [|c f]; [congruence | reflexivity].
Qed.

(** Blank lines are skipped wherever they stand: the extraction gives the
    same fields as on the text without them. *)
Theorem blank_lines_ignored r lines :
  _extract_header_fields r lines
  = _extract_header_fields r (filter (fun l => negb (blank l)) lines).
Proof.
  rewrite !extract_fields_as_scan. f_equal. generalize (start r).
  induction lines as [|l lines IH]; intros st; simpl; [reflexivity|].
  destruct (blank l) eqn:Hb; simpl.
  - rewrite (scan_line_blank st l Hb). apply IH.
  - apply IH.
Qed.

Lemma grows_headers_refl r : grows_headers r r.
Proof. repeat split. exists []. now rewrite app_nil_r. Qed.

Lemma grows_headers_trans r1 r2 r3 :
  grows_headers r1 r2 -> grows_headers r2 r3 -> grows_headers r1 r3.
Proof.
  intros (Ht & Ha & Hi & Hr & n1 & Hn1) (Ht' & Ha' & Hi' & Hr' & n2 & Hn2).
  repeat split; try congruence.
  exists (n1 ++ n2). now rewrite Hn2, Hn1, app_assoc.
Qed.

Lemma save_grows_headers r f v : grows_headers r (_save_header_field r f v).
Proof.
  unfold _save_header_field. cbv zeta.
  repeat match goal with
         | |- context [if ?b then _ else _] => destruct b
         end;
    try apply grows_headers_refl;
    repeat split; simpl;
    (exists [] ; now rewrite app_nil_r) || eauto.
Qed.

Lemma flush_grows_headers st : grows_headers (scanned st) (flush st).
Proof.
  unfold flush. destruct (current_field st) as [[|? ?]|];
    try apply grows_headers_refl. apply save_grows_headers.
Qed.

Lemma scan_line_grows_headers st line :
  grows_headers (scanned st) (scanned (scan_line st line)).
Proof.
  unfold scan_line.
  destruct (strip line); [apply grows_headers_refl|].
  destruct line as [|c0 t]; [apply grows_headers_refl|].
  destruct (isspace c0).
  - destruct (truthy (current_field st)); apply grows_headers_refl.
  - destruct (split1 58 (c0 :: t)) as [|? [|? [|? ?]]]; simpl;
      apply flush_grows_headers.
Qed.

Lemma scan_lines_grows_headers lines :
  forall st, grows_headers (scanned st) (scanned (fold_left scan_line lines st)).
Proof.
  induction lines as [|l lines IH]; intros st; simpl;
    [apply grows_headers_refl|].
  eapply grows_headers_trans; [apply scan_line_grows_headers | apply IH].
Qed.

Lemma extract_fields_keeps_issues r lines :
  issues (_extract_header_fields r lines) = issues r.
Proof.
  rewrite extract_fields_as_scan.
  destruct (flush_grows_headers (fold_left scan_line lines (start r)))
    as (_ & _ & Hf & _).
  destruct (scan_lines_grows_headers lines (start r)) as (_ & _ & Hs & _).
  rewrite Hf. exact Hs.
Qed.

(** Header extraction writes the headers only: time stamp, verdicts, issues
    and recommendations stay as they were, and the occurrences retained
    before stay, in their order, at the front of the retained sequence. *)
Theorem extraction_touches_headers_only r lines :
  grows_headers r (_extract_header_fields r lines).
Proof.
  rewrite extract_fields_as_scan.
  apply grows_headers_trans with (scanned (fold_left scan_line lines (start r)));
    [apply (scan_lines_grows_headers lines (start r))
    |apply flush_grows_headers].
Qed.

(** The domain the address pattern extracts is a non-empty run of word,
    dot and dash characters that follows an [@] in the header value. *)
Theorem extracted_domain_shape h d :
  _extract_domain_from_email h = Some d ->
  d <> []
  /\ forallb is_word_dot_dash d = true
  /\ exists text before after,
      h = Some text /\ text = before ++ 64 :: d ++ after.
Proof.
  unfold _extract_domain_from_email.
  destruct h as [[|c0 t0]|]; try discriminate.
  destruct (re_search re_email (c0 :: t0)) as [m|] eqn:Hm; [|discriminate].
  intros E. inversion E; subst d. clear E.
  apply search_from_sound in Hm. destruct Hm as (n & j & s' & Hm).
  unfold re_email in Hm.
  apply matches_seq_inv in Hm. destruct Hm as (j1 & s1 & cs1 & Hopen & Hm).
  apply matches_seq_inv in Hm. destruct Hm as (j2 & s2 & cs2 & Haddr & Hclose).
  apply matches_opt_lit in Hopen. destruct Hopen as (o1 & Ho1 & ->).
  apply matches_opt_lit in Hclose. destruct Hclose as (o2 & Ho2 & ->).
  apply matches_grp_inv in Haddr. destruct Haddr as (cs3 & Hin & ->).
  apply matches_seq_inv in Hin. destruct Hin as (j3 & s3 & cs4 & Hlocal & Hin).
  apply matches_seq_inv in Hin. destruct Hin as (j4 & s4 & cs5 & Hat & Hdom).
  apply matches_grp_inv in Hdom. destruct Hdom as (cs6 & Hd & ->).
  apply matches_plus_consumed in Hlocal.
  destruct Hlocal as (w1 & _ & Hw1 & _ & _ & ->).
  apply matches_lit in Hat. destruct Hat as (Hat & -> & ->).
  apply matches_plus_consumed in Hd.
  destruct Hd as (w2 & Hne & Hw2 & Hall & -> & ->).
  cbn [group Nat.eqb].
  match goal with
  | |- context [firstn ?k ?x] =>
    replace (firstn k x) with w2
      by (rewrite Hw2; replace k with (length w2) by lia;
          now rewrite firstn_app, Nat.sub_diag, firstn_all, app_nil_r)
  end.
  split; [assumption|]. split; [assumption|].
  exists (c0 :: t0), (firstn n (c0 :: t0) ++ o1 ++ w1), s2.
  split; [reflexivity|].
  rewrite <- (firstn_skipn n (c0 :: t0)) at 1.
  rewrite Ho1, Hw1, Hat, Hw2. simpl. now rewrite <- !app_assoc.
Qed.

Lemma verdict_issues_nil name v : verdict_issues name v = [] <-> passes v.
Proof.
  unfold verdict_issues, passes. destruct v as [d|].
  - destruct (str_eqb (result d) (u "pass")) eqn:E.
    + apply str_eqb_eq in E. split; [eauto | reflexivity].
    + apply str_eqb_neq in E. split; [discriminate|].
      intros (d' & Hd & Hp). inversion Hd; subst. contradiction.
  - split; [discriminate|]. intros (d & Hd & _). discriminate.
Qed.

(** [_identify_issues] reports nothing exactly when the SPF, DKIM and DMARC
    verdicts are all present with result [pass] and the From and
    Return-Path domains, when both are extracted, are equal. *)
Theorem no_issue_iff_all_pass r :
  issues (_identify_issues r) = issues r
  <-> passes (spf (authentication r))
      /\ passes (dkim (authentication r))
      /\ passes (dmarc (authentication r))
      /\ (forall d1 d2,
             _extract_domain_from_email (from (headers r)) = Some d1 ->
             _extract_domain_from_email (return_path (headers r)) = Some d2 ->
             d1 = d2).
Proof.
  rewrite identify_issues_spec.
  rewrite <- (verdict_issues_nil (u "SPF")), <- (verdict_issues_nil (u "DKIM")),
    <- (verdict_issues_nil (u "DMARC")).
  set (A := verdict_issues (u "SPF") _).
  set (B := verdict_issues (u "DKIM") _).
  set (C := verdict_issues (u "DMARC") _).
  assert (Hal :
            alignment_issues (_extract_domain_from_email (from (headers r)))
                             (_extract_domain_from_email (return_path (headers r))) = []
            <-> (forall d1 d2,
                    _extract_domain_from_email (from (headers r)) = Some d1 ->
                    _extract_domain_from_email (return_path (headers r)) = Some d2 ->
                    d1 = d2)).
  { destruct (_extract_domain_from_email (from (headers r))) as [d1|] eqn:E1;
      [|simpl; split; [discriminate | reflexivity]].
    destruct (_extract_domain_from_email (return_path (headers r))) as [d2|] eqn:E2;
      [|destruct d1; simpl; split; (discriminate || reflexivity)].
    destruct (extracted_domain_nonempty _ _ E1) as (c1 & t1 & ->).
    destruct (extracted_domain_nonempty _ _ E2) as (c2 & t2 & ->).
    cbn [alignment_issues]. destruct (str_eqb (c1 :: t1) (c2 :: t2)) eqn:E.
    - apply str_eqb_eq in E. split; [|reflexivity].
      intros _ d1 d2 H1 H2. congruence.
    - apply str_eqb_neq in E. split; [discriminate|].
      intros Hall. exfalso. apply E. now apply Hall. }
  rewrite <- Hal. clear Hal.
  set (M := alignment_issues _ _). split.
  - intros E. rewrite <- (app_nil_r (issues r)) in E at 2.
    apply app_inv_head in E.
    apply app_eq_nil in E. destruct E as [-> E].
    apply app_eq_nil in E. destruct E as [-> E].
    apply app_eq_nil in E. destruct E as [-> ->]. auto.
  - intros (-> & -> & -> & ->). now rewrite !app_nil_r.
Qed.

(** Without a From domain the only recommendation is the general one, and
    it names the domain [None]: it is added exactly when an issue mentions
    SPF, DKIM or DMARC. *)
Theorem recommendation_without_from_domain r :
  _extract_domain_from_email (from (headers r)) = None ->
  recommendations (_generate_recommendations r)
  = recommendations r
      ++ (if mentions (u "SPF") (issues r) || mentions (u "DKIM") (issues r)
             || mentions (u "DMARC") (issues r)
          then [u "Use o script principal deste projeto para analisar todos os registros DNS: python email_auth_fix.py None -v"]
          else []).
Proof.
  intros Hnone. unfold _generate_recommendations. cbv zeta. rewrite Hnone.
  destruct (mentions (u "SPF") (issues r));
    destruct (mentions (u "DKIM") (issues r));
    destruct (mentions (u "DMARC") (issues r));
    simpl; rewrite ?app_nil_r; reflexivity.
Qed.

(** A text that leaves no usable Received-SPF value and no
    Authentication-Results occurrence gives a fresh analyser no verdict at
    all and exactly the three not-found issues, followed by the alignment
    issue if there is one. *)
Theorem no_authentication_headers now text :
  let r := analyze_header (init now) text in
  truthy (received_spf (headers r)) = false ->
  authentication_results (headers r) = [] ->
  authentication r
  = {| spf := None; dkim := None; dmarc := None; arc := None |}
  /\ issues r
     = [u "SPF não encontrado nos cabeçalhos";
        u "DKIM não encontrado nos cabeçalhos";
        u "DMARC não encontrado nos cabeçalhos"]
         ++ alignment_issues
              (_extract_domain_from_email (from (headers r)))
              (_extract_domain_from_email (return_path (headers r))).
Proof.
  intros r. unfold r, analyze_header. cbv zeta.
  set (r0 := _extract_header_fields (init now) (splitlines text)).
  destruct (generate_keeps (_analyze_authentication r0)) as (-> & -> & ->).
  pose proof (extract_fields_keeps_authentication (splitlines text) (init now))
    as Hauth.
  pose proof (extract_fields_keeps_issues (init now) (splitlines text)) as Hiss.
  fold r0 in Hauth, Hiss.
  unfold _analyze_authentication. cbv zeta.
  destruct (identify_keeps
              (fold_left _extract_from_authentication_results
                 (authentication_results
                    (headers
                       (if truthy (received_spf (headers r0))
                        then set_authentication
                               (set_spf (_extract_spf_from_received_spf r0)
                                        (authentication r0)) r0
                        else r0)))
                 (if truthy (received_spf (headers r0))
                  then set_authentication
                         (set_spf (_extract_spf_from_received_spf r0)
                                  (authentication r0)) r0
                  else r0))) as (-> & ->).
  rewrite run_keeps_headers.
  intros Hspf Hocc.
  assert (Hh : headers (if truthy (received_spf (headers r0))
                        then set_authentication
                               (set_spf (_extract_spf_from_received_spf r0)
                                        (authentication r0)) r0
                        else r0) = headers r0)
    by (destruct (truthy (received_spf (headers r0))); reflexivity).
  rewrite Hh in Hspf, Hocc |- *. rewrite Hspf, Hocc. simpl fold_left.
  rewrite identify_issues_spec, Hauth, Hiss. split; [reflexivity|].
  cbn [init authentication spf dkim dmarc issues app].
  replace (verdict_issues (u "SPF") None)
    with [u "SPF não encontrado nos cabeçalhos"] by (vm_compute; reflexivity).
  replace (verdict_issues (u "DKIM") None)
    with [u "DKIM não encontrado nos cabeçalhos"] by (vm_compute; reflexivity).
  replace (verdict_issues (u "DMARC") None)
    with [u "DMARC não encontrado nos cabeçalhos"] by (vm_compute; reflexivity).
  reflexivity.
Qed.
End HeaderExtras.

Lemma continuation_lines_folded_witness :
  HeaderAnalyzer.from
    (HeaderAnalyzer.headers
       (HeaderAnalyzer._extract_header_fields (H := ascii_tables)
          (HeaderAnalyzer.init (u "t"))
          ([u "Sender: s@s.org"]
             ++ (u "FROM" ++ 58 :: u " Ana") :: [u "  <ana@a.com>"; []; u "	(work)"])))
  = Some (u "Ana <ana@a.com> (work)").
Proof.
  rewrite (continuation_lines_folded (H := ascii_tables)).
  - vm_compute. reflexivity.
  - vm_compute. reflexivity.
  - vm_compute. intuition discriminate.
  - vm_compute. discriminate.
  - repeat constructor.
Defined.

Lemma extracted_domain_shape_witness :
  exists text before after,
    Some (u "Ana <ana@mail.a-b.com>") = Some text
    /\ text = before ++ 64 :: u "mail.a-b.com" ++ after.
Proof.
  apply (extracted_domain_shape (H := ascii_tables)
           (Some (u "Ana <ana@mail.a-b.com>")) (u "mail.a-b.com")).
  vm_compute. reflexivity.
Defined.

Lemma no_issue_iff_all_pass_witness :
  let r := HeaderAnalyzer.set_authentication
             {| HeaderAnalyzer.spf :=
                  Some {| HeaderAnalyzer.result := u "pass";
                          HeaderAnalyzer.explanation := [];
                          HeaderAnalyzer.selector := None |};
                HeaderAnalyzer.dkim :=
                  Some {| HeaderAnalyzer.result := u "pass";
                          HeaderAnalyzer.explanation := [];
                          HeaderAnalyzer.selector := Some [] |};
                HeaderAnalyzer.dmarc :=
                  Some {| HeaderAnalyzer.result := u "pass";
                          HeaderAnalyzer.explanation := [];
                          HeaderAnalyzer.selector := None |};
                HeaderAnalyzer.arc := None |}
             (HeaderAnalyzer.init (u "t")) in
  HeaderAnalyzer.issues (HeaderAnalyzer._identify_issues (H := ascii_tables) r)
  = HeaderAnalyzer.issues r.
Proof.
  intros r. apply (proj2 (no_issue_iff_all_pass (H := ascii_tables) r)).
  repeat split; try (eexists; split; reflexivity).
  intros d1 d2 E. vm_compute in E. discriminate.
Defined.

Lemma recommendation_without_from_domain_witness :
  HeaderAnalyzer.recommendations
    (HeaderAnalyzer._generate_recommendations (H := ascii_tables)
       (HeaderAnalyzer.append_issue (u "DKIM não encontrado nos cabeçalhos")
          (HeaderAnalyzer.init (u "t"))))
  = [u "Use o script principal deste projeto para analisar todos os registros DNS: python email_auth_fix.py None -v"].
Proof.
  rewrite (recommendation_without_from_domain (H := ascii_tables)).
  - vm_compute. reflexivity.
  - reflexivity.
Defined.

Lemma no_authentication_headers_witness :
  HeaderAnalyzer.issues
    (HeaderAnalyzer.analyze_header (H := ascii_tables) (HeaderAnalyzer.init (u "t"))
       (u "From: a@a.com" ++ [10] ++ u "Subject: hello"))
  = [u "SPF não encontrado nos cabeçalhos";
     u "DKIM não encontrado nos cabeçalhos";
     u "DMARC não encontrado nos cabeçalhos"].
Proof.
  destruct (no_authentication_headers (H := ascii_tables) (u "t")
              (u "From: a@a.com" ++ [10] ++ u "Subject: hello"))
    as (_ & Hiss).
  - vm_compute. reflexivity.
  - vm_compute. reflexivity.
  - rewrite Hiss. vm_compute. reflexivity.
Defined.

(** * Further properties of the DNS checker *)

Section CheckerExtras.
Import AuthChecker AuthCheckerAll.

(** Projections of a state written with the setters. *)
Ltac state_simpl :=
  cbn [issues records recommendations commands domain verbose results
       append_issue set_records set_recommendations set_commands
       set_record_spf set_record_dkim set_record_dmarc
       _recommend_spf_record _recommend_dmarc_record with_results
       Results.domain Results.timestamp Results.records Results.issues
       Results.recommendations Results.commands
       Records.spf Records.dkim Records.dmarc
       Recommendations.spf Recommendations.dkim Recommendations.dmarc
       Commands.bind9 Commands.powershell Commands.azure_cli].

(** A failed SPF lookup costs one issue that carries the resolver's
    message, and leaves the recorded SPF record alone; an answer without
    any SPF candidate costs the not-found issue and records no SPF record.
    In both cases the check goes on to recommend the SPF record. *)
Theorem spf_unavailable resolve c :
  (forall e,
      resolve (domain c) TXT = inl e ->
      gained c (check_spf resolve c) = [u "Erro ao consultar registro SPF: " ++ e]
      /\ Records.spf (records (check_spf resolve c)) = Records.spf (records c)
      /\ Recommendations.spf (recommendations (check_spf resolve c))
         = Some recommended_spf)
  /\ (forall answers,
         resolve (domain c) TXT = inr answers ->
         spf_candidates answers = [] ->
         gained c (check_spf resolve c) = [issue_spf_missing]
         /\ Records.spf (records (check_spf resolve c)) = None
         /\ Recommendations.spf (recommendations (check_spf resolve c))
            = Some recommended_spf).
Proof.
  split.
  - intros e He. unfold gained, check_spf, recommended_spf. rewrite He.
    state_simpl. split; [apply skipn_length_app | split; reflexivity].
  - intros answers Ha Hc. unfold gained, check_spf, recommended_spf.
    rewrite Ha, Hc. cbn [map]. state_simpl.
    split; [apply skipn_length_app | split; reflexivity].
Qed.

Lemma spf_unavailable_witness :
  gained (init (u "example.com") false (u "t"))
         (check_spf no_dns (init (u "example.com") false (u "t")))
  = [u "Erro ao consultar registro SPF: NXDOMAIN"].
Proof.
  apply (proj1 (spf_unavailable no_dns (init (u "example.com") false (u "t")))
               (u "NXDOMAIN")).
  reflexivity.
Defined.

(** The SPF record the checker recommends passes the checker: when it is
    the only SPF candidate among the TXT answers, [check_spf] records it
    and adds no issue. *)
Theorem recommended_spf_accepted resolve c answers :
  resolve (domain c) TXT = inr answers ->
  spf_candidates answers = [dquote ++ recommended_spf ++ dquote] ->
  gained c (check_spf resolve c) = []
  /\ Records.spf (records (check_spf resolve c)) = Some recommended_spf.
Proof.
  intros Hres Hcand.
  destruct (check_spf_found resolve c answers _ [] Hres Hcand) as (Hrec & Hgain).
  cbv zeta in Hrec, Hgain. rewrite Hrec, Hgain.
  replace (strip_chars dquote (dquote ++ recommended_spf ++ dquote))
    with recommended_spf by (vm_compute; reflexivity).
  split; [|reflexivity].
  replace (contains (u "include:spf.protection.outlook.com") recommended_spf)
    with true by (vm_compute; reflexivity).
  replace (contains (u "-all") recommended_spf)
    with true by (vm_compute; reflexivity).
  rewrite orb_true_r. reflexivity.
Qed.

Lemma recommended_spf_accepted_witness :
  gained (init (u "example.com") false (u "t"))
         (check_spf (one_txt (dquote ++ recommended_spf ++ dquote))
                    (init (u "example.com") false (u "t")))
  = [].
Proof.
  apply (recommended_spf_accepted
           (one_txt (dquote ++ recommended_spf ++ dquote))
           (init (u "example.com") false (u "t"))
           [dquote ++ recommended_spf ++ dquote]).
  - reflexivity.
  - vm_compute. reflexivity.
Defined.

Lemma check_selector_cname resolve c found selector a rest :
  resolve (selector ++ u "._domainkey." ++ domain c) CNAME = inr (a :: rest) ->
  check_selector resolve (c, found) selector
  = Ok (c, found ++ [{| Found.selector := selector; Found.record := a;
                        Found.type := u "CNAME" |}]).
Proof. intros H1. unfold check_selector. now rewrite H1. Qed.

Lemma check_selector_txt resolve c found selector e a rest :
  resolve (selector ++ u "._domainkey." ++ domain c) CNAME = inl e ->
  resolve (selector ++ u "._domainkey." ++ domain c) TXT = inr (a :: rest) ->
  check_selector resolve (c, found) selector
  = Ok (c, found ++ [{| Found.selector := selector;
                        Found.record := strip_chars dquote a;
                        Found.type := u "TXT" |}]).
Proof. intros H1 H2. unfold check_selector. now rewrite H1, H2. Qed.

(** What [_recommend_dkim_records] does with the tenant it is given by
    [_extract_tenant_domain]. *)
Lemma recommend_dkim_spec c :
  _recommend_dkim_records c =
  match _extract_tenant_domain c with
  | Some ((_ :: _) as t) =>
    set_recommendations
      {| Recommendations.spf := Recommendations.spf (recommendations c);
         Recommendations.dkim := Some (tenant_recommendations (domain c) t);
         Recommendations.dmarc := Recommendations.dmarc (recommendations c) |} c
  | _ =>
    set_recommendations
      {| Recommendations.spf := Recommendations.spf (recommendations c);
         Recommendations.dkim :=
           Some (tenant_recommendations (domain c) (u "tenant.onmicrosoft.com"));
         Recommendations.dmarc := Recommendations.dmarc (recommendations c) |}
      (append_issue placeholder_issue c)
  end.
Proof.
  unfold _recommend_dkim_records.
  destruct (_extract_tenant_domain c) as [[|ch t]|]; reflexivity.
Qed.

Lemma placeholder_is_tenant d :
  placeholder_recommendations d
  = tenant_recommendations d (u "tenant.onmicrosoft.com").
Proof.
  assert (E : u "._domainkey.tenant.onmicrosoft.com"
              = u "._domainkey." ++ u "tenant.onmicrosoft.com")
    by (vm_compute; reflexivity).
  unfold placeholder_recommendations, tenant_recommendations.
  rewrite E. reflexivity.
Qed.

(** The sibling of the none-found case: with selector1 found as a CNAME and
    selector2 found under neither type, [check_dkim] records the one entry
    and adds the not-found issue for selector2 and the issue that two
    records are required, then the placeholder issue unless the CNAME target
    names the tenant. *)
Theorem one_selector_requires_two resolve c a rest e1 e2 :
  resolve (u "selector1" ++ u "._domainkey." ++ domain c) CNAME = inr (a :: rest) ->
  resolve (u "selector2" ++ u "._domainkey." ++ domain c) CNAME = inl e1 ->
  resolve (u "selector2" ++ u "._domainkey." ++ domain c) TXT = inl e2 ->
  let entry := {| Found.selector := u "selector1"; Found.record := a;
                  Found.type := u "CNAME" |} in
  exists c',
    check_dkim resolve c = Ok c'
    /\ Records.dkim (records c') = Some [entry]
    /\ gained c c'
       = [issue_dkim_selector (u "selector2"); issue_dkim_two]
           ++ match first_tenant [entry] with
              | Some (_ :: _) => []
              | _ => [placeholder_issue]
              end.
Proof.
  intros H1 H2 H3 entry.
  unfold check_dkim. cbv zeta. cbn [check_selectors].
  rewrite (check_selector_cname resolve c [] _ a rest H1).
  rewrite (check_selector_absent resolve c _ _ e1 e2 H2 H3).
  cbn [app length Nat.ltb Nat.leb]. fold entry.
  eexists. split; [reflexivity|].
  rewrite recommend_dkim_spec.
  unfold _extract_tenant_domain.
  cbn [records Records.dkim set_record_dkim set_records append_issue
       with_results results Results.records].
  unfold gained.
  destruct (first_tenant [entry]) as [[|ch t]|];
    (split; [reflexivity|]);
    cbn [issues append_issue set_record_dkim set_records set_recommendations
         with_results results Results.issues];
    rewrite <- ?app_assoc; apply skipn_length_app.
Qed.

Lemma one_selector_requires_two_witness :
  exists c',
    check_dkim
      (fun name t =>
         match t with
         | CNAME =>
           if str_eqb name (u "selector1._domainkey.example.com")
           then inr [u "selector1-example-com._domainkey.contoso.onmicrosoft.com."]
           else inl (u "NXDOMAIN")
         | TXT => inl (u "NXDOMAIN")
         end)
      (init (u "example.com") false (u "t")) = Ok c'
    /\ issues c' = [issue_dkim_selector (u "selector2"); issue_dkim_two].
Proof.
  destruct (one_selector_requires_two
              (fun name t =>
                 match t with
                 | CNAME =>
                   if str_eqb name (u "selector1._domainkey.example.com")
                   then inr [u "selector1-example-com._domainkey.contoso.onmicrosoft.com."]
                   else inl (u "NXDOMAIN")
                 | TXT => inl (u "NXDOMAIN")
                 end)
              (init (u "example.com") false (u "t"))
              (u "selector1-example-com._domainkey.contoso.onmicrosoft.com.")
              [] (u "NXDOMAIN") (u "NXDOMAIN"))
    as (c' & Hrun & _ & Hgain).
  - vm_compute. reflexivity.
  - vm_compute. reflexivity.
  - reflexivity.
  - exists c'. split; [exact Hrun|].
    unfold gained in Hgain. cbn [init issues results Results.issues length skipn] in Hgain.
    rewrite Hgain. vm_compute. reflexivity.
Defined.

(** The TXT fallback: when both selectors have no CNAME but a TXT answer,
    [check_dkim] records both as TXT entries with the quotes stripped, in
    selector order, and, since only CNAME targets can name the tenant,
    always falls back to the placeholder tenant and its issue. *)
Theorem txt_fallback resolve c e1 t1 rest1 e2 t2 rest2 :
  resolve (u "selector1" ++ u "._domainkey." ++ domain c) CNAME = inl e1 ->
  resolve (u "selector1" ++ u "._domainkey." ++ domain c) TXT = inr (t1 :: rest1) ->
  resolve (u "selector2" ++ u "._domainkey." ++ domain c) CNAME = inl e2 ->
  resolve (u "selector2" ++ u "._domainkey." ++ domain c) TXT = inr (t2 :: rest2) ->
  exists c',
    check_dkim resolve c = Ok c'
    /\ Records.dkim (records c')
       = Some [{| Found.selector := u "selector1";
                  Found.record := strip_chars dquote t1;
                  Found.type := u "TXT" |};
               {| Found.selector := u "selector2";
                  Found.record := strip_chars dquote t2;
                  Found.type := u "TXT" |}]
    /\ gained c c' = [placeholder_issue]
    /\ Recommendations.dkim (recommendations c')
       = Some (placeholder_recommendations (domain c)).
Proof.
  intros H1 H2 H3 H4.
  unfold check_dkim. cbv zeta. cbn [check_selectors].
  rewrite (check_selector_txt resolve c [] _ e1 t1 rest1 H1 H2).
  rewrite (check_selector_txt resolve c _ _ e2 t2 rest2 H3 H4).
  cbn [app length Nat.ltb Nat.leb].
  eexists. split; [reflexivity|].
  rewrite recommend_dkim_spec.
  unfold _extract_tenant_domain.
  cbn [records Records.dkim set_record_dkim set_records
       with_results results Results.records first_tenant Found.type].
  replace (str_eqb (u "TXT") (u "CNAME")) with false by (vm_compute; reflexivity).
  rewrite placeholder_is_tenant. unfold gained. state_simpl.
  split; [reflexivity|]. split; [apply skipn_length_app | reflexivity].
Qed.

Lemma txt_fallback_witness :
  exists c',
    check_dkim
      (fun name t =>
         match t with
         | CNAME => inl (u "NXDOMAIN")
         | TXT => inr [dquote ++ u "v=DKIM1; k=rsa; p=MIGf" ++ dquote]
         end)
      (init (u "example.com") false (u "t")) = Ok c'
    /\ gained (init (u "example.com") false (u "t")) c' = [placeholder_issue].
Proof.
  destruct (txt_fallback
              (fun name t =>
                 match t with
                 | CNAME => inl (u "NXDOMAIN")
                 | TXT => inr [dquote ++ u "v=DKIM1; k=rsa; p=MIGf" ++ dquote]
                 end)
              (init (u "example.com") false (u "t"))
              (u "NXDOMAIN") (dquote ++ u "v=DKIM1; k=rsa; p=MIGf" ++ dquote) []
              (u "NXDOMAIN") (dquote ++ u "v=DKIM1; k=rsa; p=MIGf" ++ dquote) [])
    as (c' & Hrun & _ & Hgain & _); try reflexivity.
  exists c'. split; [exact Hrun | exact Hgain].
Defined.

Lemma push_nil c : push [] [] [] c = c.
Proof.
  destruct c as [d v [rd ts rec iss rcm [b p a]]]. unfold push. state_simpl.
  now rewrite !app_nil_r.
Qed.

Lemma push_push b1 p1 a1 b2 p2 a2 c :
  push b2 p2 a2 (push b1 p1 a1 c) = push (b1 ++ b2) (p1 ++ p2) (a1 ++ a2) c.
Proof. unfold push. state_simpl. now rewrite <- !app_assoc. Qed.

(** [sh l] appends the commands [l] to one platform's list. *)
Section OnePlatform.
Variable add : str -> checker -> checker.
Variable sh : list str -> checker -> checker.
Hypothesis sh_nil : forall c, sh [] c = c.
Hypothesis sh_app : forall l1 l2 c, sh l2 (sh l1 c) = sh (l1 ++ l2) c.
Hypothesis sh_add : forall cmd c, add cmd c = sh [cmd] c.

Lemma when_text_sh x cmd c :
  when_text x add cmd c
  = sh (match x with Some ((_ :: _) as v) => [cmd v] | _ => [] end) c.
Proof.
  unfold when_text. destruct x as [[|ch t]|]; rewrite ?sh_nil, ?sh_add; reflexivity.
Qed.

Lemma when_dkim_sh x cmd c :
  when_dkim x add cmd c
  = sh (match x with Some l => map cmd l | None => [] end) c.
Proof.
  unfold when_dkim. destruct x as [l|]; [|now rewrite sh_nil].
  revert c. induction l as [|r l IH]; intros c; simpl; [now rewrite sh_nil|].
  now rewrite IH, sh_add, sh_app.
Qed.
End OnePlatform.

Lemma when_text_bind9 x cmd c :
  when_text x add_bind9 cmd c
  = push (match x with Some ((_ :: _) as v) => [cmd v] | _ => [] end) [] [] c.
Proof.
  apply (when_text_sh add_bind9 (fun l => push l [] [])).
  - apply push_nil.
  - intros cmd' c'. unfold add_bind9, push. now rewrite !app_nil_r.
Qed.

Lemma when_dkim_bind9 x cmd c :
  when_dkim x add_bind9 cmd c
  = push (match x with Some l => map cmd l | None => [] end) [] [] c.
Proof.
  apply (when_dkim_sh add_bind9 (fun l => push l [] [])).
  - apply push_nil.
  - intros l1 l2 c'. now rewrite push_push.
  - intros cmd' c'. unfold add_bind9, push. now rewrite !app_nil_r.
Qed.

Lemma when_text_powershell x cmd c :
  when_text x add_powershell cmd c
  = push [] (match x with Some ((_ :: _) as v) => [cmd v] | _ => [] end) [] c.
Proof.
  apply (when_text_sh add_powershell (fun l => push [] l [])).
  - apply push_nil.
  - intros cmd' c'. unfold add_powershell, push. now rewrite !app_nil_r.
Qed.

Lemma when_dkim_powershell x cmd c :
  when_dkim x add_powershell cmd c
  = push [] (match x with Some l => map cmd l | None => [] end) [] c.
Proof.
  apply (when_dkim_sh add_powershell (fun l => push [] l [])).
  - apply push_nil.
  - intros l1 l2 c'. now rewrite push_push.
  - intros cmd' c'. unfold add_powershell, push. now rewrite !app_nil_r.
Qed.

Lemma when_text_azure_cli x cmd c :
  when_text x add_azure_cli cmd c
  = push [] [] (match x with Some ((_ :: _) as v) => [cmd v] | _ => [] end) c.
Proof.
  apply (when_text_sh add_azure_cli (fun l => push [] [] l)).
  - apply push_nil.
  - intros cmd' c'. unfold add_azure_cli, push. now rewrite !app_nil_r.
Qed.

Lemma when_dkim_azure_cli x cmd c :
  when_dkim x add_azure_cli cmd c
  = push [] [] (match x with Some l => map cmd l | None => [] end) c.
Proof.
  apply (when_dkim_sh add_azure_cli (fun l => push [] [] l)).
  - apply push_nil.
  - intros l1 l2 c'. now rewrite push_push.
  - intros cmd' c'. unfold add_azure_cli, push. now rewrite !app_nil_r.
Qed.

Lemma text_cmds_length (x : option str) (cmd : str -> str) :
  length (match x with Some ((_ :: _) as v) => [cmd v] | _ => [] end)
  = if truthy x then 1%nat else 0%nat.
Proof. destruct x as [[|ch t]|]; reflexivity. Qed.

Lemma dkim_cmds_length (x : option (list Rec.t)) (cmd : Rec.t -> str) :
  length (match x with Some l => map cmd l | None => [] end)
  = match x with Some l => length l | None => 0%nat end.
Proof. destruct x as [l|]; [apply length_map | reflexivity]. Qed.

(** The commands one run adds depend on the domain and the recommendations
    only, and there is one per recommended record on each platform. *)
Lemma generate_commands_push d rcm :
  exists b p a,
    (length b = recommended_count rcm
     /\ length p = recommended_count rcm
     /\ length a = recommended_count rcm)
    /\ forall c,
        domain c = d -> recommendations c = rcm ->
        _generate_commands c = push b p a c.
Proof.
  do 3 eexists. split; cycle 1.
  - intros c Hd Hr. unfold _generate_commands. cbv zeta. rewrite Hd, Hr.
    rewrite when_text_bind9, when_dkim_bind9, when_text_bind9.
    rewrite when_text_powershell, when_dkim_powershell, when_text_powershell.
    rewrite when_text_azure_cli, when_dkim_azure_cli, when_text_azure_cli.
    rewrite !push_push. rewrite ?app_nil_r. cbn [app]. reflexivity.
  - unfold recommended_count.
    rewrite !length_app, !text_cmds_length, !dkim_cmds_length.
    repeat split; lia.
Qed.

Lemma push_keeps b p a c :
  domain (push b p a c) = domain c
  /\ recommendations (push b p a c) = recommendations c
  /\ issues (push b p a c) = issues c
  /\ records (push b p a c) = records c.
Proof. repeat split. Qed.

(** [_generate_commands] writes the command lists only, and adds to each of
    the three lists one command per recommended record: one for a
    non-empty SPF recommendation, one per DKIM recommendation, one for a
    non-empty DMARC recommendation; the commands already there stay in
    front. *)
Theorem generate_commands_one_per_recommendation c :
  exists b p a,
    _generate_commands c = push b p a c
    /\ length b = recommended_count (recommendations c)
    /\ length p = recommended_count (recommendations c)
    /\ length a = recommended_count (recommendations c).
Proof.
  destruct (generate_commands_push (domain c) (recommendations c))
    as (b & p & a & Hlen & Hgen).
  exists b, p, a. split; [now apply Hgen | exact Hlen].
Qed.

Lemma push_bind9 b p a c :
  Commands.bind9 (commands (push b p a c)) = Commands.bind9 (commands c) ++ b.
Proof. reflexivity. Qed.

(** [_generate_commands] is idempotent only when nothing is recommended:
    run a second time on the same checker, it appends the same commands,
    one per recommended record, once more to each list, so the second run
    changes the checker again unless there is no recommendation at all. *)
Theorem generate_commands_twice c :
  exists b p a,
    length b = recommended_count (recommendations c)
    /\ length p = recommended_count (recommendations c)
    /\ length a = recommended_count (recommendations c)
    /\ _generate_commands c = push b p a c
    /\ _generate_commands (_generate_commands c)
       = push (b ++ b) (p ++ p) (a ++ a) c
    /\ (_generate_commands (_generate_commands c) = _generate_commands c
        <-> recommended_count (recommendations c) = 0%nat).
Proof.
  destruct (generate_commands_push (domain c) (recommendations c))
    as (b & p & a & (Lb & Lp & La) & Hgen).
  exists b, p, a.
  assert (H1 : _generate_commands c = push b p a c) by now apply Hgen.
  assert (H2 : _generate_commands (_generate_commands c)
               = push (b ++ b) (p ++ p) (a ++ a) c).
  { rewrite H1.
    rewrite (Hgen (push b p a c)); [apply push_push | reflexivity | reflexivity]. }
  do 3 (split; [assumption|]). split; [exact H1|]. split; [exact H2|].
  rewrite H2, H1. split.
  - intros E. apply (f_equal (fun x => length (Commands.bind9 (commands x)))) in E.
    rewrite !push_bind9, !length_app in E. lia.
  - intros Hz. rewrite Hz in Lb, Lp, La.
    apply length_zero_iff_nil in Lb, Lp, La. subst b p a. reflexivity.
Qed.
End CheckerExtras.

Lemma generate_commands_twice_witness :
  AuthChecker._generate_commands
    (AuthChecker._generate_commands
       (AuthChecker._recommend_spf_record
          (AuthChecker.init (u "example.com") false (u "t"))))
  <> AuthChecker._generate_commands
       (AuthChecker._recommend_spf_record
          (AuthChecker.init (u "example.com") false (u "t"))).
Proof.
  destruct (generate_commands_twice
              (AuthChecker._recommend_spf_record
                 (AuthChecker.init (u "example.com") false (u "t"))))
    as (b & p & a & _ & _ & _ & _ & _ & Hiff).
  intros E. apply Hiff in E. vm_compute in E. discriminate E.
Defined.

(** ** The matcher finds a match that is there *)

Lemma star_greedy_total {A : Type} (p : char -> bool)
      (k : nat -> str -> option A) :
  (forall j s', k j s' <> None) ->
  forall s i, star_greedy p i s k <> None.
Proof.
  intros Hk. induction s as [|c s IH]; intros i; simpl; [apply Hk|].
  destruct (p c); [|apply Hk].
  destruct (star_greedy p (S i) s k) eqn:E; [discriminate | apply Hk].
Qed.

(** A literal followed by a captured [p+] matches wherever the literal is
    followed by a character of the class. *)
Lemma mtch_lit_plus_some l n (p : char -> bool) i c rest :
  p c = true ->
  mtch (Seq (Lit l) (Grp n (Plus p))) i (l ++ c :: rest) []
       (fun _ _ cs => Some cs) <> None.
Proof.
  intros Hc. cbn [mtch Plus]. rewrite strip_prefix_app, Hc.
  apply star_greedy_total. discriminate.
Qed.

Lemma search_from_found r pre rest :
  forall i,
    mtch r (i + length pre)%nat rest [] (fun _ _ cs => Some cs) <> None ->
    search_from r i (pre ++ rest) <> None.
Proof.
  induction pre as [|c pre IH]; intros i Hm.
  - simpl in *. rewrite Nat.add_0_r in Hm.
    destruct rest; simpl;
      destruct (mtch r i _ [] (fun _ _ cs => Some cs)); congruence.
  - simpl.
    destruct (mtch r i (c :: pre ++ rest) [] (fun _ _ cs => Some cs));
      [discriminate|].
    apply IH. simpl in Hm. now rewrite Nat.add_succ_r in Hm.
Qed.

Lemma contains_skipn l : forall n s s',
  strip_prefix l (skipn n s) = Some s' -> contains l s = true.
Proof.
  induction n as [|n IH]; intros s s' Hs.
  - simpl in Hs. destruct s; simpl; unfold startswith; now rewrite Hs.
  - destruct s as [|c s]; simpl in Hs.
    + simpl. unfold startswith. now rewrite Hs.
    + simpl. rewrite (IH s s' Hs). apply orb_true_r.
Qed.

(** A pattern that starts with a literal finds nothing in a text that does
    not contain the literal. *)
Lemma search_without_literal l r s :
  contains l s = false -> re_search (Seq (Lit l) r) s = None.
Proof.
  intros Hc. destruct (re_search (Seq (Lit l) r) s) as [m|] eqn:Hm; [|reflexivity].
  apply search_from_sound in Hm. destruct Hm as (n & j & s' & Hm).
  apply matches_seq_inv in Hm. destruct Hm as (j1 & s1 & cs1 & Hl & _).
  inversion Hl; subst.
  match goal with Hp : strip_prefix _ _ = Some _ |- _ =>
                  apply contains_skipn in Hp; congruence end.
Qed.

Lemma rstrip_by_keep (p : char -> bool) s z :
  p z = false -> rstrip_by p (s ++ [z]) = s ++ [z].
Proof.
  intros Hz. unfold rstrip_by. rewrite rev_app_distr. simpl. rewrite Hz.
  simpl. now rewrite rev_involutive.
Qed.

Lemma rstrip_by_drop (p : char -> bool) s q :
  p q = true -> rstrip_by p (s ++ [q]) = rstrip_by p s.
Proof.
  intros Hq. unfold rstrip_by. rewrite rev_app_distr. simpl. now rewrite Hq.
Qed.

(** Stripping a class from a text that carries one character of it at each
    end gives the text back when the text itself starts and ends outside
    the class. *)
Lemma strip_by_quoted (p : char -> bool) q x body z q' :
  p q = true -> p q' = true -> p x = false -> p z = false ->
  strip_by p (q :: ((x :: body) ++ [z]) ++ [q']) = (x :: body) ++ [z].
Proof.
  intros Hq Hq' Hx Hz. unfold strip_by. simpl lstrip_by. rewrite Hq, Hx.
  change (x :: ((body ++ [z]) ++ [q'])) with (((x :: body) ++ [z]) ++ [q']).
  rewrite rstrip_by_drop by assumption. now apply rstrip_by_keep.
Qed.

Section CheckerAllExtras.
Import AuthChecker AuthCheckerAll.
Context `{UnicodeTables} `{DecimalTables}.

Ltac state_simpl :=
  cbn [issues records recommendations commands domain verbose results
       append_issue set_records set_recommendations set_commands
       set_record_spf set_record_dkim set_record_dmarc
       _recommend_spf_record _recommend_dmarc_record with_results
       Results.domain Results.timestamp Results.records Results.issues
       Results.recommendations Results.commands
       Records.spf Records.dkim Records.dmarc
       Recommendations.spf Recommendations.dkim Recommendations.dmarc
       Commands.bind9 Commands.powershell Commands.azure_cli].

(** A failed DMARC lookup costs one issue that carries the resolver's
    message, and an answer without any DMARC candidate costs the not-found
    issue and records no DMARC record; either way the check returns and
    recommends the DMARC record for the domain. *)
Theorem dmarc_unavailable resolve c :
  (forall e,
      resolve (u "_dmarc." ++ domain c) TXT = inl e ->
      exists c',
        check_dmarc resolve c = Return c'
        /\ gained c c' = [u "Erro ao consultar registro DMARC: " ++ e]
        /\ Records.dmarc (records c') = Records.dmarc (records c)
        /\ Recommendations.dmarc (recommendations c')
           = Some (recommended_dmarc (domain c)))
  /\ (forall answers,
         resolve (u "_dmarc." ++ domain c) TXT = inr answers ->
         dmarc_candidates answers = [] ->
         exists c',
           check_dmarc resolve c = Return c'
           /\ gained c c' = [issue_dmarc_missing]
           /\ Records.dmarc (records c') = None
           /\ Recommendations.dmarc (recommendations c')
              = Some (recommended_dmarc (domain c))).
Proof.
  split.
  - intros e He. unfold check_dmarc. cbv zeta. rewrite He.
    eexists. split; [reflexivity|]. unfold gained, recommended_dmarc.
    state_simpl.
    split; [apply skipn_length_app | split; reflexivity].
  - intros answers Ha Hc. unfold check_dmarc. cbv zeta. rewrite Ha, Hc.
    cbn [map]. eexists. split; [reflexivity|].
    unfold gained, recommended_dmarc. state_simpl.
    split; [apply skipn_length_app | split; reflexivity].
Qed.

Lemma reassociate_record (A B C d : str) :
  (118 :: A) ++ d ++ B ++ d ++ C ++ [49]
  = (118 :: (A ++ d ++ B ++ d ++ C)) ++ [49].
Proof. cbn [app]. f_equal. now rewrite <- !app_assoc. Qed.

Lemma recommended_dmarc_ends :
  u "; fo=1" = u "; fo=" ++ [49].
Proof. vm_compute. reflexivity. Qed.

Lemma recommended_dmarc_starts :
  u "v=DMARC1; p=quarantine; pct=100; rua=mailto:admin@"
  = 118 :: u "=DMARC1; p=quarantine; pct=100; rua=mailto:admin@".
Proof. vm_compute. reflexivity. Qed.

Lemma recommended_dmarc_quoted d :
  strip_chars dquote (dquote ++ recommended_dmarc d ++ dquote)
  = recommended_dmarc d.
Proof.
  unfold recommended_dmarc.
  rewrite recommended_dmarc_ends, recommended_dmarc_starts.
  rewrite reassociate_record. unfold strip_chars.
  exact (strip_by_quoted (fun c => existsb (N.eqb c) dquote) 34 118 _ 49 34
           eq_refl eq_refl eq_refl eq_refl).
Qed.

(** The DMARC record the checker recommends for a domain passes the
    checker: when it is the only DMARC candidate at [_dmarc.<domain>],
    [check_dmarc] returns, records it and adds no issue, whatever the
    domain is. *)
Theorem recommended_dmarc_accepted resolve c answers :
  resolve (u "_dmarc." ++ domain c) TXT = inr answers ->
  dmarc_candidates answers = [dquote ++ recommended_dmarc (domain c) ++ dquote] ->
  exists c',
    check_dmarc resolve c = Return c'
    /\ gained c c' = []
    /\ Records.dmarc (records c') = Some (recommended_dmarc (domain c)).
Proof.
  intros Hres Hcand. unfold check_dmarc. cbv zeta. rewrite Hres, Hcand.
  cbn [map]. rewrite recommended_dmarc_quoted.
  set (d := domain c).
  assert (Hp : re_search re_policy (recommended_dmarc d)
               = Some [(1%nat, u "quarantine")]) by (vm_compute; reflexivity).
  assert (Hpct : re_search re_pct (recommended_dmarc d)
                 = Some [(1%nat, u "100")]) by (vm_compute; reflexivity).
  assert (Hrua : re_search re_rua (recommended_dmarc d) <> None).
  { replace (recommended_dmarc d)
      with (u "v=DMARC1; p=quarantine; pct=100; "
              ++ (u "rua=mailto:"
                    ++ 97 :: (u "dmin@" ++ d ++ u "; ruf=mailto:admin@" ++ d
                                ++ u "; fo=1")))
      by (vm_compute; reflexivity).
    apply search_from_found. unfold re_rua.
    apply mtch_lit_plus_some. reflexivity. }
  rewrite Hp, Hpct.
  destruct (re_search re_rua (recommended_dmarc d)) as [m|]; [|congruence].
  cbn [group Nat.eqb].
  replace (int_of_digits (u "100")) with (Return 100)
    by (vm_compute; reflexivity).
  replace (str_eqb (u "quarantine") (u "none")) with false
    by (vm_compute; reflexivity).
  replace (u "quarantine") with (113 :: u "uarantine")
    by (vm_compute; reflexivity).
  cbn [N.ltb N.compare Pos.compare Pos.compare_cont].
  eexists. split; [reflexivity|]. unfold gained. state_simpl.
  split; [apply (skipn_all (issues c)) | reflexivity].
Qed.

Lemma pct_issue_distinct pct_value :
  issue_dmarc_no_policy <> issue_dmarc_pct pct_value
  /\ issue_dmarc_none <> issue_dmarc_pct pct_value
  /\ issue_dmarc_rua <> issue_dmarc_pct pct_value.
Proof.
  split; [|split]; intros E; vm_compute in E; discriminate E.
Qed.

(** The enforcement percentage defaults to 100: for a chosen DMARC record
    that does not contain [pct=], [check_dmarc] returns and raises no
    partial-enforcement issue. *)
Theorem pct_defaults_to_100 resolve c answers cand others :
  resolve (u "_dmarc." ++ domain c) TXT = inr answers ->
  dmarc_candidates answers = cand :: others ->
  contains (u "pct=") (strip_chars dquote cand) = false ->
  exists c',
    check_dmarc resolve c = Return c'
    /\ Records.dmarc (records c') = Some (strip_chars dquote cand)
    /\ forall pct_value, ~ In (issue_dmarc_pct pct_value) (gained c c').
Proof.
  intros Hres Hcand Hpct. unfold check_dmarc. cbv zeta. rewrite Hres, Hcand.
  cbn [map]. set (rec := strip_chars dquote cand) in *.
  unfold re_pct. rewrite (search_without_literal _ _ _ Hpct).
  change (100 <? 100) with false. cbv iota.
  eexists. split; [reflexivity|]. unfold gained, issues.
  destruct (re_search re_policy rec) as [pm|];
    [destruct (group 1 pm) as [|ch t];
     [|destruct (str_eqb (ch :: t) (u "none"))]|];
    destruct (re_search re_rua rec);
    state_simpl; (split; [reflexivity|]); intros pct_value;
    destruct (pct_issue_distinct pct_value) as (D1 & D2 & D3);
    rewrite <- ?app_assoc;
    first [rewrite skipn_length_app | rewrite skipn_all];
    cbn [app In]; intros Hin;
    repeat (destruct Hin as [Hin|Hin];
            [lazymatch type of Hin with
             | issue_dmarc_no_policy = _ => exact (D1 Hin)
             | issue_dmarc_none = _ => exact (D2 Hin)
             | issue_dmarc_rua = _ => exact (D3 Hin)
             end|]);
    exact Hin.
Qed.

(** *** What the three checks leave alone *)

Lemma issues_grow_refl (X : list str) : exists new, X = X ++ new.
Proof. exists []. now rewrite app_nil_r. Qed.

Lemma issues_grow_step (X Y : list str) m :
  (exists new, Y = X ++ new) -> exists new, Y ++ [m] = X ++ new.
Proof. intros (new & ->). exists (new ++ [m]). now rewrite app_assoc. Qed.

Ltac issues_grow :=
  unfold issues; state_simpl;
  repeat apply issues_grow_step; apply issues_grow_refl.

Lemma check_spf_keeps resolve c :
  domain (check_spf resolve c) = domain c
  /\ commands (check_spf resolve c) = commands c
  /\ recommendations (check_spf resolve c)
     = {| Recommendations.spf := Some recommended_spf;
          Recommendations.dkim := Recommendations.dkim (recommendations c);
          Recommendations.dmarc := Recommendations.dmarc (recommendations c) |}
  /\ exists new, issues (check_spf resolve c) = issues c ++ new.
Proof.
  unfold check_spf, recommended_spf.
  destruct (resolve (domain c) TXT) as [e|answers].
  - split; [reflexivity|]. split; [reflexivity|]. split; [reflexivity|].
    issues_grow.
  - destruct (map (strip_chars dquote) (spf_candidates answers)) as [|r rest].
    + split; [reflexivity|]. split; [reflexivity|]. split; [reflexivity|].
      issues_grow.
    + cbv zeta.
      destruct (1 <? length (r :: rest))%nat;
        destruct (contains (u "include:spf.protection.outlook.com") r);
        destruct (contains (u "~all") r);
        destruct (contains (u "-all") r);
        cbn [negb andb];
        (split; [reflexivity|]; split; [reflexivity|]; split; [reflexivity|]);
        issues_grow.
Qed.

Lemma check_selector_keeps resolve c f selector c1 f1 :
  check_selector resolve (c, f) selector = Ok (c1, f1) ->
  c1 = c \/ c1 = append_issue (issue_dkim_selector selector) c.
Proof.
  unfold check_selector.
  destruct (resolve (selector ++ u "._domainkey." ++ domain c) CNAME)
    as [e|[|a rest]]; cbn [first_answer].
  - destruct (resolve (selector ++ u "._domainkey." ++ domain c) TXT)
      as [e'|[|a rest]]; cbn [first_answer]; intros E; inversion E; auto.
  - discriminate.
  - intros E; inversion E; auto.
Qed.

Lemma check_selectors_keeps resolve selectors :
  forall c f c1 f1,
    check_selectors resolve selectors (c, f) = Ok (c1, f1) ->
    domain c1 = domain c
    /\ commands c1 = commands c
    /\ recommendations c1 = recommendations c
    /\ exists new, issues c1 = issues c ++ new.
Proof.
  induction selectors as [|selector rest IH]; intros c f c1 f1 E;
    cbn [check_selectors] in E.
  - inversion E; subst. repeat split. apply issues_grow_refl.
  - destruct (check_selector resolve (c, f) selector) as [[c0 f0]|] eqn:E0;
      [|discriminate].
    destruct (IH _ _ _ _ E) as (Hd & Hc & Hr & new & Hn).
    destruct (check_selector_keeps _ _ _ _ _ _ E0) as [-> | ->].
    + repeat split; auto. now exists new.
    + repeat split; auto. rewrite Hn. unfold issues. state_simpl.
      exists ([issue_dkim_selector selector] ++ new). now rewrite app_assoc.
Qed.

Lemma check_dkim_keeps resolve c c' :
  check_dkim resolve c = Ok c' ->
  domain c' = domain c
  /\ commands c' = commands c
  /\ Recommendations.spf (recommendations c')
     = Recommendations.spf (recommendations c)
  /\ Recommendations.dmarc (recommendations c')
     = Recommendations.dmarc (recommendations c)
  /\ (exists tenant,
         Recommendations.dkim (recommendations c')
         = Some (tenant_recommendations (domain c) tenant))
  /\ exists new, issues c' = issues c ++ new.
Proof.
  unfold check_dkim. cbv zeta.
  destruct (check_selectors resolve [u "selector1"; u "selector2"] (c, []))
    as [[c1 f1]|] eqn:E; [|discriminate].
  destruct (check_selectors_keeps _ _ _ _ _ _ E) as (Hd & Hc & Hr & new & Hn).
  intros E'. inversion E' as [E'']. clear E'. subst c'.
  rewrite recommend_dkim_spec.
  set (c2 := match f1 with
             | [] => append_issue issue_dkim_none (set_record_dkim (Some f1) c1)
             | _ :: _ =>
               if (length f1 <? 2)%nat
               then append_issue issue_dkim_two (set_record_dkim (Some f1) c1)
               else set_record_dkim (Some f1) c1
             end).
  assert (K : domain c2 = domain c /\ commands c2 = commands c
              /\ recommendations c2 = recommendations c
              /\ exists new', issues c2 = issues c ++ new').
  { unfold c2. destruct f1 as [|x f1]; [|destruct (length (x :: f1) <? 2)%nat];
      (split; [exact Hd|]; split; [exact Hc|]; split; [exact Hr|]);
      unfold issues in *; state_simpl; rewrite Hn;
      repeat apply issues_grow_step; now exists new. }
  destruct K as (Kd & Kc & Kr & new' & Kn). clearbody c2.
  destruct (_extract_tenant_domain c2) as [[|ch t]|];
    state_simpl; rewrite ?Kd;
    (split; [reflexivity|]; split; [exact Kc|];
     split; [now rewrite Kr|]; split; [now rewrite Kr|];
     split; [eexists; reflexivity|]);
    unfold issues in *; state_simpl; rewrite Kn;
    repeat apply issues_grow_step; now exists new'.
Qed.

Lemma check_dmarc_keeps resolve c c' :
  check_dmarc resolve c = Return c' ->
  domain c' = domain c
  /\ commands c' = commands c
  /\ recommendations c'
     = {| Recommendations.spf := Recommendations.spf (recommendations c);
          Recommendations.dkim := Recommendations.dkim (recommendations c);
          Recommendations.dmarc := Some (recommended_dmarc (domain c)) |}
  /\ exists new, issues c' = issues c ++ new.
Proof.
  unfold check_dmarc, recommended_dmarc. cbv zeta.
  destruct (resolve (u "_dmarc." ++ domain c) TXT) as [e|answers].
  - intros E. inversion E as [E']. clear E. subst c'.
    split; [reflexivity|]. split; [reflexivity|]. split; [reflexivity|].
    issues_grow.
  - destruct (map (strip_chars dquote) (dmarc_candidates answers)) as [|r rest].
    + intros E. inversion E as [E']. clear E. subst c'.
      split; [reflexivity|]. split; [reflexivity|]. split; [reflexivity|].
      issues_grow.
    + destruct (match re_search re_pct r with
                | Some pct_match => int_of_digits (group 1 pct_match)
                | None => Return 100
                end) as [pct_value|]; [|discriminate].
      intros E. inversion E as [E']. clear E. subst c'.
      destruct (re_search re_policy r) as [pm|];
        [destruct (group 1 pm) as [|ch t];
         [|destruct (str_eqb (ch :: t) (u "none"))]|];
        destruct (re_search re_rua r);
        destruct (pct_value <? 100);
        (split; [reflexivity|]; split; [reflexivity|]; split; [reflexivity|]);
        issues_grow.
Qed.

(** Whatever the resolver answers, a [check_all] that returns leaves the
    canonical recommendations (the fixed SPF record, the two DKIM CNAMEs
    for some tenant, the DMARC record for the domain), has added exactly
    four commands to each platform's list, and has kept the issues that
    were there at the front of the list. *)
Theorem check_all_result resolve c c' :
  check_all resolve c = Return c' ->
  domain c' = domain c
  /\ (exists tenant,
         recommendations c'
         = {| Recommendations.spf := Some recommended_spf;
              Recommendations.dkim :=
                Some (tenant_recommendations (domain c) tenant);
              Recommendations.dmarc := Some (recommended_dmarc (domain c)) |})
  /\ (exists b p a,
         commands c'
         = {| Commands.bind9 := Commands.bind9 (commands c) ++ b;
              Commands.powershell := Commands.powershell (commands c) ++ p;
              Commands.azure_cli := Commands.azure_cli (commands c) ++ a |}
         /\ length b = 4%nat /\ length p = 4%nat /\ length a = 4%nat)
  /\ exists new, issues c' = issues c ++ new.
Proof.
  unfold check_all. cbv zeta.
  destruct (check_spf_keeps resolve c) as (Sd & Sc & Sr & n1 & Sn).
  destruct (check_dkim resolve (check_spf resolve c)) as [c2|] eqn:E2;
    [|discriminate].
  destruct (check_dkim_keeps _ _ _ E2) as (Kd & Kc & Ks & Km & (tenant & Kk) & n2 & Kn).
  destruct (check_dmarc resolve c2) as [c3|] eqn:E3; [|discriminate].
  destruct (check_dmarc_keeps _ _ _ E3) as (Dd & Dc & Dr & n3 & Dn).
  intros E. inversion E as [E']. clear E. subst c'.
  assert (Hrec : recommendations c3
                 = {| Recommendations.spf := Some recommended_spf;
                      Recommendations.dkim :=
                        Some (tenant_recommendations (domain c) tenant);
                      Recommendations.dmarc := Some (recommended_dmarc (domain c)) |}).
  { rewrite Dr, Ks, Kk, Sr, Kd, Sd. reflexivity. }
  destruct (generate_commands_push (domain c3) (recommendations c3))
    as (b & p & a & (Lb & Lp & La) & Hgen).
  rewrite (Hgen c3 eq_refl eq_refl).
  assert (Hcount : recommended_count (recommendations c3) = 4%nat)
    by (rewrite Hrec; vm_compute; reflexivity).
  rewrite Hcount in Lb, Lp, La.
  split; [cbn [push domain set_commands with_results]; congruence|].
  split; [exists tenant; exact Hrec|].
  split.
  - exists b, p, a.
    change (commands (push b p a c3))
      with {| Commands.bind9 := Commands.bind9 (commands c3) ++ b;
              Commands.powershell := Commands.powershell (commands c3) ++ p;
              Commands.azure_cli := Commands.azure_cli (commands c3) ++ a |}.
    rewrite Dc, Kc, Sc. auto.
  - change (issues (push b p a c3)) with (issues c3).
    rewrite Dn, Kn, Sn. exists (n1 ++ n2 ++ n3). now rewrite !app_assoc.
Qed.

(** A total DNS outage aborts nothing: when every query fails, [check_all]
    on a fresh checker returns with exactly six issues (the SPF lookup
    error, the two not-found selectors, no DKIM record at all, the
    placeholder tenant, the DMARC lookup error) and with the BIND9 lines for
    SPF, selector1, selector2 and DMARC, in that order. *)
Theorem check_all_outage resolve d v now :
  outage resolve ->
  exists c' e1 e2,
    check_all resolve (init d v now) = Return c'
    /\ resolve d TXT = inl e1
    /\ resolve (u "_dmarc." ++ d) TXT = inl e2
    /\ issues c'
       = [u "Erro ao consultar registro SPF: " ++ e1;
          issue_dkim_selector (u "selector1");
          issue_dkim_selector (u "selector2");
          issue_dkim_none;
          placeholder_issue;
          u "Erro ao consultar registro DMARC: " ++ e2]
    /\ Commands.bind9 (commands c')
       = [d ++ u ". IN TXT " ++ dquote ++ recommended_spf ++ dquote]
           ++ map (fun r => Rec.host r ++ u ". IN CNAME " ++ Rec.value r ++ u ".")
                  (placeholder_recommendations d)
           ++ [u "_dmarc." ++ d ++ u ". IN TXT " ++ dquote
                 ++ recommended_dmarc d ++ dquote].
Proof.
  intros Hout.
  destruct (Hout d TXT) as [e1 E1].
  destruct (Hout (u "_dmarc." ++ d) TXT) as [e2 E2].
  destruct (Hout (u "selector1" ++ u "._domainkey." ++ d) CNAME) as [x1 X1].
  destruct (Hout (u "selector1" ++ u "._domainkey." ++ d) TXT) as [x2 X2].
  destruct (Hout (u "selector2" ++ u "._domainkey." ++ d) CNAME) as [x3 X3].
  destruct (Hout (u "selector2" ++ u "._domainkey." ++ d) TXT) as [x4 X4].
  unfold check_all. cbv zeta.
  unfold check_spf. cbn [init domain]. rewrite E1.
  set (c1 := _recommend_spf_record _).
  unfold check_dkim. cbv zeta. cbn [check_selectors].
  rewrite (check_selector_absent resolve c1 [] (u "selector1") x1 x2 X1 X2).
  rewrite (check_selector_absent
             resolve (append_issue (issue_dkim_selector (u "selector1")) c1)
             [] (u "selector2") x3 x4 X3 X4).
  unfold c1. clear c1.
  unfold check_dmarc. cbv zeta.
  rewrite recommend_dkim_spec.
  unfold _extract_tenant_domain. state_simpl. cbn [init domain]. rewrite E2.
  eexists. exists e1, e2. split; [reflexivity|].
  split; [reflexivity|]. split; [reflexivity|].
  split; vm_compute; reflexivity.
Qed.
End CheckerAllExtras.

Lemma dmarc_unavailable_witness :
  exists c',
    AuthCheckerAll.check_dmarc (H := ascii_tables) (H0 := ascii_digits)
      AuthChecker.no_dns (AuthChecker.init (u "example.com") false (u "t"))
    = AuthCheckerAll.Return c'
    /\ AuthChecker.issues c' = [u "Erro ao consultar registro DMARC: NXDOMAIN"].
Proof.
  destruct (proj1 (dmarc_unavailable
                     (H := ascii_tables) (H0 := ascii_digits)
                     AuthChecker.no_dns
                     (AuthChecker.init (u "example.com") false (u "t")))
                  (u "NXDOMAIN") eq_refl)
    as (c' & Hrun & Hgain & _).
  exists c'. split; [exact Hrun|].
  unfold AuthChecker.gained in Hgain.
  cbn [AuthChecker.init AuthChecker.issues AuthChecker.results
       AuthChecker.Results.issues length skipn] in Hgain.
  rewrite Hgain. vm_compute. reflexivity.
Defined.

Lemma recommended_dmarc_accepted_witness :
  exists c',
    AuthCheckerAll.check_dmarc (H := ascii_tables) (H0 := ascii_digits)
      (AuthChecker.one_txt
         (AuthChecker.dquote
            ++ AuthCheckerAll.recommended_dmarc (u "example.com")
            ++ AuthChecker.dquote))
      (AuthChecker.init (u "example.com") false (u "t"))
    = AuthCheckerAll.Return c'
    /\ AuthChecker.gained (AuthChecker.init (u "example.com") false (u "t")) c'
       = [].
Proof.
  destruct (recommended_dmarc_accepted
              (H := ascii_tables) (H0 := ascii_digits)
              (AuthChecker.one_txt
                 (AuthChecker.dquote
                    ++ AuthCheckerAll.recommended_dmarc (u "example.com")
                    ++ AuthChecker.dquote))
              (AuthChecker.init (u "example.com") false (u "t"))
              [AuthChecker.dquote
                 ++ AuthCheckerAll.recommended_dmarc (u "example.com")
                 ++ AuthChecker.dquote])
    as (c' & Hrun & Hgain & _).
  - reflexivity.
  - vm_compute. reflexivity.
  - exists c'. split; [exact Hrun | exact Hgain].
Defined.

Lemma pct_defaults_to_100_witness :
  exists c',
    AuthCheckerAll.check_dmarc (H := ascii_tables) (H0 := ascii_digits)
      (AuthChecker.one_txt
         (AuthChecker.dquote ++ u "v=DMARC1; p=reject; rua=mailto:a@example.com"
                             ++ AuthChecker.dquote))
      (AuthChecker.init (u "example.com") false (u "t"))
    = AuthCheckerAll.Return c'
    /\ forall pct_value,
        ~ In (AuthCheckerAll.issue_dmarc_pct pct_value)
             (AuthChecker.gained
                (AuthChecker.init (u "example.com") false (u "t")) c').
Proof.
  destruct (pct_defaults_to_100
              (H := ascii_tables) (H0 := ascii_digits)
              (AuthChecker.one_txt
                 (AuthChecker.dquote
                    ++ u "v=DMARC1; p=reject; rua=mailto:a@example.com"
                    ++ AuthChecker.dquote))
              (AuthChecker.init (u "example.com") false (u "t"))
              [AuthChecker.dquote
                 ++ u "v=DMARC1; p=reject; rua=mailto:a@example.com"
                 ++ AuthChecker.dquote]
              (AuthChecker.dquote
                 ++ u "v=DMARC1; p=reject; rua=mailto:a@example.com"
                 ++ AuthChecker.dquote) [])
    as (c' & Hrun & _ & Hpct).
  - reflexivity.
  - vm_compute. reflexivity.
  - vm_compute. reflexivity.
  - exists c'. split; [exact Hrun | exact Hpct].
Defined.

Lemma check_all_result_witness :
  exists c',
    AuthCheckerAll.check_all (H := ascii_tables) (H0 := ascii_digits)
      AuthChecker.no_dns (AuthChecker.init (u "example.com") false (u "t"))
    = AuthCheckerAll.Return c'
    /\ AuthChecker.domain c' = u "example.com"
    /\ exists b p a,
        AuthChecker.commands c'
        = {| AuthChecker.Commands.bind9 := b;
             AuthChecker.Commands.powershell := p;
             AuthChecker.Commands.azure_cli := a |}
        /\ length b = 4%nat /\ length p = 4%nat /\ length a = 4%nat.
Proof.
  assert (E : { c' | AuthCheckerAll.check_all
                       (H := ascii_tables) (H0 := ascii_digits)
                       AuthChecker.no_dns
                       (AuthChecker.init (u "example.com") false (u "t"))
                     = AuthCheckerAll.Return c' })
    by (eexists; vm_compute; reflexivity).
  destruct E as [c' E]. exists c'. split; [exact E|].
  destruct (check_all_result
              (H := ascii_tables) (H0 := ascii_digits)
              AuthChecker.no_dns
              (AuthChecker.init (u "example.com") false (u "t")) c' E)
    as (Hd & _ & (b & p & a & Hc & Hl) & _).
  split; [exact Hd|]. exists b, p, a. split; [exact Hc | exact Hl].
Defined.

Lemma check_all_outage_witness :
  exists c',
    AuthCheckerAll.check_all (H := ascii_tables) (H0 := ascii_digits)
      AuthChecker.no_dns (AuthChecker.init (u "example.com") false (u "t"))
    = AuthCheckerAll.Return c'
    /\ length (AuthChecker.issues c') = 6%nat.
Proof.
  destruct (check_all_outage
              (H := ascii_tables) (H0 := ascii_digits)
              AuthChecker.no_dns (u "example.com") false (u "t"))
    as (c' & e1 & e2 & Hrun & _ & _ & Hissues & _).
  - intros name t. exists (u "NXDOMAIN"). reflexivity.
  - exists c'. split; [exact Hrun|]. rewrite Hissues. reflexivity.
Defined.

(** ** The tenant domain read back from a recommended CNAME target *)

Lemma lstrip_by_app_all (p : char -> bool) a s :
  forallb p a = true -> lstrip_by p (a ++ s) = lstrip_by p s.
Proof.
  induction a as [|c a IH]; simpl; [reflexivity|].
  intros Ha. apply andb_true_iff in Ha. destruct Ha as [Hc Ha].
  rewrite Hc. now apply IH.
Qed.

Lemma firstn_exact {A : Type} (a b : list A) : firstn (length a) (a ++ b) = a.
Proof. induction a; simpl; congruence. Qed.

Lemma star_greedy_all {A : Type} (p : char -> bool)
      (k : nat -> str -> option A) w c rest x :
  forallb p w = true -> p c = false ->
  forall i,
    k (i + length w)%nat (c :: rest) = Some x ->
    star_greedy p i (w ++ c :: rest) k = Some x.
Proof.
  intros Hw Hc. induction w as [|y w IH]; intros i Hk; simpl in *.
  - rewrite Hc. now rewrite Nat.add_0_r in Hk.
  - apply andb_true_iff in Hw. destruct Hw as [Hy Hw]. rewrite Hy.
    rewrite (IH Hw (S i)); [reflexivity|].
    now rewrite Nat.add_succ_r in Hk.
Qed.

Lemma search_from_cons_none r i c s :
  mtch r i (c :: s) [] (fun _ _ cs => Some cs) = None ->
  search_from r i (c :: s) = search_from r (S i) s.
Proof. intros Hm. simpl. now rewrite Hm. Qed.

Lemma search_from_here r i s m :
  mtch r i s [] (fun _ _ cs => Some cs) = Some m ->
  search_from r i s = Some m.
Proof. intros Hm. destruct s; simpl; now rewrite Hm. Qed.

Section TenantRoundTrip.
Import AuthChecker AuthCheckerAll.

Lemma dot_is_46 : u "." = [46].
Proof. vm_compute. reflexivity. Qed.

Lemma dash_is_45 : u "-" = [45].
Proof. vm_compute. reflexivity. Qed.

(** Replacing the dots by dashes leaves no dot. *)
Lemma replace_dots_no_dot s :
  forallb not_dot (replace s (u ".") (u "-")) = true.
Proof.
  rewrite dot_is_46, dash_is_45. unfold replace.
  induction s as [|c s IH]; [reflexivity|].
  cbn [replace_aux length pred]. unfold startswith. cbn [strip_prefix].
  destruct (N.eqb_spec 46 c) as [E|E].
  - cbn [app forallb]. now rewrite IH.
  - cbn [forallb]. rewrite IH. unfold not_dot.
    destruct (N.eqb_spec c 46); [congruence | reflexivity].
Qed.

Lemma domainkey_split : u "_domainkey." = u "_domainkey" ++ [46].
Proof. vm_compute. reflexivity. Qed.

Lemma domainkey_no_dot : forallb not_dot (u "_domainkey") = true.
Proof. vm_compute. reflexivity. Qed.

Lemma mtch_tenant_none i s :
  strip_prefix (u "_domainkey.") s = None ->
  mtch re_tenant i s [] (fun _ _ cs => Some cs) = None.
Proof. intros Hs. unfold re_tenant. cbn [mtch]. now rewrite Hs. Qed.

Lemma onmicrosoft_starts : u ".onmicrosoft.com" = 46 :: u "onmicrosoft.com".
Proof. vm_compute. reflexivity. Qed.

Lemma mtch_tenant_here i label trail :
  label <> [] -> forallb not_dot label = true ->
  trail = [] \/ trail = [46] ->
  mtch re_tenant i
       (u "_domainkey." ++ label ++ u ".onmicrosoft.com" ++ trail) []
       (fun _ _ cs => Some cs)
  = Some [(1%nat, label ++ u ".onmicrosoft.com")].
Proof.
  intros Hne Hl Ht. destruct label as [|c w]; [congruence|].
  cbn [forallb] in Hl. apply andb_true_iff in Hl. destruct Hl as [Hc Hw].
  unfold re_tenant. cbn [mtch Plus]. rewrite strip_prefix_app.
  change ((c :: w) ++ u ".onmicrosoft.com" ++ trail)
    with (c :: (w ++ u ".onmicrosoft.com" ++ trail)).
  cbv iota beta. rewrite Hc.
  rewrite onmicrosoft_starts.
  change ((46 :: u "onmicrosoft.com") ++ trail)
    with (46 :: (u "onmicrosoft.com" ++ trail)).
  apply star_greedy_all; [exact Hw | reflexivity |].
  rewrite <- onmicrosoft_starts.
  change (46 :: (u "onmicrosoft.com" ++ trail))
    with ((46 :: u "onmicrosoft.com") ++ trail).
  rewrite <- onmicrosoft_starts.
  rewrite strip_prefix_app.
  replace (firstn _ _) with (c :: w ++ u ".onmicrosoft.com").
  - rewrite dot_is_46. destruct Ht as [-> | ->]; reflexivity.
  - symmetry.
    match goal with
    | |- firstn ?n _ = _ =>
      replace n with (length ((c :: w) ++ u ".onmicrosoft.com"))
        by (rewrite length_app; cbn [length]; lia)
    end.
    change (c :: w ++ u ".onmicrosoft.com" ++ trail)
      with ((c :: w) ++ u ".onmicrosoft.com" ++ trail).
    rewrite app_assoc. apply firstn_exact.
Qed.

Lemma star_greedy_fail {A : Type} (p : char -> bool)
      (k : nat -> str -> option A) c rest :
  p c = false ->
  forall w i,
    (forall n, (n <= length w)%nat ->
               k (i + n)%nat (skipn n (w ++ c :: rest)) = None) ->
    star_greedy p i (w ++ c :: rest) k = None.
Proof.
  intros Hc. induction w as [|y w IH]; intros i Hk.
  - simpl. rewrite Hc. specialize (Hk O (Nat.le_refl _)).
    now rewrite Nat.add_0_r in Hk.
  - assert (H0 : k i ((y :: w) ++ c :: rest) = None)
      by (specialize (Hk O (Nat.le_0_l _)); now rewrite Nat.add_0_r in Hk).
    simpl. destruct (p y); [|exact H0].
    rewrite IH; [exact H0|].
    intros n Hn. specialize (Hk (S n)). rewrite Nat.add_succ_r in Hk.
    apply Hk. simpl. lia.
Qed.

Lemma onmicrosoft_no_dot : forallb not_dot (u "onmicrosoft") = true.
Proof. vm_compute. reflexivity. Qed.

(** After a label without a dot, [.onmicrosoft.com] does not read as
    [onmicrosoft.com]. *)
Lemma no_onmicrosoft_at_label label trail :
  forallb not_dot label = true ->
  strip_prefix (u "onmicrosoft.com") (label ++ u ".onmicrosoft.com" ++ trail)
  = None.
Proof.
  intros Hl.
  destruct (strip_prefix (u "onmicrosoft.com")
                         (label ++ u ".onmicrosoft.com" ++ trail))
    as [s'|] eqn:E; [|reflexivity].
  exfalso. apply strip_prefix_inv in E.
  apply (f_equal (lstrip_by not_dot)) in E.
  replace (u "onmicrosoft.com") with (u "onmicrosoft" ++ 46 :: u "com") in E
    by (vm_compute; reflexivity).
  rewrite <- app_assoc in E.
  rewrite (lstrip_by_app_all not_dot label _ Hl) in E.
  rewrite (lstrip_by_app_all not_dot (u "onmicrosoft") _ onmicrosoft_no_dot) in E.
  rewrite onmicrosoft_starts in E.
  replace (u "onmicrosoft.com") with (111 :: u "nmicrosoft.com") in E
    by (vm_compute; reflexivity).
  replace (u "com") with (99 :: u "om") in E by (vm_compute; reflexivity).
  simpl in E. discriminate E.
Qed.

Lemma domainkey_starts : u "_domainkey." = 95 :: u "domainkey" ++ [46].
Proof. vm_compute. reflexivity. Qed.

Lemma no_onmicrosoft_in_domainkey rest :
  strip_prefix (u "onmicrosoft.com") rest = None ->
  forall n, (n <= 9)%nat ->
            strip_prefix (u ".onmicrosoft.com")
                         (skipn n (u "domainkey" ++ 46 :: rest)) = None.
Proof.
  intros Hrest n Hn. rewrite onmicrosoft_starts.
  replace (u "domainkey") with [100; 111; 109; 97; 105; 110; 107; 101; 121]
    by (vm_compute; reflexivity).
  do 9 (destruct n as [|n]; [reflexivity|]).
  destruct n as [|n]; [|lia].
  cbn [app skipn strip_prefix N.eqb Pos.eqb]. exact Hrest.
Qed.

(** Where the literal [_domainkey.] is found inside the first label, what
    follows does not complete the pattern. *)
Lemma mtch_tenant_none_in_prefix label trail a i :
  forallb not_dot a = true ->
  forallb not_dot label = true ->
  mtch re_tenant i
       (a ++ 46 :: u "_domainkey." ++ label ++ u ".onmicrosoft.com" ++ trail)
       [] (fun _ _ cs => Some cs)
  = None.
Proof.
  intros Ha Hl.
  set (rest := label ++ u ".onmicrosoft.com" ++ trail).
  destruct (strip_prefix (u "_domainkey.") (a ++ 46 :: u "_domainkey." ++ rest))
    as [s'|] eqn:E; [|now apply mtch_tenant_none].
  assert (Hs : s' = u "_domainkey." ++ rest).
  { pose proof (strip_prefix_inv _ _ _ E) as E'.
    apply (f_equal (lstrip_by not_dot)) in E'.
    rewrite domainkey_split in E' at 2. rewrite <- app_assoc in E'.
    rewrite (lstrip_by_app_all not_dot a _ Ha) in E'.
    rewrite (lstrip_by_app_all not_dot (u "_domainkey") _ domainkey_no_dot) in E'.
    simpl in E'. now inversion E'. }
  subst s'. unfold re_tenant. cbn [mtch Plus]. rewrite E.
  rewrite domainkey_starts. cbn [app]. rewrite <- app_assoc. cbn [app].
  cbv iota beta.
  replace (not_dot 95) with true by reflexivity. cbv iota.
  apply star_greedy_fail; [reflexivity|].
  intros n Hn. cbn [mtch].
  rewrite (no_onmicrosoft_in_domainkey rest); [reflexivity | | exact Hn].
  now apply no_onmicrosoft_at_label.
Qed.

(** The tenant is read back from a CNAME target of the recommended form:
    a first label without a dot, then [._domainkey.], the tenant label and
    [.onmicrosoft.com], with or without the final dot. *)
Lemma search_tenant_recommended label trail :
  label <> [] -> forallb not_dot label = true ->
  trail = [] \/ trail = [46] ->
  forall pre i,
    forallb not_dot pre = true ->
    search_from re_tenant i
                (pre ++ 46 :: u "_domainkey." ++ label
                     ++ u ".onmicrosoft.com" ++ trail)
    = Some [(1%nat, label ++ u ".onmicrosoft.com")].
Proof.
  intros Hne Hl Ht. induction pre as [|c pre IH]; intros i Hpre.
  - cbn [app]. rewrite search_from_cons_none.
    + apply search_from_here. now apply mtch_tenant_here.
    + apply (mtch_tenant_none_in_prefix label trail [] i eq_refl Hl).
  - assert (Hpre' : forallb not_dot pre = true)
      by (simpl in Hpre; apply andb_true_iff in Hpre; tauto).
    change ((c :: pre) ++ ?x) with (c :: (pre ++ x)).
    rewrite search_from_cons_none; [now apply IH|].
    apply (mtch_tenant_none_in_prefix label trail (c :: pre) i Hpre Hl).
Qed.

Lemma selector1_no_dot : forallb not_dot (u "selector1" ++ u "-") = true.
Proof. vm_compute. reflexivity. Qed.

Lemma dot_domainkey_starts : u "._domainkey." = 46 :: u "_domainkey.".
Proof. vm_compute. reflexivity. Qed.

Lemma reassociate_target (S1 D R K L M T : str) :
  S1 ++ D ++ R ++ (46 :: K) ++ (L ++ M) ++ T
  = ((S1 ++ D) ++ R) ++ 46 :: K ++ L ++ M ++ T.
Proof. rewrite <- !app_assoc. reflexivity. Qed.

(** The recommended CNAME target for selector1 names its tenant. *)
Lemma first_tenant_recommended d label trail other :
  label <> [] -> forallb not_dot label = true ->
  trail = [] \/ trail = [46] ->
  first_tenant
    [{| Found.selector := u "selector1";
        Found.record := u "selector1" ++ u "-" ++ replace d (u ".") (u "-")
                          ++ u "._domainkey."
                          ++ (label ++ u ".onmicrosoft.com") ++ trail;
        Found.type := u "CNAME" |}; other]
  = Some (label ++ u ".onmicrosoft.com").
Proof.
  intros Hne Hl Ht. cbn [first_tenant Found.type Found.record].
  replace (str_eqb (u "CNAME") (u "CNAME")) with true by (vm_compute; reflexivity).
  rewrite dot_domainkey_starts, reassociate_target. unfold re_search.
  rewrite (search_tenant_recommended label trail Hne Hl Ht).
  - reflexivity.
  - rewrite forallb_app, selector1_no_dot. apply replace_dots_no_dot.
Qed.

(** Round trip of the DKIM recommendation: once selector1 is published as
    the CNAME the checker recommends for a tenant [label.onmicrosoft.com]
    (with or without the root dot, [label] a non-empty label) and selector2
    has a CNAME too, [check_dkim] finishes without a new issue, reads the
    tenant back from the target and recommends the same two records again,
    whatever the domain is. *)
Theorem recommended_cnames_accepted resolve c label trail rest1 other rest2 :
  label <> [] -> forallb not_dot label = true ->
  trail = [] \/ trail = [46] ->
  resolve (u "selector1" ++ u "._domainkey." ++ domain c) CNAME
  = inr ((u "selector1" ++ u "-" ++ replace (domain c) (u ".") (u "-")
            ++ u "._domainkey." ++ (label ++ u ".onmicrosoft.com") ++ trail)
           :: rest1) ->
  resolve (u "selector2" ++ u "._domainkey." ++ domain c) CNAME
  = inr (other :: rest2) ->
  exists c',
    check_dkim resolve c = Ok c'
    /\ gained c c' = []
    /\ Recommendations.dkim (recommendations c')
       = Some (tenant_recommendations (domain c)
                                      (label ++ u ".onmicrosoft.com")).
Proof.
  intros Hne Hl Ht H1 H2.
  unfold check_dkim. cbv zeta. cbn [check_selectors].
  rewrite (check_selector_cname resolve c [] _ _ rest1 H1).
  rewrite (check_selector_cname resolve c _ _ other rest2 H2).
  cbn [app length Nat.ltb Nat.leb].
  eexists. split; [reflexivity|].
  rewrite recommend_dkim_spec.
  unfold _extract_tenant_domain.
  cbn [records Records.dkim set_record_dkim set_records
       with_results results Results.records].
  rewrite (first_tenant_recommended (domain c) label trail _ Hne Hl Ht).
  destruct label as [|ch label]; [congruence|]. cbn [app].
  unfold gained.
  cbn [issues recommendations domain set_record_dkim set_records
       set_recommendations with_results results Results.issues
       Results.recommendations Recommendations.dkim].
  split; [|reflexivity].
  apply skipn_all.
Qed.
End TenantRoundTrip.

Lemma recommended_cnames_accepted_witness :
  exists c',
    AuthChecker.check_dkim
      (fun name t =>
         match t with
         | AuthChecker.CNAME =>
           inr [u "selector1-example-com._domainkey.contoso.onmicrosoft.com."]
         | AuthChecker.TXT => inl (u "NXDOMAIN")
         end)
      (AuthChecker.init (u "example.com") false (u "t")) = AuthChecker.Ok c'
    /\ AuthChecker.issues c' = []
    /\ AuthChecker.Recommendations.dkim (AuthChecker.recommendations c')
       = Some (AuthCheckerAll.tenant_recommendations
                 (u "example.com") (u "contoso.onmicrosoft.com")).
Proof.
  destruct (recommended_cnames_accepted
              (fun name t =>
                 match t with
                 | AuthChecker.CNAME =>
                   inr [u "selector1-example-com._domainkey.contoso.onmicrosoft.com."]
                 | AuthChecker.TXT => inl (u "NXDOMAIN")
                 end)
              (AuthChecker.init (u "example.com") false (u "t"))
              (u "contoso") [46] []
              (u "selector1-example-com._domainkey.contoso.onmicrosoft.com.") [])
    as (c' & Hrun & Hgain & Hrec).
  - discriminate.
  - vm_compute. reflexivity.
  - right. reflexivity.
  - vm_compute. reflexivity.
  - reflexivity.
  - exists c'. split; [exact Hrun|]. split.
    + exact Hgain.
    + rewrite Hrec. vm_compute. reflexivity.
Defined.

(** * When the whole run returns *)

Lemma lstrip_by_length (p : char -> bool) s :
  (length (lstrip_by p s) <= length s)%nat.
Proof.
  induction s as [|c s IH]; simpl; [lia|].
  destruct (p c); simpl; lia.
Qed.

Lemma strip_by_length (p : char -> bool) s :
  (length (strip_by p s) <= length s)%nat.
Proof.
  unfold strip_by, rstrip_by. rewrite length_rev.
  etransitivity; [apply lstrip_by_length|]. rewrite length_rev.
  apply lstrip_by_length.
Qed.

Section CheckAllReturns.
Import AuthChecker AuthCheckerAll.
Context `{UnicodeTables} `{DecimalTables}.

(** The digits [pct=(\d+)] captures are part of the text. *)
Lemma pct_group_short s m :
  re_search re_pct s = Some m -> (length (group 1 m) <= length s)%nat.
Proof.
  unfold re_search. intros E.
  destruct (search_from_sound _ _ _ _ E) as (n & j & s' & Hm).
  unfold re_pct in Hm.
  apply matches_seq_inv in Hm. destruct Hm as (j1 & s1 & cs1 & Hl & Hg).
  apply matches_lit in Hl.
  apply matches_grp_inv in Hg.
  destruct Hl as (Hs & _ & _). destruct Hg as (cs2 & _ & ->).
  cbn [group Nat.eqb].
  rewrite length_firstn.
  assert (L : (length (skipn n s) <= length s)%nat)
    by (rewrite length_skipn; lia).
  rewrite Hs, length_app in L. lia.
Qed.

Lemma int_of_short_digits s :
  (length s <= 640)%nat -> exists n, int_of_digits s = Return n.
Proof.
  intros L. unfold int_of_digits.
  replace (640 <? length s)%nat with false
    by (symmetry; apply Nat.ltb_ge; exact L).
  cbn [andb]. eexists. reflexivity.
Qed.

Lemma check_selector_returns resolve c f selector :
  answers_nonempty resolve ->
  exists c1 f1, check_selector resolve (c, f) selector = Ok (c1, f1).
Proof.
  intros Hne. unfold check_selector.
  destruct (resolve (selector ++ u "._domainkey." ++ domain c) CNAME)
    as [e|[|a rest]] eqn:E1.
  - destruct (resolve (selector ++ u "._domainkey." ++ domain c) TXT)
      as [e'|[|a rest]] eqn:E2; cbn [first_answer].
    + eauto.
    + exfalso. exact (Hne _ _ _ E2 eq_refl).
    + eauto.
  - exfalso. exact (Hne _ _ _ E1 eq_refl).
  - cbn [first_answer]. eauto.
Qed.

Lemma check_dkim_returns resolve c :
  answers_nonempty resolve -> exists c', check_dkim resolve c = Ok c'.
Proof.
  intros Hne. unfold check_dkim. cbv zeta. cbn [check_selectors].
  destruct (check_selector_returns resolve c [] (u "selector1") Hne)
    as (c1 & f1 & ->).
  destruct (check_selector_returns resolve c1 f1 (u "selector2") Hne)
    as (c2 & f2 & ->).
  eexists. reflexivity.
Qed.

Lemma check_dmarc_returns resolve c :
  (forall answers rdata,
      resolve (u "_dmarc." ++ domain c) TXT = inr answers ->
      In rdata answers -> (length rdata <= 640)%nat) ->
  exists c', check_dmarc resolve c = Return c'.
Proof.
  intros Hshort. unfold check_dmarc. cbv zeta.
  destruct (resolve (u "_dmarc." ++ domain c) TXT) as [e|answers] eqn:E;
    [eexists; reflexivity|].
  destruct (dmarc_candidates answers) as [|cand others] eqn:Ec;
    cbn [map]; [eexists; reflexivity|].
  assert (Hin : In cand answers).
  { assert (Hc : In cand (dmarc_candidates answers)) by (rewrite Ec; now left).
    unfold dmarc_candidates in Hc. apply filter_In in Hc. tauto. }
  pose proof (Hshort _ _ eq_refl Hin) as L.
  set (rec := strip_chars dquote cand).
  assert (Lr : (length rec <= 640)%nat).
  { unfold rec, strip_chars. etransitivity; [apply strip_by_length | exact L]. }
  destruct (re_search re_pct rec) as [m|] eqn:Em.
  - destruct (int_of_short_digits (group 1 m)) as [n ->].
    + etransitivity; [exact (pct_group_short _ _ Em) | exact Lr].
    + eexists. reflexivity.
  - eexists. reflexivity.
Qed.

(** When does [check_all] return?  The two exceptions that can escape it
    are the [IndexError] of [answers[0]] on an empty answer, which the
    resolver never gives, and the [ValueError] of [int] on a run of more
    than 640 digits after [pct=].  So, with a resolver whose answers are
    never empty and DMARC answers of at most 640 characters each,
    [check_all] returns. *)
Theorem check_all_returns resolve c :
  answers_nonempty resolve ->
  (forall answers rdata,
      resolve (u "_dmarc." ++ domain c) TXT = inr answers ->
      In rdata answers -> (length rdata <= 640)%nat) ->
  exists c', check_all resolve c = Return c'.
Proof.
  intros Hne Hshort. unfold check_all. cbv zeta.
  destruct (check_spf_keeps resolve c) as (Sd & _).
  destruct (check_dkim_returns resolve (check_spf resolve c) Hne) as [c2 E2].
  rewrite E2.
  destruct (check_dkim_keeps _ _ _ E2) as (Kd & _).
  destruct (check_dmarc_returns resolve c2) as [c3 E3].
  - rewrite Kd, Sd. exact Hshort.
  - rewrite E3. eexists. reflexivity.
Qed.
End CheckAllReturns.

Lemma check_all_returns_witness :
  exists c',
    AuthCheckerAll.check_all (H := ascii_tables) (H0 := ascii_digits)
      (AuthChecker.one_txt
         (AuthChecker.dquote ++ u "v=DMARC1; p=reject; pct=50"
                             ++ AuthChecker.dquote))
      (AuthChecker.init (u "example.com") false (u "t"))
    = AuthCheckerAll.Return c'.
Proof.
  apply (check_all_returns
           (H := ascii_tables) (H0 := ascii_digits)
           (AuthChecker.one_txt
              (AuthChecker.dquote ++ u "v=DMARC1; p=reject; pct=50"
                                  ++ AuthChecker.dquote))
           (AuthChecker.init (u "example.com") false (u "t"))).
  - intros name t answers E. destruct t; [discriminate E|].
    inversion E. discriminate.
  - intros answers rdata E Hin. inversion E; subst answers.
    destruct Hin as [<-|[]]. apply Nat.leb_le. vm_compute. reflexivity.
Defined.
